(** * Nuclear cross-section tables and their interpolation

    A shallow embedding of [lib/cross_sections.py]: the shared energy grid,
    the sixteen tabulated curves, the eight [MP] material records, the
    property accessors and the two piecewise-linear lookups.

    The Python code computes on numpy [float64] values.  The embedding is
    written once over an arithmetic interface [Arith] and read at two
    instances: [binary64] (the kernel's IEEE 754 double precision numbers,
    what the interpreter computes, bit for bit) and [exact] (real numbers,
    the mathematical reading of the same expressions). *)

From Stdlib Require Import ZArith QArith Reals List Bool Lia Lra.
From Stdlib Require Import Floats Uint63.
Import ListNotations.

Local Open Scope nat_scope.

(** The real numbers; [R] itself is a field of the material records below. *)
Abbreviation real := R (only parsing).

(** ** Exceptions and results *)

(** [IndexError] is what an out-of-range subscript raises.  The source never
    raises [InvalidSelectorError]; the constructor exists so that statements
    about it can be written. *)
Inductive exn : Set :=
| IndexError
| InvalidSelectorError.

Inductive result (A : Type) : Type :=
| Ok (v : A)
| Raise (e : exn).

Arguments Ok {A} v.
Arguments Raise {A} e.

Definition bind {A B : Type} (c : result A) (k : A -> result B) : result B :=
  match c with
  | Ok v => k v
  | Raise e => Raise e
  end.

Notation "x <- c ;; k" := (bind c (fun x => k))
  (at level 61, c at next level, right associativity).

(** [l[i]] for a non-negative subscript. *)
Definition index {A : Type} (l : list A) (i : nat) : result A :=
  match nth_error l i with
  | Some v => Ok v
  | None => Raise IndexError
  end.

(** ** The decimal literals of the source *)

(** The tables, digit for digit as the source spells them (a leading or
    trailing dot completed with a zero). *)
Module Lit.
Local Open Scope Q_scope.

Definition energy : list Q :=
  [0.0005; 0.001; 0.0015; 0.002; 0.0025; 0.003; 0.0035; 0.004; 0.0045; 0.005;
   0.0055; 0.006; 0.0065; 0.007; 0.0075; 0.008; 0.009; 0.01; 0.011; 0.012;
   0.013; 0.014; 0.015; 0.0175; 0.02; 0.0225; 0.025; 0.03; 0.035; 0.04;
   0.045; 0.05; 0.051; 0.055; 0.06; 0.07; 0.08; 0.09; 0.1; 0.11; 0.12; 0.14;
   0.16; 0.18; 0.2; 0.225; 0.25; 0.275; 0.3; 0.325; 0.35; 0.375; 0.4; 0.5;
   0.7; 1.0; 1.5; 2.0; 2.5].

Definition z6_elastic : list Q :=
  [0.0; 0.0; 0.0; 0.0; 0.0; 0.321; 0.335; 0.349; 0.363; 0.377; 0.386; 0.395;
   0.404; 0.413; 0.423; 0.434; 0.456; 0.479; 0.509; 0.539; 0.569; 0.598;
   0.628; 0.685; 0.743; 0.783; 0.822; 0.878; 0.915; 0.938; 0.813; 0.688;
   0.678; 0.641; 0.594; 0.515; 0.448; 0.392; 0.345; 0.305; 0.272; 0.214;
   0.167; 0.138; 0.117; 0.098; 0.085; 0.077; 0.072; 0.068; 0.067; 0.066;
   0.067; 0.077; 0.09; 0.102; 0.108; 0.114; 0.113].

Definition z6_inelastic : list Q :=
  [0.0; 0.0; 0.0; 0.0; 0.0; 0.0; 0.0; 0.0; 0.0; 0.013; 0.078; 0.131; 0.175;
   0.212; 0.244; 0.271; 0.314; 0.346; 0.370; 0.389; 0.403; 0.413; 0.421;
   0.432; 0.434; 0.432; 0.427; 0.412; 0.394; 0.376; 0.359; 0.344; 0.288;
   0.281; 0.272; 0.257; 0.245; 0.235; 0.228; 0.223; 0.220; 0.223; 0.213;
   0.212; 0.212; 0.212; 0.213; 0.214; 0.216; 0.217; 0.219; 0.221; 0.223;
   0.229; 0.246; 0.261; 0.261; 0.257; 0.255].

Definition z13_elastic : list Q :=
  [0.0; 0.0; 0.0; 0.0; 0.0; 0.091; 0.164; 0.237; 0.311; 0.384; 0.428; 0.473;
   0.518; 0.562; 0.607; 0.623; 0.654; 0.686; 0.692; 0.699; 0.701; 0.700;
   0.700; 0.707; 0.714; 0.737; 0.761; 0.832; 0.905; 0.976; 0.993; 1.010;
   1.007; 0.994; 0.979; 0.921; 0.854; 0.786; 0.720; 0.658; 0.601; 0.490;
   0.382; 0.320; 0.274; 0.231; 0.202; 0.181; 0.167; 0.159; 0.153; 0.151;
   0.151; 0.170; 0.198; 0.220; 0.232; 0.243; 0.242].

Definition z13_inelastic : list Q :=
  [0.0; 0.0; 0.0; 0.0; 0.123; 0.280; 0.391; 0.474; 0.537; 0.587; 0.626;
   0.658; 0.684; 0.705; 0.722; 0.736; 0.757; 0.771; 0.780; 0.785; 0.787;
   0.787; 0.786; 0.777; 0.764; 0.749; 0.732; 0.699; 0.667; 0.638; 0.611;
   0.587; 0.530; 0.518; 0.503; 0.478; 0.456; 0.437; 0.422; 0.410; 0.402;
   0.397; 0.394; 0.393; 0.392; 0.393; 0.395; 0.397; 0.399; 0.402; 0.405;
   0.408; 0.411; 0.415; 0.438; 0.457; 0.460; 0.454; 0.450].

Definition z26_elastic : list Q :=
  [0.0; 0.0; 0.0; 0.0; 0.0; 0.001; 0.015; 0.030; 0.045; 0.059; 0.109; 0.159;
   0.209; 0.259; 0.309; 0.364; 0.474; 0.584; 0.668; 0.753; 0.819; 0.867;
   0.915; 0.964; 1.013; 1.030; 1.047; 1.063; 1.075; 1.098; 1.121; 1.143;
   1.153; 1.192; 1.240; 1.293; 1.306; 1.289; 1.250; 1.198; 1.137; 0.984;
   0.777; 0.669; 0.582; 0.499; 0.438; 0.393; 0.361; 0.340; 0.325; 0.317;
   0.314; 0.346; 0.389; 0.425; 0.444; 0.461; 0.460].

Definition z26_inelastic : list Q :=
  [0.0; 0.0; 0.0; 0.0; 0.0; 0.0; 0.0; 0.017; 0.174; 0.301; 0.404; 0.490;
   0.562; 0.623; 0.676; 0.721; 0.795; 0.852; 0.896; 0.931; 0.959; 0.981;
   0.999; 1.028; 1.044; 1.05; 1.05; 1.04; 1.021; 0.999; 0.976; 0.952; 0.920;
   0.899; 0.873; 0.834; 0.790; 0.753; 0.719; 0.698; 0.685; 0.672; 0.677;
   0.674; 0.673; 0.674; 0.675; 0.678; 0.681; 0.685; 0.689; 0.693; 0.697;
   0.679; 0.710; 0.735; 0.744; 0.740; 0.739].

Definition z29_elastic : list Q :=
  [0.0; 0.0; 0.0; 0.0; 0.0; 0.0; 0.017; 0.025; 0.033; 0.077; 0.121; 0.165;
   0.208; 0.252; 0.310; 0.426; 0.541; 0.634; 0.726; 0.800; 0.855; 0.910;
   0.971; 1.033; 1.058; 1.083; 1.113; 1.132; 1.156; 1.161; 1.165; 1.175;
   1.216; 1.268; 1.337; 1.368; 1.368; 1.343; 1.300; 1.245; 1.092; 0.869;
   0.752; 0.657; 0.565; 0.496; 0.446; 0.410; 0.384; 0.368; 0.358; 0.353;
   0.385; 0.429; 0.468; 0.488; 0.505; 0.504].

Definition z29_inelastic : list Q :=
  [0.0; 0.0; 0.0; 0.0; 0.0; 0.0; 0.0; 0.063; 0.225; 0.354; 0.460; 0.548;
   0.622; 0.685; 0.739; 0.786; 0.862; 0.920; 0.966; 1.003; 1.032; 1.055;
   1.073; 1.104; 1.121; 1.128; 1.128; 1.118; 1.100; 1.077; 1.053; 1.029;
   0.986; 0.966; 0.942; 0.902; 0.859; 0.822; 0.788; 0.765; 0.749; 0.732;
   0.736; 0.733; 0.732; 0.732; 0.734; 0.737; 0.740; 0.744; 0.748; 0.752;
   0.756; 0.736; 0.768; 0.794; 0.805; 0.804; 0.806].

Definition z73_elastic : list Q :=
  [0; 0; 0; 0; 0; 0; 0; 0; 0; 0; 0; 0; 0; 0; 0; 0.004; 0.011; 0.019; 0.072;
   0.126; 0.207; 0.316; 0.425; 0.704; 0.982; 1.124; 1.266; 1.401; 1.506;
   1.586; 1.593; 1.600; 1.608; 1.639; 1.679; 1.773; 1.884; 2.001; 2.109;
   2.198; 2.261; 2.255; 1.984; 1.831; 1.679; 1.506; 1.359; 1.240; 1.146;
   1.07; 1.022; 0.985; 0.963; 0.997; 1.053; 1.119; 1.186; 1.193; 1.192].

Definition z73_inelastic : list Q :=
  [0; 0; 0; 0; 0; 0; 0; 0; 0; 0; 0; 0; 0; 0; 0; 0.012; 0.286; 0.505; 0.685;
   0.833; 0.958; 1.065; 1.156; 1.334; 1.462; 1.557; 1.628; 1.723; 1.779;
   1.810; 1.825; 1.831; 1.824; 1.823; 1.821; 1.807; 1.784; 1.761; 1.736;
   1.705; 1.676; 1.629; 1.604; 1.591; 1.578; 1.574; 1.568; 1.564; 1.560;
   1.555; 1.551; 1.546; 1.541; 1.549; 1.599; 1.641; 1.666; 1.669; 1.674].

Definition z74_elastic : list Q :=
  [0.0; 0.0; 0.0; 0.0; 0.0; 0.0; 0.0; 0.0; 0.0; 0.0; 0.0; 0.0; 0.0; 0.0; 0.0;
   0.003; 0.010; 0.017; 0.067; 0.118; 0.197; 0.305; 0.412; 0.694; 0.975;
   1.121; 1.267; 1.404; 1.511; 1.591; 1.600; 1.610; 1.618; 1.649; 1.689;
   1.782; 1.893; 2.010; 2.120; 2.211; 2.276; 2.275; 2.006; 1.852; 1.700;
   1.526; 1.378; 1.258; 1.163; 1.090; 1.037; 1.000; 0.977; 1.011; 1.067;
   1.134; 1.171; 1.209; 1.207].

Definition z74_inelastic : list Q :=
  [0.0; 0.0; 0.0; 0.0; 0.0; 0.0; 0.0; 0.0; 0.0; 0.0; 0.0; 0.0; 0.0; 0.0; 0.0;
   0.0; 0.265; 0.489; 0.672; 0.823; 0.951; 1.059; 1.152; 1.334; 1.465; 1.562;
   1.635; 1.733; 1.790; 1.823; 1.840; 1.846; 1.840; 1.839; 1.838; 1.825;
   1.804; 1.782; 1.759; 1.728; 1.700; 1.653; 1.626; 1.612; 1.599; 1.594;
   1.588; 1.583; 1.578; 1.573; 1.568; 1.562; 1.557; 1.568; 1.618; 1.659;
   1.686; 1.689; 1.693].

Definition z78_elastic : list Q :=
  [0.0; 0.0; 0.0; 0.0; 0.0; 0.0; 0.0; 0.0; 0.0; 0.0; 0.0; 0.0; 0.0; 0.0; 0.0;
   0.002; 0.007; 0.011; 0.053; 0.095; 0.166; 0.267; 0.368; 0.660; 0.951;
   1.110; 1.268; 1.414; 1.527; 1.611; 1.628; 1.644; 1.652; 1.684; 1.724;
   1.815; 1.926; 2.044; 2.159; 2.257; 2.330; 2.344; 2.082; 1.930; 1.776;
   1.599; 1.447; 1.323; 1.224; 1.148; 1.093; 1.053; 1.029; 1.063; 1.120;
   1.188; 1.226; 1.265; 1.263].

Definition z78_inelastic : list Q :=
  [0.0; 0.0; 0.0; 0.0; 0.0; 0.0; 0.0; 0.0; 0.0; 0.0; 0.0; 0.0; 0.0; 0.0; 0.0;
   0.0; 0.176; 0.415; 0.611; 0.774; 0.911; 1.028; 1.128; 1.325; 1.467; 1.573;
   1.653; 1.762; 1.827; 1.866; 1.888; 1.898; 1.947; 1.935; 1.920; 1.896;
   1.867; 1.833; 1.799; 1.762; 1.729; 1.678; 1.658; 1.649; 1.641; 1.639;
   1.638; 1.637; 1.637; 1.637; 1.637; 1.637; 1.638; 1.633; 1.684; 1.727;
   1.755; 1.758; 1.763].

Definition z82_elastic : list Q :=
  [0.0; 0.0; 0.0; 0.0; 0.0; 0.0; 0.0; 0.0; 0.0; 0.0; 0.0; 0.0; 0.0; 0.0; 0.0;
   0.001; 0.004; 0.007; 0.040; 0.074; 0.138; 0.231; 0.325; 0.625; 0.925;
   1.097; 1.270; 1.426; 1.545; 1.633; 1.659; 1.684; 1.692; 1.725; 1.765;
   1.853; 1.962; 2.083; 2.203; 2.309; 2.392; 2.423; 2.170; 2.020; 1.865;
   1.685; 1.528; 1.399; 1.296; 1.216; 1.158; 1.116; 1.090; 1.124; 1.181;
   1.251; 1.291; 1.330; 1.328].

Definition z82_inelastic : list Q :=
  [0.0; 0.0; 0.0; 0.0; 0.0; 0.0; 0.0; 0.0; 0.0; 0.0; 0.0; 0.0; 0.0; 0.0; 0.0;
   0.0; 0.090; 0.346; 0.556; 0.731; 0.878; 1.004; 1.112; 1.325; 1.479; 1.594;
   1.682; 1.803; 1.877; 1.922; 1.948; 1.962; 2.074; 2.048; 2.015; 1.979;
   1.939; 1.892; 1.845; 1.801; 1.762; 1.706; 1.695; 1.691; 1.690; 1.691;
   1.695; 1.699; 1.705; 1.712; 1.718; 1.725; 1.733; 1.711; 1.763; 1.807;
   1.836; 1.840; 1.845].

End Lit.

(** ** Arithmetic *)

(** What the lookups need of their numbers: the value of a decimal literal,
    the four operations, and the comparison [<=]. *)
Class Arith (F : Type) : Type := {
  lit : Q -> F;
  fadd : F -> F -> F;
  fsub : F -> F -> F;
  fmul : F -> F -> F;
  fdiv : F -> F -> F;
  fleb : F -> F -> bool
}.

Arguments lit {F Arith} q%_Q.

(** [float(n)] for an integer [n] below [2^63] in magnitude (exact below
    [2^53]). *)
Definition float_of_Z (n : Z) : float :=
  match n with
  | Z0 => PrimFloat.zero
  | Zpos _ => PrimFloat.of_uint63 (Uint63.of_Z n)
  | Zneg p => PrimFloat.opp (PrimFloat.of_uint63 (Uint63.of_Z (Zpos p)))
  end.

(** A decimal literal [n / 10^k] denotes the double nearest to it; with [n]
    and [10^k] below [2^53] that is the correctly rounded quotient of the two
    integers. *)
Definition lit64 (q : Q) : float :=
  PrimFloat.div (float_of_Z (Qnum q)) (float_of_Z (Zpos (Qden q))).

#[export] Instance binary64 : Arith float | 0 := {
  lit := lit64;
  fadd := PrimFloat.add;
  fsub := PrimFloat.sub;
  fmul := PrimFloat.mul;
  fdiv := PrimFloat.div;
  fleb := PrimFloat.leb
}.

Definition Rleb (x y : R) : bool := if Rle_dec x y then true else false.

#[export] Instance exact : Arith R | 1 := {
  lit := Q2R;
  fadd := Rplus;
  fsub := Rminus;
  fmul := Rmult;
  fdiv := Rdiv;
  fleb := Rleb
}.

(** ** Materials *)

Section Materials.
Context {F : Type} {AR : Arith F}.

(** A Python number: some atomic numbers are written [26], some [6.0]. *)
Inductive number : Type :=
| PyInt (n : Z)
| PyFloat (x : F).

Definition energy : list F := map lit Lit.energy.
Definition z6_elastic : list F := map lit Lit.z6_elastic.
Definition z6_inelastic : list F := map lit Lit.z6_inelastic.
Definition z13_elastic : list F := map lit Lit.z13_elastic.
Definition z13_inelastic : list F := map lit Lit.z13_inelastic.
Definition z26_elastic : list F := map lit Lit.z26_elastic.
Definition z26_inelastic : list F := map lit Lit.z26_inelastic.
Definition z29_elastic : list F := map lit Lit.z29_elastic.
Definition z29_inelastic : list F := map lit Lit.z29_inelastic.
Definition z73_elastic : list F := map lit Lit.z73_elastic.
Definition z73_inelastic : list F := map lit Lit.z73_inelastic.
Definition z74_elastic : list F := map lit Lit.z74_elastic.
Definition z74_inelastic : list F := map lit Lit.z74_inelastic.
Definition z78_elastic : list F := map lit Lit.z78_elastic.
Definition z78_inelastic : list F := map lit Lit.z78_inelastic.
Definition z82_elastic : list F := map lit Lit.z82_elastic.
Definition z82_inelastic : list F := map lit Lit.z82_inelastic.

(** [class MP].  [R] is computed with the C library's [pow], which the
    embedding takes as a parameter: the field holds the stored value as a
    function of it. *)
Record MP : Type := mkMP {
  z : number;
  a : F;
  rho : F;
  radlength : F;
  R : (F -> F -> F) -> F;
  ecross : list F;
  icross : list F
}.

(** [0.94*pow(x, 1./3.)] *)
Definition radius (x : Q) : (F -> F -> F) -> F :=
  fun pow => fmul (lit 0.94) (pow (lit x) (fdiv (lit 1.0) (lit 3.0))).

(** [x/100.0] *)
Definition cm (x : Q) : F := fdiv (lit x) (lit 100.0).

Arguments radius x%_Q.
Arguments cm x%_Q.

Definition carbon : MP :=
  mkMP (PyFloat (lit 6.0)) (lit 12.01) (lit 2.27e+03) (cm 18.8) (radius 12.01)
       z6_elastic z6_inelastic.
Definition aluminum : MP :=
  mkMP (PyFloat (lit 13.0)) (lit 26.92) (lit 2.7e+03) (cm 8.9) (radius 26.92)
       z13_elastic z13_inelastic.
Definition iron : MP :=
  mkMP (PyInt 26) (lit 55.85) (lit 7.87e+03) (cm 1.76) (radius 55.85)
       z26_elastic z26_inelastic.
Definition copper : MP :=
  mkMP (PyInt 29) (lit 63.546) (lit 8.96e+03) (cm 1.43) (radius 63.55)
       z29_elastic z29_inelastic.
Definition tantalum : MP :=
  mkMP (PyInt 73) (lit 180.95) (lit 16.6e+03) (cm 0.411) (radius 180.95)
       z73_elastic z73_inelastic.
Definition tungstun : MP :=
  mkMP (PyInt 74) (lit 183.84) (lit 19.3e+03) (cm 0.35) (radius 183.84)
       z74_elastic z74_inelastic.
Definition platinum : MP :=
  mkMP (PyInt 78) (lit 195.08) (lit 21.45e+03) (cm 0.305) (radius 195.08)
       z78_elastic z78_inelastic.
Definition lead : MP :=
  mkMP (PyInt 82) (lit 207.2) (lit 11.35e+03) (cm 0.56) (radius 207.2)
       z82_elastic z82_inelastic.

(** ** Property accessors *)

Definition get_z (ma_index : Z) : number :=
  if (ma_index =? 0)%Z then z carbon
  else if (ma_index =? 1)%Z then z aluminum
  else if (ma_index =? 2)%Z then z iron
  else if (ma_index =? 3)%Z then z copper
  else if (ma_index =? 4)%Z then z tantalum
  else if (ma_index =? 5)%Z then z tungstun
  else if (ma_index =? 6)%Z then z platinum
  else z lead.

Definition get_a (ma_index : Z) : F :=
  if (ma_index =? 0)%Z then lit 12.01
  else if (ma_index =? 1)%Z then lit 26.92
  else if (ma_index =? 2)%Z then lit 55.85
  else if (ma_index =? 3)%Z then lit 63.546
  else if (ma_index =? 4)%Z then lit 180.95
  else if (ma_index =? 5)%Z then lit 183.84
  else if (ma_index =? 6)%Z then lit 195.08
  else lit 207.2.

Definition get_rho (ma_index : Z) : F :=
  if (ma_index =? 0)%Z then rho carbon
  else if (ma_index =? 1)%Z then rho aluminum
  else if (ma_index =? 2)%Z then rho iron
  else if (ma_index =? 3)%Z then rho copper
  else if (ma_index =? 4)%Z then rho tantalum
  else if (ma_index =? 5)%Z then rho tungstun
  else if (ma_index =? 6)%Z then rho platinum
  else rho lead.

Definition get_radlength (ma_index : Z) : F :=
  if (ma_index =? 0)%Z then radlength carbon
  else if (ma_index =? 1)%Z then radlength aluminum
  else if (ma_index =? 2)%Z then radlength iron
  else if (ma_index =? 3)%Z then radlength copper
  else if (ma_index =? 4)%Z then radlength tantalum
  else if (ma_index =? 5)%Z then radlength tungstun
  else if (ma_index =? 6)%Z then radlength platinum
  else radlength lead.

(** ** Cross-section lookups *)

(** The [if]/[elif] chains that pick [ec] and [ic]. *)
Definition select_ecross (ma_index : Z) : list F :=
  if (ma_index =? 0)%Z then ecross carbon
  else if (ma_index =? 1)%Z then ecross aluminum
  else if (ma_index =? 2)%Z then ecross iron
  else if (ma_index =? 3)%Z then ecross copper
  else if (ma_index =? 4)%Z then ecross tantalum
  else if (ma_index =? 5)%Z then ecross tungstun
  else if (ma_index =? 6)%Z then ecross platinum
  else ecross lead.

Definition select_icross (ma_index : Z) : list F :=
  if (ma_index =? 0)%Z then icross carbon
  else if (ma_index =? 1)%Z then icross aluminum
  else if (ma_index =? 2)%Z then icross iron
  else if (ma_index =? 3)%Z then icross copper
  else if (ma_index =? 4)%Z then icross tantalum
  else if (ma_index =? 5)%Z then icross tungstun
  else if (ma_index =? 6)%Z then icross platinum
  else icross lead.

(** The loop
<<
    for i in range(58):
        if energyrequest <= energy[i+1]:
            ilow = i
            break
>>
    run over the remaining indices [range], with [ilow] the value the
    variable holds on entry. *)
Fixpoint scan (energyrequest : F) (energy : list F) (range : list nat)
    (ilow : nat) : result nat :=
  match range with
  | [] => Ok ilow
  | i :: rest =>
      e <- index energy (i + 1) ;;
      if fleb energyrequest e then Ok i
      else scan energyrequest energy rest ilow
  end.

(** The local variables of a lookup when it returns. *)
Record locals : Type := mkLocals {
  ilow : nat;
  efrac : F;
  cross_section : F
}.

(** The body both lookups share, from [ilow = 57] on; [xc] is [ec] or [ic].
    ([energytracker] and the initial [ec = None] are never read.)  The
    division is numpy's: a zero divisor gives an infinity or NaN, and a
    warning, not an exception. *)
Definition interpolate (energyrequest : F) (xc energy : list F)
    : result locals :=
  ilow <- scan energyrequest energy (seq 0 58) 57 ;;
  e_lo <- index energy ilow ;;
  e_hi <- index energy (ilow + 1) ;;
  let efrac := fdiv (fsub energyrequest e_lo) (fsub e_hi e_lo) in
  c_lo <- index xc ilow ;;
  c_hi <- index xc (ilow + 1) ;;
  Ok (mkLocals ilow efrac (fadd c_lo (fmul efrac (fsub c_hi c_lo)))).

Definition elastic_locals (energyrequest : F) (ma_index : Z)
    (energy : list F) : result locals :=
  interpolate energyrequest (select_ecross ma_index) energy.

Definition inelastic_locals (energyrequest : F) (ma_index : Z)
    (energy : list F) : result locals :=
  interpolate energyrequest (select_icross ma_index) energy.

Definition get_elastic_crosssection (energyrequest : F) (ma_index : Z)
    (energy : list F) : result F :=
  l <- elastic_locals energyrequest ma_index energy ;;
  Ok (cross_section l).

Definition get_inelastic_crosssection (energyrequest : F) (ma_index : Z)
    (energy : list F) : result F :=
  l <- inelastic_locals energyrequest ma_index energy ;;
  Ok (cross_section l).

End Materials.

Arguments PyInt {F} n.
Arguments PyFloat {F} x.
Arguments mkLocals {F} ilow efrac cross_section.
Arguments ilow {F} l.
Arguments efrac {F} l.
Arguments cross_section {F} l.
Arguments z {F} m.
Arguments a {F} m.
Arguments rho {F} m.
Arguments radlength {F} m.
Arguments R {F} m pow.
Arguments ecross {F} m.
Arguments icross {F} m.

(** ** The specification's wording, for comparison *)

Section Specification.
Context {F : Type} {AR : Arith F}.

(** The registry of section 4.1: selector [0] to [7], in this order. *)
Definition registry : list MP :=
  [carbon; aluminum; iron; copper; tantalum; tungstun; platinum; lead].

(** [properties(selector)] as the specification words it: a record lookup
    that fails with [InvalidSelectorError] outside [[0, 7]]. *)
Definition spec_properties (selector : Z) : result MP :=
  if ((0 <=? selector) && (selector <=? 7))%Z
  then index registry (Z.to_nat selector)
  else Raise InvalidSelectorError.

(** The other policy the specification allows for, "compatibility mode":
    every selector outside [[0, 6]] stands for lead. *)
Definition compat_properties (selector : Z) : MP :=
  if ((0 <=? selector) && (selector <=? 6))%Z
  then nth (Z.to_nat selector) registry lead
  else lead.

(** Step 2 of section 4.2: the first [i] of [0..57] with
    [requestedEnergy <= energyTable[i+1]], and [57] when there is none. *)
Definition spec_ilow (requestedEnergy : F) (energyTable : list F) : nat :=
  match
    find (fun i => fleb requestedEnergy (nth (i + 1) energyTable (lit 0)))
         (seq 0 58)
  with
  | Some i => i
  | None => 57
  end.

(** Step 3: the interpolation fraction, not clamped. *)
Definition spec_efrac (requestedEnergy : F) (energyTable : list F) : F :=
  let ilow := spec_ilow requestedEnergy energyTable in
  fdiv (fsub requestedEnergy (nth ilow energyTable (lit 0)))
       (fsub (nth (ilow + 1) energyTable (lit 0))
             (nth ilow energyTable (lit 0))).

(** Step 4: [curve[ilow] + efrac * (curve[ilow+1] - curve[ilow])]. *)
Definition spec_locals (requestedEnergy : F) (curve energyTable : list F)
    : result locals :=
  let ilow := spec_ilow requestedEnergy energyTable in
  let efrac := spec_efrac requestedEnergy energyTable in
  c_lo <- index curve ilow ;;
  c_hi <- index curve (ilow + 1) ;;
  Ok (mkLocals ilow efrac (fadd c_lo (fmul efrac (fsub c_hi c_lo)))).

Definition spec_lookup (requestedEnergy : F) (curve energyTable : list F)
    : result F :=
  l <- spec_locals requestedEnergy curve energyTable ;;
  Ok (cross_section l).

End Specification.

(** ** Vocabulary of the statements *)

(** [E64 i] is [energy[i]] in double precision, [E i] in exact arithmetic
    ([0] past the end of the table). *)
Definition E64 (i : nat) : float := nth i (energy (F := float)) (lit 0).

Definition E (i : nat) : real := nth i (energy (F := real)) (lit 0).

(** [x < y] on literals, decided on numerators and denominators. *)
Definition Qltb (x y : Q) : bool :=
  (Qnum x * Zpos (Qden y) <? Qnum y * Zpos (Qden x))%Z.

(** What a lookup at [energy[j]] is to produce: bin [j - 1] (bin 0 for
    [j = 0]), [efrac] 1 (0 for [j = 0]), and the given value. *)
Definition at_grid_point {F : Type} {AR : Arith F} (res : result locals)
    (j : nat) (value : F) : Prop :=
  exists l : locals,
    res = Ok l /\
    ilow l = Nat.pred j /\
    efrac l = (if Nat.eqb j 0 then lit 0 else lit 1) /\
    cross_section l = value.

(** The curve [xc] does not decrease over the bins that meet [[e1, e2]]:
    every bin [[energy[i], energy[i+1]]] that overlaps the interval has
    both its curve points, the second not smaller than the first. *)
Definition nondecreasing_between (xc : list real) (e1 e2 : real) : Prop :=
  forall i : nat,
    i <= 57 -> (E i < e2)%R -> (e1 < E (i + 1))%R ->
    exists c c' : real,
      nth_error xc i = Some c /\ nth_error xc (i + 1) = Some c' /\
      (c <= c')%R.

(** The smallest exponent of a double, [-1074]. *)
Definition emin64 : Z := SpecFloat.emin prec emax.

(** Negative, zeros and NaN apart: the test [x < 0]. *)
Definition SFneg (x : spec_float) : bool := SFltb x (S754_zero false).

(** [c] is a positive finite double. *)
Definition positive_finite (c : float) : bool :=
  match Prim2SF c with
  | S754_finite false _ _ => true
  | _ => false
  end.

(** [d] is a positive finite double below one. *)
Definition positive_below_one (d : float) : bool :=
  match Prim2SF d with
  | S754_finite false _ e => (e <=? -53)%Z
  | _ => false
  end.

(** The exhaustive check of the 8 x 59 tabulated points, in double
    precision: the locals of each lookup against the expected ones.  At
    platinum's [j = 18] the elastic sum rounds to the double just below the
    tabulated value; copper's elastic table has no entry 58. *)
Definition locals_eqb (l : locals) (i : nat) (f v : float) : bool :=
  Nat.eqb (ilow l) i && PrimFloat.Leibniz.eqb (efrac l) f
  && PrimFloat.Leibniz.eqb (cross_section l) v.

Definition elastic_grid_value (k j : nat) : float :=
  let v := nth j (select_ecross (Z.of_nat k)) (lit 0) in
  if Nat.eqb k 6 && Nat.eqb j 18 then next_down v else v.

Definition grid_point_check (k j : nat) : bool :=
  match inelastic_locals (E64 j) (Z.of_nat k) energy with
  | Ok l =>
      locals_eqb l (Nat.pred j) (if Nat.eqb j 0 then lit 0 else lit 1)
        (nth j (select_icross (Z.of_nat k)) (lit 0))
  | Raise _ => false
  end
  &&
  (Nat.eqb k 3 && Nat.eqb j 58
   ||
   match elastic_locals (E64 j) (Z.of_nat k) energy with
   | Ok l =>
       locals_eqb l (Nat.pred j) (if Nat.eqb j 0 then lit 0 else lit 1)
         (elastic_grid_value k j)
   | Raise _ => false
   end).

(** [c] is [+0] or a positive finite double. *)
Definition finite_not_negative (c : float) : bool :=
  match Prim2SF c with
  | S754_zero false | S754_finite false _ _ => true
  | _ => false
  end.

(** The interpolation over one bin, as [interpolate] computes it in double
    precision: [el], [eh] the energies at the ends of the bin, [cl], [ch]
    the curve there, [r] the request. *)
Definition bin64 (el eh cl ch r : float) : float :=
  (cl + ((r - el) / (eh - el)) * (ch - cl))%float.

(** The check of one bin [i] of a curve [xc], in double precision: both
    curve points are finite and not negative, the value computed at the
    upper end of the bin is not above the tabulated one, the value
    computed at the lower end is not below the tabulated one. *)
Definition bin_check (xc : list float) (i : nat) : bool :=
  match nth_error xc i, nth_error xc (i + 1) with
  | Some c, Some c' =>
      finite_not_negative c && finite_not_negative c'
      && (bin64 (E64 i) (E64 (i + 1)) c c' (E64 (i + 1)) <=? c')%float
      && (c <=? bin64 (E64 i) (E64 (i + 1)) c c' (E64 i))%float
  | _, _ => true
  end.

(** [nondecreasing_between] in double precision. *)
Definition nondecreasing_between64 (xc : list float) (r1 r2 : float) : Prop :=
  forall i : nat,
    i <= 57 -> (E64 i <? r2)%float = true ->
    (r1 <? E64 (i + 1))%float = true ->
    exists c c' : float,
      nth_error xc i = Some c /\ nth_error xc (i + 1) = Some c' /\
      (c <=? c')%float = true.

(** ** A model of rounding to nearest, ties to even

    Non-negative doubles are counted in units of [2^emin]: every finite
    one is a whole number of units.  [RoundV A B] is the number of units
    that the fraction [A / B] of a unit rounds to. *)

Section RoundingModel.
Local Open Scope Z_scope.

(** The rounded mantissa: [m] is the floor, [r] tells that the remainder
    reaches one half, [s] that it is neither zero nor one half. *)
Definition rne (m : Z) (r s : bool) : Z :=
  if r && (s || Z.odd m) then m + 1 else m.

Definition loc_class (rem den : Z) : bool * bool :=
  (den <=? 2 * rem, negb (rem =? 0) && negb (2 * rem =? den)).

Definition RoundV (A B : Z) : Z :=
  let t := Z.max (Zdigits2 (A / B) - 53) 0 in
  let B' := B * 2 ^ t in
  rne (A / B') (fst (loc_class (A mod B') B')) (snd (loc_class (A mod B') B'))
  * 2 ^ t.

(** [mrs], a shift register of [SpecFloat], stands for [num / den]: its
    mantissa is the floor, its two bits place the remainder with respect
    to one half. *)
Definition Rep (num den : Z) (mrs : shr_record) : Prop :=
  0 <= num /\ 0 < den /\
  shr_m mrs = num / den /\
  shr_r mrs = fst (loc_class (num mod den) den) /\
  shr_s mrs = snd (loc_class (num mod den) den).

(** Exponents are offset by [S0] so that every power of two in the proofs
    is a whole number. *)
Definition S0 : Z := 2200.

(** The units in the finite double of mantissa [m] and exponent [e]; the
    units from which rounding overflows. *)
Definition sv (m : positive) (e : Z) : Z := Zpos m * 2 ^ (e - emin64).

Definition OVF : Z := 2 ^ (emax - emin64).

(** [is_round V x]: the non-negative [x] is worth [V] units, infinity
    standing for anything from [OVF] on. *)
Inductive is_round (V : Z) : spec_float -> Prop :=
| is_round_zero : V = 0 -> is_round V (S754_zero false)
| is_round_finite (m : positive) (e : Z) :
    emin64 <= e -> sv m e = V -> is_round V (S754_finite false m e)
| is_round_infinity : OVF <= V -> is_round V (S754_infinity false).

(** [NF x V]: [x] is [+0] or a positive finite double, worth [V] units. *)
Inductive NF : spec_float -> Z -> Prop :=
| NF_zero : NF (S754_zero false) 0
| NF_finite (m : positive) (e : Z) :
    valid_binary (S754_finite false m e) = true ->
    NF (S754_finite false m e) (sv m e).

(** The same for primitive doubles: [Val x V], [x] is worth [V] units;
    [Rnd x V], [x] is what [V] units round to. *)
Definition Val (x : float) (V : Z) : Prop := NF (Prim2SF x) V.

Definition Rnd (x : float) (V : Z) : Prop := is_round V (Prim2SF x).

End RoundingModel.

(** ** Vocabulary of the further properties *)

(** [selects r en i]: in an energy array [en] of any length, the scan for
    [r] stays inside the table and ends with [ilow = i]: [en[i+1]] exists,
    every test before [i] fails, and the test at [i] succeeds unless [i] is
    the default [57]. *)
Definition selects {F : Type} {AR : Arith F} (r : F) (en : list F)
    (i : nat) : Prop :=
  i <= 57 /\ i + 1 < length en /\
  (forall k e, k < i -> nth_error en (k + 1) = Some e -> fleb r e = false) /\
  (i < 57 -> forall e, nth_error en (i + 1) = Some e -> fleb r e = true).

(** [computed_from r xc en l]: the locals [l] hold the fraction and the
    value that the four entries [en[ilow]], [en[ilow+1]], [xc[ilow]] and
    [xc[ilow+1]] give for the request [r]. *)
Definition computed_from {F : Type} {AR : Arith F} (r : F) (xc en : list F)
    (l : locals) : Prop :=
  exists e_lo e_hi c_lo c_hi : F,
    nth_error en (ilow l) = Some e_lo /\
    nth_error en (ilow l + 1) = Some e_hi /\
    nth_error xc (ilow l) = Some c_lo /\
    nth_error xc (ilow l + 1) = Some c_hi /\
    efrac l = fdiv (fsub r e_lo) (fsub e_hi e_lo) /\
    cross_section l = fadd c_lo (fmul (efrac l) (fsub c_hi c_lo)).

Section UnitsOfTheLookup.
Local Open Scope Z_scope.

(** The units of the interpolation fraction [(r - el) / (eh - el)] computed
    in double precision, from the units [XL], [XH], [X] of [el], [eh] and
    [r]: the subtraction, then the division, each rounded. *)
Definition fraction_units (XL XH X : Z) : Z :=
  RoundV (RoundV (X - XL) 1 * 2 ^ (- emin64)) (RoundV (XH - XL) 1).

(** The units of [cl + e * (ch - cl)] computed in double precision, from
    the units [CL], [CH] of the two curve points and [Fv] of the fraction:
    over a rising bin the product is added, over a falling bin the
    computation comes to [cl - e * (cl - ch)] and it is taken away. *)
Definition rising_units (CL CH Fv : Z) : Z :=
  RoundV (CL + RoundV (Fv * RoundV (CH - CL) 1) (2 ^ (- emin64))) 1.

Definition falling_units (CL CH Fv : Z) : Z :=
  RoundV (CL - RoundV (Fv * RoundV (CL - CH) 1) (2 ^ (- emin64))) 1.

End UnitsOfTheLookup.

(** The check of one bin [i] of a curve [xc] over which the curve does not
    rise, in double precision: the value computed at the upper end of the
    bin is not below the tabulated one, the value computed at the lower end
    is not above the tabulated one. *)
Definition falling_bin_check (xc : list float) (i : nat) : bool :=
  match nth_error xc i, nth_error xc (i + 1) with
  | Some c, Some c' =>
      implb (c' <=? c)%float
        ((c' <=? bin64 (E64 i) (E64 (i + 1)) c c' (E64 (i + 1)))%float
         && (bin64 (E64 i) (E64 (i + 1)) c c' (E64 i) <=? c)%float)
  | _, _ => true
  end.

(** The check of the upper end of bin [i] when the curve does not rise over
    the next bin: the value computed there from bin [i] is not below the
    tabulated one. *)
Definition boundary_check (xc : list float) (i : nat) : bool :=
  match nth_error xc i, nth_error xc (i + 1), nth_error xc (i + 2) with
  | Some c, Some c', Some c'' =>
      implb (c'' <=? c')%float
        (c' <=? bin64 (E64 i) (E64 (i + 1)) c c' (E64 (i + 1)))%float
  | _, _, _ => true
  end.

(** The curve [xc] does not rise over the bins that meet [[r1, r2]], in
    double precision. *)
Definition nonincreasing_between64 (xc : list float) (r1 r2 : float) : Prop :=
  forall i : nat,
    i <= 57 -> (E64 i <? r2)%float = true ->
    (r1 <? E64 (i + 1))%float = true ->
    exists c c' : float,
      nth_error xc i = Some c /\ nth_error xc (i + 1) = Some c' /\
      (c' <=? c)%float = true.

(** The value of the lookup [l] on the curve [xc] is not negative and lies
    between the two curve points of its bin. *)
Definition between_neighbours (xc : list float) (l : locals) : Prop :=
  exists c c' : float,
    nth_error xc (ilow l) = Some c /\
    nth_error xc (ilow l + 1) = Some c' /\
    (0 <=? cross_section l)%float = true /\
    (((c <=? cross_section l)%float = true /\
      (cross_section l <=? c')%float = true) \/
     ((c' <=? cross_section l)%float = true /\
      (cross_section l <=? c)%float = true)).


(** The check of a curve [xc] that falls over its last bin, in double
    precision: with [f] the fraction computed for a request of 600 GeV,
    the product [f * (xc[57] - xc[58])] is finite and above [xc[57]]. *)
Definition last_bin_check (xc : list float) : bool :=
  let cl := nth 57 xc (lit 0) in
  let ch := nth 58 xc (lit 0) in
  let f := ((lit 600 - E64 57) / (E64 58 - E64 57))%float in
  finite_not_negative cl && finite_not_negative ch
  && negb (cl <=? ch)%float
  && positive_finite (cl - ch)%float
  && positive_finite (f * (cl - ch))%float
  && (cl <? f * (cl - ch))%float.

(** The curve [xc] is [0.0] up to and including entry [n]. *)
Definition zero_through (xc : list float) (n : nat) : Prop :=
  forall k : nat, k <= n -> nth_error xc k = Some 0%float.

(** A double that is neither NaN nor an infinity. *)
Definition finite64 (x : float) : bool :=
  match Prim2SF x with
  | S754_zero _ | S754_finite _ _ _ => true
  | _ => false
  end.
(** * Properties *)

(** ** Literals *)

(** [lit64] reads the literals as the interpreter does: three of them
    against their doubles, written in hexadecimal. *)
Lemma lit64_reads_literals :
  lit64 0.0005 = 0x1.0624dd2f1a9fcp-11%float /\
  lit64 0.006 = 0x1.89374bc6a7efap-8%float /\
  lit64 2.5 = 0x1.4p+1%float.
Proof. repeat split; vm_compute; reflexivity. Qed.

(** ** Subscripts, the scan, and the shape of a lookup *)

Section Structure.
Context {F : Type} {AR : Arith F}.

Lemma index_nth (A : Type) (l : list A) (i : nat) (d : A) :
  i < length l -> index l i = Ok (nth i l d).
Proof.
  intros Hi. unfold index.
  rewrite (nth_error_nth' l d Hi). reflexivity.
Qed.

(** On a table long enough for every subscript of [range], the loop is a
    search for the first index that passes the test. *)
Lemma scan_find (r : F) (en : list F) (range : list nat) (d : nat) :
  (forall i, In i range -> i + 1 < length en) ->
  scan r en range d =
  Ok match find (fun i => fleb r (nth (i + 1) en (lit 0))) range with
     | Some i => i
     | None => d
     end.
Proof.
  induction range as [|i rest IH]; intros Hlen; simpl.
  - reflexivity.
  - rewrite (index_nth _ en _ (lit 0)) by (apply Hlen; left; reflexivity).
    simpl. destruct (fleb r (nth (i + 1) en (lit 0))).
    + reflexivity.
    + apply IH. intros k Hk. apply Hlen. right. exact Hk.
Qed.

Lemma spec_ilow_bound (r : F) (en : list F) : spec_ilow r en <= 57.
Proof.
  unfold spec_ilow.
  destruct (find _ (seq 0 58)) as [i|] eqn:Hf.
  - apply find_some in Hf. destruct Hf as [Hin _].
    apply in_seq in Hin. lia.
  - lia.
Qed.

(** The first index found is minimal, and the default is taken only when
    every test fails. *)
Lemma find_seq_first (test : nat -> bool) (n b i : nat) :
  find test (seq b n) = Some i ->
  b <= i < b + n /\ test i = true /\
  forall k, b <= k < i -> test k = false.
Proof.
  revert b. induction n as [|n IH]; intros b; simpl.
  - discriminate.
  - destruct (test b) eqn:Hb.
    + intros [= <-]. repeat split; try lia; try assumption.
    + intros Hf. apply IH in Hf. destruct Hf as (Hi & Ht & Hk).
      repeat split; try lia; try assumption.
      intros k Hkb. destruct (Nat.eq_dec k b) as [->|Hne].
      * exact Hb.
      * apply Hk. lia.
Qed.

Lemma find_seq_none (test : nat -> bool) (n b : nat) :
  find test (seq b n) = None ->
  forall k, b <= k < b + n -> test k = false.
Proof.
  revert b. induction n as [|n IH]; intros b; simpl.
  - intros _ k Hk. lia.
  - destruct (test b) eqn:Hb; [discriminate|].
    intros Hf k Hk. destruct (Nat.eq_dec k b) as [->|Hne].
    + exact Hb.
    + eapply IH; [exact Hf | lia].
Qed.

Lemma spec_ilow_test (r : F) (en : list F) :
  (spec_ilow r en < 57 ->
   fleb r (nth (spec_ilow r en + 1) en (lit 0)) = true) /\
  (forall k, k < spec_ilow r en ->
   fleb r (nth (k + 1) en (lit 0)) = false).
Proof.
  unfold spec_ilow.
  destruct (find _ (seq 0 58)) as [i|] eqn:Hf.
  - apply find_seq_first in Hf. destruct Hf as (Hi & Ht & Hk).
    split.
    + intros _. exact Ht.
    + intros k Hlt. apply Hk. lia.
  - split.
    + lia.
    + intros k Hlt.
      apply (find_seq_none (fun i => fleb r (nth (i + 1) en (lit 0)))
               58 0 Hf).
      lia.
Qed.

(** With a 59-entry energy table a lookup is the specification's steps 2
    to 4, the two subscripts of the curve checked as the interpreter checks
    them. *)
Lemma interpolate_spec (r : F) (xc en : list F) :
  length en = 59 -> interpolate r xc en = spec_locals r xc en.
Proof.
  intros Hlen. unfold interpolate, spec_locals, spec_efrac.
  rewrite scan_find.
  2:{ intros i Hi. apply in_seq in Hi. lia. }
  fold (spec_ilow r en). simpl bind.
  pose proof (spec_ilow_bound r en) as Hb.
  rewrite (index_nth _ en _ (lit 0)) by lia. simpl bind.
  rewrite (index_nth _ en _ (lit 0)) by lia. simpl bind.
  reflexivity.
Qed.

Lemma spec_locals_total (r : F) (xc en : list F) :
  59 <= length xc ->
  exists c_lo c_hi,
    nth_error xc (spec_ilow r en) = Some c_lo /\
    nth_error xc (spec_ilow r en + 1) = Some c_hi /\
    spec_locals r xc en =
    Ok (mkLocals (spec_ilow r en) (spec_efrac r en)
          (fadd c_lo (fmul (spec_efrac r en) (fsub c_hi c_lo)))).
Proof.
  intros Hlen. pose proof (spec_ilow_bound r en) as Hb.
  exists (nth (spec_ilow r en) xc (lit 0)),
         (nth (spec_ilow r en + 1) xc (lit 0)).
  repeat split.
  - apply nth_error_nth'. lia.
  - apply nth_error_nth'. lia.
  - unfold spec_locals.
    rewrite (index_nth _ xc _ (lit 0)) by lia. simpl bind.
    rewrite (index_nth _ xc _ (lit 0)) by lia. reflexivity.
Qed.

Lemma energy_length : length energy = 59.
Proof. unfold energy. rewrite length_map. reflexivity. Qed.

Lemma select_icross_length (s : Z) : length (select_icross s) = 59.
Proof.
  unfold select_icross.
  repeat match goal with |- context [(s =? ?k)%Z] => destruct (s =? k)%Z end;
    reflexivity.
Qed.

Lemma select_ecross_length (s : Z) :
  s <> 3%Z -> length (select_ecross s) = 59.
Proof.
  intros Hs. unfold select_ecross.
  destruct (Z.eqb_spec s 3) as [->|_]; [contradiction|].
  repeat match goal with |- context [(s =? ?k)%Z] => destruct (s =? k)%Z end;
    reflexivity.
Qed.

(** Selectors that miss every branch of the chains. *)
Lemma selector_else (s : Z) :
  ~ (0 <= s <= 6)%Z ->
  ((s =? 0) = false /\ (s =? 1) = false /\ (s =? 2) = false /\
   (s =? 3) = false /\ (s =? 4) = false /\ (s =? 5) = false /\
   (s =? 6) = false)%Z.
Proof. intros Hs. repeat split; apply Z.eqb_neq; lia. Qed.

End Structure.

(** ** Selectors *)

Ltac selector_cases s :=
  let Hc := fresh "Hc" in
  assert (Hc : (s = 0 \/ s = 1 \/ s = 2 \/ s = 3 \/
                s = 4 \/ s = 5 \/ s = 6 \/ s = 7)%Z) by lia;
  destruct Hc as [->|[->|[->|[->|[->|[->|[->| ->]]]]]]].

Ltac else_branch s Hs :=
  let H := fresh "Helse" in
  pose proof (selector_else s Hs) as H;
  destruct H as (?H0 & ?H1 & ?H2 & ?H3 & ?H4 & ?H5 & ?H6);
  repeat match goal with
         | E : (s =? _)%Z = false |- _ => rewrite E; clear E
         end.

Section Selectors.
Context {F : Type} {AR : Arith F}.

Lemma accessors_compat (s : Z) :
  get_z s = z (compat_properties s) /\
  get_a s = a (compat_properties s) /\
  get_rho s = rho (compat_properties s) /\
  get_radlength s = radlength (compat_properties s) /\
  select_ecross s = ecross (compat_properties s) /\
  select_icross s = icross (compat_properties s).
Proof.
  unfold compat_properties.
  destruct ((0 <=? s) && (s <=? 6))%Z eqn:Hb.
  - apply andb_true_iff in Hb. destruct Hb as [H0 H6].
    apply Z.leb_le in H0. apply Z.leb_le in H6.
    assert (H7 : (0 <= s <= 7)%Z) by lia.
    selector_cases s; repeat split; reflexivity.
  - assert (Hs : ~ (0 <= s <= 6)%Z).
    { intros [H0 H6]. apply Z.leb_le in H0. apply Z.leb_le in H6.
      rewrite H0, H6 in Hb. discriminate. }
    unfold get_z, get_a, get_rho, get_radlength, select_ecross,
      select_icross.
    else_branch s Hs. repeat split; reflexivity.
Qed.

Lemma interpolate_returns (r : F) (xc : list F) :
  length xc = 59 ->
  exists l, interpolate r xc energy = Ok l /\ ilow l <= 57.
Proof.
  intros Hlen. rewrite (interpolate_spec r xc energy energy_length).
  destruct (spec_locals_total r xc energy) as (c_lo & c_hi & _ & _ & E).
  - lia.
  - rewrite E. eexists. split; [reflexivity|]. simpl.
    apply spec_ilow_bound.
Qed.

Lemma interpolate_never_invalid_selector (r : F) (xc en : list F) :
  interpolate r xc en <> Raise InvalidSelectorError.
Proof.
  unfold interpolate.
  assert (Hscan : forall range d,
            scan r en range d <> Raise InvalidSelectorError).
  { induction range as [|i rest IH]; intros d; simpl; [discriminate|].
    unfold index. destruct (nth_error en (i + 1)); simpl; [|discriminate].
    destruct (fleb r f); [discriminate|apply IH]. }
  destruct (scan r en (seq 0 58) 57) as [i|e] eqn:Hs; simpl.
  2:{ intros [= ->]. apply (Hscan _ _ Hs). }
  unfold index.
  destruct (nth_error en i); simpl; [|discriminate].
  destruct (nth_error en (i + 1)); simpl; [|discriminate].
  destruct (nth_error xc i); simpl; [|discriminate].
  destruct (nth_error xc (i + 1)); simpl; discriminate.
Qed.

End Selectors.

(** C9: for every selector in [[0, 7]] each accessor returns the
    corresponding field of that selector's record in the registry:
    [get_z], [get_a], [get_rho] and [get_radlength] are the record lookup
    [spec_properties] followed by a field projection. *)
Theorem accessors_project_registry (F : Type) (AR : Arith F) (s : Z) :
  (0 <= s <= 7)%Z ->
  exists m : MP,
    spec_properties s = Ok m /\
    get_z s = z m /\
    get_a s = a m /\
    get_rho s = rho m /\
    get_radlength s = radlength m.
Proof.
  intros Hs. selector_cases s; eexists; repeat split; reflexivity.
Qed.

Lemma accessors_project_registry_witness :
  (0 <= 3 <= 7)%Z /\
  exists m : MP (F := float),
    spec_properties 3 = Ok m /\
    get_z 3 = z m /\
    get_a 3 = a m /\
    get_rho 3 = rho m /\
    get_radlength 3 = radlength m.
Proof.
  split; [lia | apply (accessors_project_registry float binary64 3); lia].
Defined.

(** C3: for every integer selector outside [{0, ..., 6}], negative ones
    included, the four accessors return lead's field and the two lookups
    return what they return for lead's curves, for every energy and energy
    table; with the module's energy table that is a value, never an
    exception.  Selectors 7, 99 and -1 are three such selectors, so their
    results coincide. *)
Theorem fallback_to_lead (F : Type) (AR : Arith F) (s : Z) :
  ~ (0 <= s <= 6)%Z ->
  get_z s = z lead /\
  get_a s = a lead /\
  get_rho s = rho lead /\
  get_radlength s = radlength lead /\
  (forall (r : F) (en : list F),
     get_elastic_crosssection r s en =
     (l <- interpolate r (ecross lead) en ;; Ok (cross_section l)) /\
     get_inelastic_crosssection r s en =
     (l <- interpolate r (icross lead) en ;; Ok (cross_section l))) /\
  (forall r : F,
     exists ve vi : F,
       get_elastic_crosssection r s energy = Ok ve /\
       get_inelastic_crosssection r s energy = Ok vi).
Proof.
  intros Hs.
  assert (He : select_ecross s = ecross lead).
  { unfold select_ecross. else_branch s Hs. reflexivity. }
  assert (Hi : select_icross s = icross lead).
  { unfold select_icross. else_branch s Hs. reflexivity. }
  repeat split.
  - unfold get_z. else_branch s Hs. reflexivity.
  - unfold get_a. else_branch s Hs. reflexivity.
  - unfold get_rho. else_branch s Hs. reflexivity.
  - unfold get_radlength. else_branch s Hs. reflexivity.
  - unfold get_elastic_crosssection, elastic_locals. rewrite He. reflexivity.
  - unfold get_inelastic_crosssection, inelastic_locals. rewrite Hi.
    reflexivity.
  - intros r.
    unfold get_elastic_crosssection, elastic_locals,
      get_inelastic_crosssection, inelastic_locals.
    rewrite He, Hi.
    destruct (interpolate_returns r (ecross lead) eq_refl) as (le & Ee & _).
    destruct (interpolate_returns r (icross lead) eq_refl) as (li & Ei & _).
    rewrite Ee, Ei. simpl. eauto.
Qed.

Lemma fallback_to_lead_witness :
  ~ (0 <= 99 <= 6)%Z /\
  get_z (F := float) 99 = z lead /\
  get_a 99 = a lead /\
  get_rho 99 = rho lead /\
  get_radlength 99 = radlength lead /\
  (forall (r : float) (en : list float),
     get_elastic_crosssection r 99 en =
     (l <- interpolate r (ecross lead) en ;; Ok (cross_section l)) /\
     get_inelastic_crosssection r 99 en =
     (l <- interpolate r (icross lead) en ;; Ok (cross_section l))) /\
  (forall r : float,
     exists ve vi : float,
       get_elastic_crosssection r 99 energy = Ok ve /\
       get_inelastic_crosssection r 99 energy = Ok vi).
Proof.
  split; [lia | apply (fallback_to_lead float binary64 99); lia].
Defined.

(** Selectors 7, 99 and -1 answer alike. *)
Corollary selectors_7_99_minus_1 (F : Type) (AR : Arith F) :
  get_z 7 = get_z 99 /\ get_z 99 = get_z (-1) /\
  get_a 7 = get_a 99 /\ get_a 99 = get_a (-1) /\
  get_rho 7 = get_rho 99 /\ get_rho 99 = get_rho (-1) /\
  get_radlength 7 = get_radlength 99 /\
  get_radlength 99 = get_radlength (-1) /\
  forall (r : F) (en : list F),
    get_elastic_crosssection r 7 en = get_elastic_crosssection r 99 en /\
    get_elastic_crosssection r 99 en = get_elastic_crosssection r (-1) en /\
    get_inelastic_crosssection r 7 en = get_inelastic_crosssection r 99 en /\
    get_inelastic_crosssection r 99 en =
    get_inelastic_crosssection r (-1) en.
Proof. repeat split; reflexivity. Qed.

(** C2, counterexample: selector 99 lies outside [[0, 7]], and in double
    precision every operation returns a value for it, lead's. *)
Lemma selector_99_returns_lead :
  get_z (F := float) 99 = PyInt 82 /\
  get_a (F := float) 99 = lit 207.2 /\
  get_rho (F := float) 99 = lit 11350 /\
  get_radlength (F := float) 99 = (lit 0.56 / lit 100)%float /\
  get_elastic_crosssection (F := float) (lit 1.0) 99 energy
    = Ok (lit 1.251) /\
  get_inelastic_crosssection (F := float) (lit 1.0) 99 energy
    = Ok (lit 1.807).
Proof. repeat split; vm_compute; reflexivity. Qed.

(** C2, amended: no operation ever fails with [InvalidSelectorError].  For
    every integer selector, inside [[0, 7]] or not, the four accessors
    return a field of a record (lead's for a selector outside [[0, 6]]),
    the inelastic lookup returns a value at every energy, and so does the
    elastic lookup for every selector other than 3. *)
Theorem no_selector_is_rejected (F : Type) (AR : Arith F) (s : Z) (r : F) :
  get_z s = z (compat_properties s) /\
  get_a s = a (compat_properties s) /\
  get_rho s = rho (compat_properties s) /\
  get_radlength s = radlength (compat_properties s) /\
  (exists v : F, get_inelastic_crosssection r s energy = Ok v) /\
  (s <> 3%Z -> exists v : F, get_elastic_crosssection r s energy = Ok v) /\
  (forall en : list F,
     get_elastic_crosssection r s en <> Raise InvalidSelectorError /\
     get_inelastic_crosssection r s en <> Raise InvalidSelectorError).
Proof.
  destruct (accessors_compat s) as (Hz & Ha & Hrho & Hrad & _ & _).
  repeat split; try assumption.
  - unfold get_inelastic_crosssection, inelastic_locals.
    destruct (interpolate_returns r (select_icross s)
                (select_icross_length s)) as (l & E & _).
    rewrite E. simpl. eauto.
  - intros Hs. unfold get_elastic_crosssection, elastic_locals.
    destruct (interpolate_returns r (select_ecross s)
                (select_ecross_length s Hs)) as (l & E & _).
    rewrite E. simpl. eauto.
  - unfold get_elastic_crosssection, elastic_locals.
    pose proof (interpolate_never_invalid_selector r (select_ecross s) en).
    destruct (interpolate r (select_ecross s) en) as [l|e]; simpl;
      [discriminate|congruence].
  - unfold get_inelastic_crosssection, inelastic_locals.
    pose proof (interpolate_never_invalid_selector r (select_icross s) en).
    destruct (interpolate r (select_icross s) en) as [l|e]; simpl;
      [discriminate|congruence].
Qed.

(** ** The energy grid in exact arithmetic *)

Section ExactGrid.
Local Open Scope R_scope.

Lemma Rleb_true (x y : real) : Rleb x y = true <-> x <= y.
Proof.
  unfold Rleb. destruct (Rle_dec x y); split; intros; try assumption;
    try reflexivity; try discriminate; contradiction.
Qed.

Lemma Rleb_false (x y : real) : Rleb x y = false <-> y < x.
Proof.
  unfold Rleb. destruct (Rle_dec x y); split; intros; try discriminate;
    try reflexivity; lra.
Qed.

Lemma E_literal (i : nat) : E i = Q2R (nth i Lit.energy 0%Q).
Proof.
  unfold E, energy. simpl lit.
  apply (map_nth Q2R Lit.energy 0%Q i).
Qed.

Lemma Qltb_lt (x y : Q) : Qltb x y = true -> (x < y)%Q.
Proof. unfold Qltb, Qlt. apply Z.ltb_lt. Qed.

Lemma grid_adjacent (i : nat) : (i < 58)%nat -> E i < E (S i).
Proof.
  intros Hi. rewrite !E_literal. apply Qreals.Qlt_Rlt. apply Qltb_lt.
  assert (Hall : forallb
            (fun k => Qltb (nth k Lit.energy 0%Q) (nth (S k) Lit.energy 0%Q))
            (seq 0 58) = true) by (vm_compute; reflexivity).
  rewrite forallb_forall in Hall. apply Hall. apply in_seq. lia.
Qed.

(** The energy table is strictly increasing. *)
Lemma grid_increasing (i j : nat) : (i < j <= 58)%nat -> E i < E j.
Proof.
  intros [Hij Hj]. induction j as [|j IH]; [lia|].
  destruct (Nat.eq_dec i j) as [->|Hne].
  - apply grid_adjacent. lia.
  - apply Rlt_trans with (E j).
    + apply IH; lia.
    + apply grid_adjacent. lia.
Qed.

Lemma grid_monotone (i j : nat) : (i <= j <= 58)%nat -> E i <= E j.
Proof.
  intros [Hij Hj]. destruct (Nat.eq_dec i j) as [->|Hne].
  - lra.
  - left. apply grid_increasing. lia.
Qed.

(** What the scan finds, read on the grid. *)
Lemma ilow_exact (r : real) :
  let i := spec_ilow r energy in
  (i <= 57)%nat /\
  ((i < 57)%nat -> r <= E (i + 1)) /\
  (forall k, (k < i)%nat -> E (k + 1) < r).
Proof.
  intros i. pose proof (spec_ilow_bound r energy) as Hb.
  destruct (spec_ilow_test r energy) as [Ht Hk].
  repeat split.
  - exact Hb.
  - intros Hi. apply Rleb_true. apply Ht. exact Hi.
  - intros k Hlt. apply Rleb_false. apply Hk. exact Hlt.
Qed.

(** Inside the table the request lies in the bin the scan selects. *)
Lemma ilow_bracket (r : real) :
  E 0 <= r <= E 58 ->
  let i := spec_ilow r energy in
  E i <= r <= E (i + 1) /\ ((0 < i)%nat -> E i < r).
Proof.
  intros [Hlo Hhi] i.
  destruct (ilow_exact r) as (Hb & Hup & Hdown). fold i in Hb, Hup, Hdown.
  assert (Hstrict : (0 < i)%nat -> E i < r).
  { intros Hpos. specialize (Hdown (i - 1)%nat).
    replace (i - 1 + 1)%nat with i in Hdown by lia. apply Hdown. lia. }
  repeat split.
  - destruct (Nat.eq_dec i 0) as [E0|Hne].
    + rewrite E0. exact Hlo.
    + left. apply Hstrict. lia.
  - destruct (Nat.eq_dec i 57) as [E57|Hne].
    + rewrite E57. exact Hhi.
    + apply Hup. lia.
  - exact Hstrict.
Qed.

(** Below the table the scan stops at once. *)
Lemma ilow_below (r : real) : r <= E 1 -> spec_ilow r energy = 0%nat.
Proof.
  intros Hr. destruct (ilow_exact r) as (_ & _ & Hdown).
  destruct (spec_ilow r energy) as [|i]; [reflexivity|].
  specialize (Hdown 0%nat). simpl in Hdown.
  assert (E 1 < r) by (apply Hdown; lia). lra.
Qed.

(** At a grid point [E j] the scan selects the bin that ends there. *)
Lemma ilow_at_grid (j : nat) :
  (j <= 58)%nat -> spec_ilow (E j) energy = Nat.pred j.
Proof.
  intros Hj. destruct (ilow_exact (E j)) as (Hb & Hup & Hdown).
  set (i := spec_ilow (E j) energy) in *.
  assert (Hge : (Nat.pred j <= i)%nat).
  { destruct (Nat.le_gt_cases (Nat.pred j) i) as [H|H]; [exact H|].
    assert (Hi : (i < 57)%nat) by lia.
    specialize (Hup Hi).
    assert (E (i + 1) < E j) by (apply grid_increasing; lia). lra. }
  assert (Hle : (i <= Nat.pred j)%nat).
  { destruct (Nat.le_gt_cases i (Nat.pred j)) as [H|H]; [exact H|].
    specialize (Hdown (Nat.pred j) H).
    assert (E j <= E (Nat.pred j + 1)) by (apply grid_monotone; lia). lra. }
  lia.
Qed.

(** Past [energy[57]] the scan ends in the last bin. *)
Lemma ilow_last (r : real) : E 57 < r -> spec_ilow r energy = 57%nat.
Proof.
  intros Hr. destruct (ilow_exact r) as (Hb & Hup & _).
  destruct (Nat.eq_dec (spec_ilow r energy) 57) as [H|Hne]; [exact H|].
  assert (Hi : (spec_ilow r energy < 57)%nat) by lia.
  specialize (Hup Hi).
  assert (E (spec_ilow r energy + 1) <= E 57) by (apply grid_monotone; lia).
  lra.
Qed.

End ExactGrid.

(** ** The two outcomes of a lookup *)

Section Outcomes.
Context {F : Type} {AR : Arith F}.

(** When both subscripts of the curve are in range the lookup returns,
    with the locals the specification describes. *)
Lemma interpolate_in_range (r : F) (xc : list F) (d : F) :
  spec_ilow r energy + 1 < length xc ->
  interpolate r xc energy =
  Ok (mkLocals (spec_ilow r energy) (spec_efrac r energy)
        (fadd (nth (spec_ilow r energy) xc d)
              (fmul (spec_efrac r energy)
                    (fsub (nth (spec_ilow r energy + 1) xc d)
                          (nth (spec_ilow r energy) xc d))))).
Proof.
  intros Hlen. rewrite (interpolate_spec r xc energy energy_length).
  unfold spec_locals.
  rewrite (index_nth _ xc _ d) by lia. simpl bind.
  rewrite (index_nth _ xc _ d) by lia. reflexivity.
Qed.

(** When the upper subscript is past the end of the curve the lookup raises
    [IndexError]. *)
Lemma interpolate_out_of_range (r : F) (xc : list F) :
  length xc <= spec_ilow r energy + 1 ->
  interpolate r xc energy = Raise IndexError.
Proof.
  intros Hlen. rewrite (interpolate_spec r xc energy energy_length).
  unfold spec_locals, index.
  destruct (nth_error xc (spec_ilow r energy)); simpl; [|reflexivity].
  apply nth_error_None in Hlen. rewrite Hlen. reflexivity.
Qed.

(** The lookups as the specification's algorithm, subscripts checked. *)
Lemma lookups_follow_spec (r : F) (s : Z) :
  get_elastic_crosssection r s energy =
    spec_lookup r (select_ecross s) energy /\
  get_inelastic_crosssection r s energy =
    spec_lookup r (select_icross s) energy.
Proof.
  unfold get_elastic_crosssection, get_inelastic_crosssection,
    elastic_locals, inelastic_locals, spec_lookup.
  rewrite !(interpolate_spec r _ energy energy_length).
  split; reflexivity.
Qed.

End Outcomes.

(** ** The energy grid in double precision *)

Section Binary64Grid.

Lemma SFleb_trans (x y z : spec_float) :
  SFleb x y = true -> SFleb y z = true -> SFleb x z = true.
Proof.
  unfold SFleb.
  destruct x as [sx|sx| |sx mx ex], y as [sy|sy| |sy my ey],
           z as [sz|sz| |sz mz ez]; simpl;
    repeat match goal with s : bool |- _ => destruct s end; simpl;
    try discriminate; try reflexivity; intros H1 H2.
  all: change (Pos.compare_cont Eq) with Pos.compare in *.
  all: destruct (Z.compare_spec ex ey), (Z.compare_spec ey ez),
         (Z.compare_spec ex ez); try lia; try discriminate; try reflexivity;
       subst;
       destruct (Pos.compare_spec mx my), (Pos.compare_spec my mz),
         (Pos.compare_spec mx mz); simpl in *;
       try lia; try discriminate; try reflexivity.
Qed.

Lemma SFltb_leb (x y : spec_float) : SFltb x y = true -> SFleb x y = true.
Proof.
  unfold SFltb, SFleb. destruct (SFcompare x y) as [[| |]|];
    try discriminate; reflexivity.
Qed.

(** [<=] on doubles is transitive, NaN included (it is below nothing). *)
Lemma float_leb_trans (x y z : float) :
  (x <=? y)%float = true -> (y <=? z)%float = true ->
  (x <=? z)%float = true.
Proof. rewrite !FloatAxioms.leb_spec. apply SFleb_trans. Qed.

Lemma float_ltb_leb (x y : float) :
  (x <? y)%float = true -> (x <=? y)%float = true.
Proof.
  rewrite FloatAxioms.ltb_spec, FloatAxioms.leb_spec. apply SFltb_leb.
Qed.

Lemma grid64_monotone (i j : nat) :
  i <= j <= 58 -> (E64 i <=? E64 j)%float = true.
Proof.
  intros Hij.
  assert (Hall : forallb
            (fun a => forallb (fun b => (E64 a <=? E64 (a + b))%float)
                              (seq 0 (59 - a)))
            (seq 0 59) = true) by (vm_compute; reflexivity).
  rewrite forallb_forall in Hall.
  assert (Hi : In i (seq 0 59)) by (apply in_seq; lia).
  specialize (Hall i Hi). rewrite forallb_forall in Hall.
  replace j with (i + (j - i)) by lia.
  apply Hall. apply in_seq. lia.
Qed.

(** A request that is not [<= energy[57]] (the larger numbers, and NaN)
    ends in the last bin. *)
Lemma ilow64_last (r : float) :
  (r <=? E64 57)%float = false -> spec_ilow r energy = 57.
Proof.
  intros Hr. pose proof (spec_ilow_bound r energy) as Hb.
  destruct (spec_ilow_test r energy) as [Ht _].
  destruct (Nat.eq_dec (spec_ilow r energy) 57) as [H|Hne]; [exact H|].
  assert (Hi : spec_ilow r energy < 57) by lia.
  specialize (Ht Hi).
  change (fleb r (nth (spec_ilow r energy + 1) energy (lit 0)))
    with (r <=? E64 (spec_ilow r energy + 1))%float in Ht.
  rewrite (float_leb_trans r _ (E64 57) Ht) in Hr.
  - discriminate.
  - apply grid64_monotone. lia.
Qed.

End Binary64Grid.

(** ** In range and out of range *)

(** Off copper's elastic table a lookup returns, with [ilow] at most [57]
    and both subscripts inside the energy table and the curve. *)
Lemma lookups_in_range (F : Type) (AR : Arith F) (r : F) (s : Z) :
  (s <> 3%Z ->
   exists l : locals,
     elastic_locals r s energy = Ok l /\
     ilow l = spec_ilow r energy /\
     ilow l + 1 < length (energy (F := F)) /\
     ilow l + 1 < length (select_ecross s)) /\
  (exists l : locals,
     inelastic_locals r s energy = Ok l /\
     ilow l = spec_ilow r energy /\
     ilow l + 1 < length (energy (F := F)) /\
     ilow l + 1 < length (select_icross s)).
Proof.
  pose proof (spec_ilow_bound r energy) as Hb.
  split.
  - intros Hs. unfold elastic_locals.
    rewrite (interpolate_in_range r (select_ecross s) (lit 0))
      by (rewrite (select_ecross_length s Hs); lia).
    eexists. split; [reflexivity|]. cbn [ilow].
    rewrite (@energy_length F AR), (select_ecross_length s Hs). lia.
  - unfold inelastic_locals.
    rewrite (interpolate_in_range r (select_icross s) (lit 0))
      by (rewrite (select_icross_length s); lia).
    eexists. split; [reflexivity|]. cbn [ilow].
    rewrite (@energy_length F AR), (select_icross_length s). lia.
Qed.

(** No bin of the energy table has width zero, in either arithmetic. *)
Lemma divisor_nonzero (i : nat) :
  i <= 57 ->
  (E64 (i + 1) - E64 i =? 0)%float = false /\
  (E (i + 1) - E i <> 0)%R.
Proof.
  intros Hi. split.
  - assert (Hall : forallb
              (fun k => negb (E64 (k + 1) - E64 k =? 0)%float)
              (seq 0 58) = true) by (vm_compute; reflexivity).
    rewrite forallb_forall in Hall.
    apply negb_true_iff. apply Hall. apply in_seq. lia.
  - assert (E i < E (i + 1))%R by (apply grid_increasing; lia). lra.
Qed.

(** C1: both lookups run the specification's algorithm (first [i] of
    [0..57] with [requestedEnergy <= energy[i+1]], else [57]; [efrac] not
    clamped; [curve[ilow] + efrac * (curve[ilow+1] - curve[ilow])]) with
    the curve's subscripts checked as the interpreter checks them; at
    energy 2.5 and selector 3 the elastic lookup so reaches [ec[58]] in a
    58-entry table and raises [IndexError] where the claim has a value. *)
Theorem lookup_algorithm_and_copper_top_energy :
  (forall (F : Type) (AR : Arith F) (r : F) (s : Z),
     get_elastic_crosssection r s energy =
       spec_lookup r (select_ecross s) energy /\
     get_inelastic_crosssection r s energy =
       spec_lookup r (select_icross s) energy) /\
  spec_ilow (F := float) (lit 2.5) energy = 57 /\
  get_elastic_crosssection (F := float) (lit 2.5) 3 energy
    = Raise IndexError /\
  spec_ilow (F := real) (lit 2.5) energy = 57 /\
  get_elastic_crosssection (F := real) (lit 2.5) 3 energy
    = Raise IndexError.
Proof.
  assert (Hexact : spec_ilow (F := real) (lit 2.5) energy = 57).
  { apply ilow_last. rewrite E_literal. simpl lit.
    apply Qreals.Qlt_Rlt. apply Qltb_lt. vm_compute. reflexivity. }
  split; [|split; [|split; [|split]]].
  - intros F AR r s. apply lookups_follow_spec.
  - vm_compute. reflexivity.
  - vm_compute. reflexivity.
  - exact Hexact.
  - unfold get_elastic_crosssection, elastic_locals.
    rewrite interpolate_out_of_range; [reflexivity|].
    rewrite Hexact. apply Nat.eq_le_incl. reflexivity.
Qed.

(** C7: copper's elastic table has 58 entries, not 59.  Every request that
    is not [<= energy[57]] (2.0 GeV) ends the scan with [ilow = 57], and
    the elastic lookup for selector 3 then subscripts [ec[58]] past the end
    of the table: [IndexError], in double precision and in exact
    arithmetic. *)
Theorem copper_elastic_subscript_out_of_bounds :
  length (ecross (F := float) copper) = 58 /\
  (forall r : float,
     (r <=? lit 2.0)%float = false ->
     spec_ilow r energy = 57 /\
     index (select_ecross 3) (57 + 1) = Raise (A := float) IndexError /\
     get_elastic_crosssection r 3 energy = Raise IndexError) /\
  (forall r : real,
     (lit 2.0 < r)%R ->
     spec_ilow r energy = 57 /\
     get_elastic_crosssection r 3 energy = Raise IndexError).
Proof.
  split; [reflexivity|]. split.
  - intros r Hr.
    assert (Hi : spec_ilow r energy = 57) by (apply ilow64_last; exact Hr).
    repeat split.
    + exact Hi.
    + unfold get_elastic_crosssection, elastic_locals.
      rewrite interpolate_out_of_range; [reflexivity|].
      rewrite Hi. apply Nat.eq_le_incl. reflexivity.
  - intros r Hr.
    assert (Hi : spec_ilow r energy = 57).
    { apply ilow_last. rewrite E_literal. exact Hr. }
    split; [exact Hi|].
    unfold get_elastic_crosssection, elastic_locals.
    rewrite interpolate_out_of_range; [reflexivity|].
    rewrite Hi. apply Nat.eq_le_incl. reflexivity.
Qed.

(** ** The locals of a lookup that returns *)

Section Locals.
Context {F : Type} {AR : Arith F}.

Lemma spec_ilow_first (r : F) :
  fleb r (nth 1 energy (lit 0)) = true -> spec_ilow r energy = 0.
Proof.
  intros Hr. destruct (spec_ilow_test r energy) as [_ Hk].
  destruct (spec_ilow r energy) as [|i]; [reflexivity|].
  specialize (Hk 0 (Nat.lt_0_succ i)). simpl Nat.add in Hk.
  rewrite Hr in Hk. discriminate.
Qed.

Lemma select_ecross_length_ge (s : Z) : 58 <= length (select_ecross s).
Proof.
  destruct (Z.eq_dec s 3) as [->|Hs].
  - apply Nat.eq_le_incl. reflexivity.
  - rewrite (select_ecross_length s Hs). lia.
Qed.

Lemma locals_of_lookup (r : F) (xc : list F) (l : locals) :
  interpolate r xc energy = Ok l ->
  ilow l = spec_ilow r energy /\
  efrac l = spec_efrac r energy /\
  exists c_lo c_hi : F,
    nth_error xc (ilow l) = Some c_lo /\
    nth_error xc (ilow l + 1) = Some c_hi /\
    cross_section l = fadd c_lo (fmul (efrac l) (fsub c_hi c_lo)).
Proof.
  rewrite (interpolate_spec r xc energy energy_length).
  unfold spec_locals, index.
  destruct (nth_error xc (spec_ilow r energy)) as [c_lo|] eqn:Hlo;
    simpl; [|discriminate].
  destruct (nth_error xc (spec_ilow r energy + 1)) as [c_hi|] eqn:Hhi;
    simpl; [|discriminate].
  intros [= <-]. simpl. repeat split. exists c_lo, c_hi. auto.
Qed.

(** A request at or below [energy[1]]: bin 0, whatever the selector. *)
Lemma first_bin_locals (r : F) (xc : list F) :
  fleb r (nth 1 energy (lit 0)) = true ->
  2 <= length xc ->
  interpolate r xc energy =
  Ok (mkLocals 0
        (fdiv (fsub r (nth 0 energy (lit 0)))
              (fsub (nth 1 energy (lit 0)) (nth 0 energy (lit 0))))
        (fadd (nth 0 xc (lit 0))
              (fmul (fdiv (fsub r (nth 0 energy (lit 0)))
                          (fsub (nth 1 energy (lit 0))
                                (nth 0 energy (lit 0))))
                    (fsub (nth 1 xc (lit 0)) (nth 0 xc (lit 0)))))).
Proof.
  intros Hr Hlen.
  pose proof (spec_ilow_first r Hr) as Hi.
  rewrite (interpolate_in_range r xc (lit 0)) by (rewrite Hi; simpl; lia).
  unfold spec_efrac. rewrite Hi. reflexivity.
Qed.

End Locals.

(** ** Lookups in exact arithmetic *)

Section ExactLookups.
Local Open Scope R_scope.

Lemma Rdiv_negative (x y : real) : 0 < y -> (x / y < 0 <-> x < 0).
Proof.
  intros Hy. unfold Rdiv. pose proof (Rinv_0_lt_compat y Hy) as Hinv.
  split; intros H.
  - destruct (Rlt_le_dec x 0) as [Hx|Hx]; [exact Hx|].
    pose proof (Rmult_le_pos x (/ y) Hx (Rlt_le _ _ Hinv)). lra.
  - replace (x * / y) with (- ((- x) * / y)) by ring.
    assert (0 < (- x) * / y) by (apply Rmult_lt_0_compat; lra). lra.
Qed.

Lemma efrac_exact (r : real) :
  spec_efrac r energy =
  (r - E (spec_ilow r energy)) /
  (E (spec_ilow r energy + 1) - E (spec_ilow r energy)).
Proof. reflexivity. Qed.

Lemma bin_width_positive (r : real) :
  0 < E (spec_ilow r energy + 1) - E (spec_ilow r energy).
Proof.
  pose proof (spec_ilow_bound r energy) as Hb.
  assert (E (spec_ilow r energy) < E (spec_ilow r energy + 1))
    by (apply grid_increasing; lia).
  lra.
Qed.

(** [efrac] is negative exactly for the requests below [energy[0]]. *)
Lemma efrac_negative_iff (r : real) : spec_efrac r energy < 0 <-> r < E 0.
Proof.
  rewrite efrac_exact.
  rewrite (Rdiv_negative _ _ (bin_width_positive r)).
  destruct (ilow_exact r) as (Hb & Hup & Hdown).
  split; intros H.
  - destruct (spec_ilow r energy) as [|i]; [lra|].
    specialize (Hdown i (Nat.lt_succ_diag_r i)).
    replace (i + 1)%nat with (S i) in Hdown by lia. lra.
  - assert (Hr : r <= E 1).
    { assert (E 0 < E 1) by (apply grid_increasing; lia). lra. }
    rewrite (ilow_below r Hr). lra.
Qed.

(** Inside the table [efrac] lies in [[0, 1]]. *)
Lemma efrac_unit_interval (r : real) :
  E 0 <= r <= E 58 -> 0 <= spec_efrac r energy <= 1.
Proof.
  intros Hr. rewrite efrac_exact.
  pose proof (bin_width_positive r) as Hw.
  destruct (ilow_bracket r Hr) as ((Hlo & Hhi) & _).
  split.
  - apply Rmult_le_pos; [lra|]. left. apply Rinv_0_lt_compat. exact Hw.
  - apply Rmult_le_reg_r with
      (E (spec_ilow r energy + 1) - E (spec_ilow r energy)); [exact Hw|].
    unfold Rdiv. rewrite Rmult_assoc, Rinv_l by lra. lra.
Qed.

(** At a grid point: [0] at the first one, [1] at every other. *)
Lemma efrac_at_grid (j : nat) :
  (j <= 58)%nat ->
  spec_efrac (E j) energy = if Nat.eqb j 0 then 0 else 1.
Proof.
  intros Hj. rewrite efrac_exact, (ilow_at_grid j Hj).
  destruct j as [|j]; simpl Nat.pred; simpl Nat.eqb.
  - unfold Rdiv. rewrite Rminus_diag. apply Rmult_0_l.
  - replace (j + 1)%nat with (S j) by lia.
    assert (E j < E (S j)) by (apply grid_increasing; lia).
    apply Rdiv_diag. lra.
Qed.

End ExactLookups.

(** ** Signs in double precision *)

(** The kernel specifies each operation on doubles by the function of
    [SpecFloat] it agrees with.  The lemmas below follow the sign of a
    difference and of a quotient through that specification. *)

Section Rounding64.
Local Open Scope Z_scope.


Lemma digits2_pos_lower (m : positive) :
  2 ^ (Zpos (digits2_pos m) - 1) <= Zpos m.
Proof.
  induction m as [p IH|p IH|]; simpl digits2_pos.
  - rewrite Pos2Z.inj_succ.
    replace (Z.succ (Zpos (digits2_pos p)) - 1)
      with (Z.succ (Zpos (digits2_pos p) - 1)) by lia.
    rewrite Z.pow_succ_r by lia. lia.
  - rewrite Pos2Z.inj_succ.
    replace (Z.succ (Zpos (digits2_pos p)) - 1)
      with (Z.succ (Zpos (digits2_pos p) - 1)) by lia.
    rewrite Z.pow_succ_r by lia. lia.
  - simpl. lia.
Qed.

Lemma digits2_pos_upper (m : positive) :
  Zpos m < 2 ^ Zpos (digits2_pos m).
Proof.
  induction m as [p IH|p IH|]; simpl digits2_pos.
  - rewrite Pos2Z.inj_succ, Z.pow_succ_r by lia. lia.
  - rewrite Pos2Z.inj_succ, Z.pow_succ_r by lia. lia.
  - simpl. lia.
Qed.

Lemma shr_1_lower (mrs : shr_record) (k : Z) :
  0 <= k -> 2 ^ (k + 1) <= shr_m mrs -> 2 ^ k <= shr_m (shr_1 mrs).
Proof.
  intros Hk. rewrite Z.pow_add_r, Z.pow_1_r by lia.
  pose proof (Z.pow_pos_nonneg 2 k ltac:(lia) Hk) as Hpow.
  destruct mrs as [m r s]. destruct m as [|[p|p|]|p]; simpl; lia.
Qed.

Lemma iter_shr_1_lower (p : positive) :
  forall (mrs : shr_record) (k : Z),
    0 <= k -> 2 ^ (k + Zpos p) <= shr_m mrs ->
    2 ^ k <= shr_m (iter_pos shr_1 p mrs).
Proof.
  induction p as [p IH|p IH|]; intros mrs k Hk Hm; simpl iter_pos.
  - apply IH; [exact Hk|]. apply IH; [lia|].
    apply shr_1_lower; [lia|].
    replace (k + Zpos p + Zpos p + 1) with (k + Zpos p~1) by lia. exact Hm.
  - apply IH; [exact Hk|]. apply IH; [lia|].
    replace (k + Zpos p + Zpos p) with (k + Zpos p~0) by lia. exact Hm.
  - apply shr_1_lower; assumption.
Qed.

Lemma shr_m_of_loc (m : Z) (l : location) : shr_m (shr_record_of_loc m l) = m.
Proof. destruct l as [|[| |]]; reflexivity. Qed.

Lemma shr_fexp_positive (m e : Z) (l : location) :
  0 < m -> emin64 <= e ->
  0 < shr_m (fst (shr_fexp prec emax m e l)) /\
  emin64 <= snd (shr_fexp prec emax m e l).
Proof.
  intros Hm He. unfold shr_fexp, shr.
  destruct (fexp prec emax (Zdigits2 m + e) - e) as [|n|n] eqn:Hn; simpl;
    rewrite ?shr_m_of_loc; try (split; assumption).
  destruct m as [|p|p]; try lia. simpl Zdigits2 in Hn.
  unfold fexp in Hn. change (SpecFloat.emin prec emax) with emin64 in Hn.
  change prec with 53 in Hn.
  split.
  - apply Z.lt_le_trans with (2 ^ 0); [reflexivity|].
    apply iter_shr_1_lower; [lia|]. rewrite shr_m_of_loc.
    apply Z.le_trans with (2 ^ (Zpos (digits2_pos p) - 1)).
    + apply Z.pow_le_mono_r; lia.
    + apply digits2_pos_lower.
  - lia.
Qed.

Lemma round_nearest_even_ge (m : Z) (l : location) :
  m <= round_nearest_even m l.
Proof.
  unfold round_nearest_even. destruct l as [|[| |]]; try lia.
  destruct (Z.even m); lia.
Qed.

(** Rounding a positive mantissa at an exponent not below [emin] never
    gives a zero: the result carries the sign it was given. *)
Lemma binary_round_aux_nonzero (sx : bool) (m e : Z) (l : location) :
  0 < m -> emin64 <= e ->
  (exists m' e', binary_round_aux prec emax sx m e l = S754_finite sx m' e')
  \/ binary_round_aux prec emax sx m e l = S754_infinity sx.
Proof.
  intros Hm He. unfold binary_round_aux.
  pose proof (shr_fexp_positive m e l Hm He) as [H1 H2].
  destruct (shr_fexp prec emax m e l) as [mrs' e']. simpl in H1, H2.
  pose proof (round_nearest_even_ge (shr_m mrs') (loc_of_shr_record mrs')) as Hr.
  set (m2 := round_nearest_even (shr_m mrs') (loc_of_shr_record mrs')) in *.
  assert (Hm2 : 0 < m2) by lia.
  pose proof (shr_fexp_positive m2 e' loc_Exact Hm2 H2) as [H3 _].
  destruct (shr_fexp prec emax m2 e' loc_Exact) as [mrs'' e'']. simpl in H3.
  destruct (shr_m mrs'') as [|m3|m3]; try lia.
  destruct (e'' <=? emax - prec); [left; eauto | right; reflexivity].
Qed.

(** Whatever is rounded, the result is not of the other sign. *)
Lemma binary_round_aux_sign (sx : bool) (m e : Z) (l : location) :
  match binary_round_aux prec emax sx m e l with
  | S754_zero s | S754_infinity s | S754_finite s _ _ => s = sx
  | S754_nan => True
  end.
Proof.
  unfold binary_round_aux.
  destruct (shr_fexp prec emax m e l) as [mrs' e'].
  destruct (shr_fexp prec emax _ e' loc_Exact) as [mrs'' e''].
  destruct (shr_m mrs''); try exact I; try reflexivity.
  destruct (e'' <=? emax - prec); reflexivity.
Qed.


Lemma iter_xO_value (m d : positive) :
  Zpos (Pos.iter xO m d) = Zpos m * 2 ^ Zpos d.
Proof.
  induction d as [|d IH] using Pos.peano_ind.
  - simpl. lia.
  - rewrite Pos.iter_succ, Pos2Z.inj_succ, Z.pow_succ_r by lia.
    rewrite Pos2Z.inj_xO, IH. ring.
Qed.

Lemma shl_align_value (m : positive) (e e' : Z) :
  e' <= e -> Zpos (fst (shl_align m e e')) = Zpos m * 2 ^ (e - e').
Proof.
  intros Hle. unfold shl_align.
  destruct (e' - e) as [|d|d] eqn:Hd; simpl fst.
  - replace (e - e') with 0 by lia. simpl. lia.
  - lia.
  - rewrite iter_xO_value. replace (e - e') with (Zpos d) by lia. reflexivity.
Qed.

Lemma shl_align_exponent (m : positive) (e e' : Z) :
  snd (shl_align m e e') = Z.min e e'.
Proof.
  unfold shl_align. destruct (e' - e) as [|d|d] eqn:Hd; simpl snd; lia.
Qed.

Lemma SFneg_sign (x : spec_float) :
  SFneg x = match x with
            | S754_finite s _ _ | S754_infinity s => s
            | _ => false
            end.
Proof. destruct x as [s|s| |s m e]; try destruct s; reflexivity. Qed.

Lemma binary_round_negative (m : positive) (e : Z) :
  emin64 <= e -> SFneg (binary_round prec emax true m e) = true.
Proof.
  intros He. unfold binary_round.
  pose proof (shl_align_exponent m e
                (fexp prec emax (Zpos (digits2_pos m) + e))) as Hs.
  destruct (shl_align m e (fexp prec emax (Zpos (digits2_pos m) + e)))
    as [mz ez]. simpl in Hs.
  assert (Hez : emin64 <= ez).
  { subst ez. unfold fexp. change (SpecFloat.emin prec emax) with emin64.
    lia. }
  destruct (binary_round_aux_nonzero true (Zpos mz) ez loc_Exact
              ltac:(lia) Hez) as [(m' & e' & H)|H]; rewrite H; reflexivity.
Qed.

Lemma binary_normalize_negative (m e : Z) :
  m < 0 -> emin64 <= e ->
  SFneg (binary_normalize prec emax m e false) = true.
Proof.
  intros Hm He. destruct m as [|p|p]; try lia.
  apply binary_round_negative. exact He.
Qed.

Lemma binary_normalize_not_negative (m e : Z) :
  0 <= m -> SFneg (binary_normalize prec emax m e false) = false.
Proof.
  intros Hm. destruct m as [|p|p]; try lia; simpl binary_normalize.
  - reflexivity.
  - unfold binary_round.
    destruct (shl_align p e (fexp prec emax (Zpos (digits2_pos p) + e)))
      as [mz ez].
    pose proof (binary_round_aux_sign false (Zpos mz) ez loc_Exact) as Hs.
    rewrite SFneg_sign.
    destruct (binary_round_aux prec emax false (Zpos mz) ez loc_Exact);
      try reflexivity; exact Hs.
Qed.

(** What validity says of a finite double. *)
Lemma valid_finite (s : bool) (m : positive) (e : Z) :
  valid_binary (S754_finite s m e) = true ->
  emin64 <= e /\ Zpos m < 2 ^ 53 /\ (emin64 < e -> 2 ^ 52 <= Zpos m).
Proof.
  unfold SpecFloat.valid_binary, bounded, canonical_mantissa, fexp.
  change (SpecFloat.emin prec emax) with emin64. change prec with 53.
  intros H. apply andb_true_iff in H. destruct H as [H _].
  apply Z.eqb_eq in H.
  pose proof (digits2_pos_upper m) as Hu.
  pose proof (digits2_pos_lower m) as Hl.
  repeat split.
  - lia.
  - apply Z.lt_le_trans with (2 ^ Zpos (digits2_pos m)); [exact Hu|].
    apply Z.pow_le_mono_r; lia.
  - intros He. replace 52 with (Zpos (digits2_pos m) - 1) by lia. exact Hl.
Qed.


(** The sign of [x - c] for a positive finite [c]. *)
Lemma SFsub_sign (x : spec_float) (mc : positive) (ec : Z) :
  valid_binary x = true ->
  valid_binary (S754_finite false mc ec) = true ->
  SFneg (SFsub prec emax x (S754_finite false mc ec)) =
  SFltb x (S754_finite false mc ec).
Proof.
  intros Hx Hc.
  destruct x as [sx|sx| |sx mx ex];
    try (destruct sx; reflexivity); try reflexivity.
  apply valid_finite in Hx. destruct Hx as (Hex & Hmx & Hnx).
  apply valid_finite in Hc. destruct Hc as (Hec & Hmc & Hnc).
  unfold SFsub. change IntDef.Z.min with Z.min.
  rewrite !shl_align_value by lia.
  assert (Hmin : emin64 <= Z.min ex ec) by lia.
  destruct sx; unfold cond_Zopp.
  - (* x negative *)
    rewrite binary_normalize_negative; [reflexivity| |exact Hmin].
    assert (0 < Z.pos mx * 2 ^ (ex - Z.min ex ec)).
    { apply Z.mul_pos_pos; [lia|]. apply Z.pow_pos_nonneg; lia. }
    assert (0 < Z.pos mc * 2 ^ (ec - Z.min ex ec)).
    { apply Z.mul_pos_pos; [lia|]. apply Z.pow_pos_nonneg; lia. }
    lia.
  - (* x positive *)
    unfold SFltb, SFcompare.
    change (Pos.compare_cont Eq mx mc) with (Pos.compare mx mc).
    destruct (Z.compare_spec ex ec) as [Heq|Hlt|Hgt].
    + subst ec. rewrite Z.min_id, Z.sub_diag. simpl Z.pow.
      rewrite !Z.mul_1_r.
      destruct (Pos.compare_spec mx mc) as [Hm|Hm|Hm].
      * rewrite binary_normalize_not_negative; [reflexivity|]. subst. lia.
      * rewrite binary_normalize_negative; [reflexivity| |lia]. lia.
      * rewrite binary_normalize_not_negative; [reflexivity|]. lia.
    + rewrite binary_normalize_negative; [reflexivity| |exact Hmin].
      replace (Z.min ex ec) with ex by lia.
      rewrite Z.sub_diag. simpl Z.pow. rewrite Z.mul_1_r.
      assert (2 ^ 1 <= 2 ^ (ec - ex)) by (apply Z.pow_le_mono_r; lia).
      assert (2 ^ 52 <= Z.pos mc) by (apply Hnc; lia).
      assert (2 ^ 52 * 2 ^ 1 <= Z.pos mc * 2 ^ (ec - ex))
        by (apply Z.mul_le_mono_nonneg; lia).
      change (2 ^ 52 * 2 ^ 1) with (2 ^ 53) in *. lia.
    + rewrite binary_normalize_not_negative; [reflexivity|].
      replace (Z.min ex ec) with ec by lia.
      rewrite Z.sub_diag. simpl Z.pow. rewrite Z.mul_1_r.
      assert (2 ^ 1 <= 2 ^ (ex - ec)) by (apply Z.pow_le_mono_r; lia).
      assert (2 ^ 52 <= Z.pos mx) by (apply Hnx; lia).
      assert (2 ^ 52 * 2 ^ 1 <= Z.pos mx * 2 ^ (ex - ec))
        by (apply Z.mul_le_mono_nonneg; lia).
      change (2 ^ 52 * 2 ^ 1) with (2 ^ 53) in *. lia.
Qed.


(** The quotient of two mantissas, as [SFdiv] prepares it for rounding:
    positive, at an exponent not below [emin], when the divisor is below
    one. *)
Lemma SFdiv_core_positive (m1 m2 : positive) (e1 e2 : Z) :
  emin64 <= e1 -> Zpos m1 < 2 ^ 53 -> Zpos m2 < 2 ^ 53 -> e2 <= -53 ->
  0 < fst (fst (SFdiv_core_binary prec emax (Zpos m1) e1 (Zpos m2) e2)) /\
  emin64 <= snd (fst (SFdiv_core_binary prec emax (Zpos m1) e1 (Zpos m2) e2)).
Proof.
  intros He1 Hm1 Hm2 He2. unfold SFdiv_core_binary.
  change IntDef.Z.min with Z.min. simpl Zdigits2.
  set (d1 := Zpos (digits2_pos m1)). set (d2 := Zpos (digits2_pos m2)).
  set (e' := Z.min (fexp prec emax (d1 + e1 - (d2 + e2))) (e1 - e2)).
  assert (Hd1 : 2 ^ (d1 - 1) <= Zpos m1) by apply digits2_pos_lower.
  assert (Hd2 : Zpos m2 < 2 ^ d2) by apply digits2_pos_upper.
  assert (Hd1pos : 0 < d1) by (unfold d1; lia).
  assert (Hd2pos : 0 < d2) by (unfold d2; lia).
  assert (Hd1max : d1 <= 53).
  { assert (d1 - 1 < 53); [|lia].
    apply (Z.pow_lt_mono_r_iff 2); lia. }
  assert (He' : emin64 <= e').
  { unfold e', fexp. change (SpecFloat.emin prec emax) with emin64. lia. }
  assert (Hcase : e' <= d1 + e1 - (d2 + e2) - 53 \/ e' <= emin64).
  { unfold e', fexp. change (SpecFloat.emin prec emax) with emin64.
    change prec with 53. lia. }
  assert (Hbig : Zpos m2 <= Zpos m1 * 2 ^ (e1 - e2 - e') /\ 0 < e1 - e2 - e').
  { destruct Hcase as [Ha|Hb].
    - split; [|lia].
      apply Z.le_trans with (2 ^ (d1 - 1) * 2 ^ (e1 - e2 - e')).
      + rewrite <- Z.pow_add_r by lia.
        apply Z.le_trans with (2 ^ d2); [lia|].
        apply Z.pow_le_mono_r; lia.
      + apply Z.mul_le_mono_nonneg_r; [|exact Hd1].
        apply Z.pow_nonneg. lia.
    - split; [|lia].
      apply Z.le_trans with (1 * 2 ^ (e1 - e2 - e')).
      + rewrite Z.mul_1_l. apply Z.le_trans with (2 ^ 53); [lia|].
        apply Z.pow_le_mono_r; lia.
      + apply Z.mul_le_mono_nonneg_r; [|lia].
        apply Z.pow_nonneg. lia. }
  destruct Hbig as [Hbig Hs].
  destruct (e1 - e2 - e') as [|s|s] eqn:Es; try lia.
  rewrite Z.shiftl_mul_pow2 by lia.
  pose proof (Z_div_mod (Zpos m1 * 2 ^ Zpos s) (Zpos m2) ltac:(lia)) as Hdm.
  destruct (Z.div_eucl (Zpos m1 * 2 ^ Zpos s) (Zpos m2)) as [q r].
  simpl. split; [|exact He']. nia.
Qed.

(** Dividing by a positive double below one keeps the sign test. *)
Lemma SFdiv_sign (y : spec_float) (md : positive) (ed : Z) :
  valid_binary y = true ->
  valid_binary (S754_finite false md ed) = true ->
  ed <= -53 ->
  SFneg (SFdiv prec emax y (S754_finite false md ed)) = SFneg y.
Proof.
  intros Hy Hd Hed.
  destruct y as [sy|sy| |sy my ey];
    try (destruct sy; reflexivity); try reflexivity.
  apply valid_finite in Hy. destruct Hy as (Hey & Hmy & _).
  apply valid_finite in Hd. destruct Hd as (_ & Hmd & _).
  unfold SFdiv.
  pose proof (SFdiv_core_positive my md ey ed Hey Hmy Hmd Hed) as [Hq He].
  destruct (SFdiv_core_binary prec emax (Zpos my) ey (Zpos md) ed)
    as [[q e'] l]. simpl in Hq, He.
  destruct sy; simpl xorb.
  - destruct (binary_round_aux_nonzero true q e' l Hq He)
      as [(m' & e'' & H)|H]; rewrite H; reflexivity.
  - pose proof (binary_round_aux_sign false q e' l) as Hs.
    rewrite !SFneg_sign.
    destruct (binary_round_aux prec emax false q e' l);
      try reflexivity; exact Hs.
Qed.

(** For every double [x], NaN and the infinities included: [x - c] is
    negative exactly when [x < c]. *)
Lemma float_sub_sign (x c : float) :
  positive_finite c = true ->
  (x - c <? 0)%float = (x <? c)%float.
Proof.
  unfold positive_finite. intros Hc.
  rewrite !FloatAxioms.ltb_spec, FloatAxioms.sub_spec.
  pose proof (Prim2SF_valid x) as Hvx.
  pose proof (Prim2SF_valid c) as Hvc.
  destruct (Prim2SF c) as [s|s| |s mc ec]; try discriminate.
  destruct s; try discriminate.
  change (Prim2SF 0) with (S754_zero false).
  apply (SFsub_sign (Prim2SF x) mc ec Hvx Hvc).
Qed.

(** For every double [y]: [y / d] is negative exactly when [y] is. *)
Lemma float_div_sign (y d : float) :
  positive_below_one d = true ->
  (y / d <? 0)%float = (y <? 0)%float.
Proof.
  unfold positive_below_one. intros Hd.
  rewrite !FloatAxioms.ltb_spec, FloatAxioms.div_spec.
  pose proof (Prim2SF_valid y) as Hvy.
  pose proof (Prim2SF_valid d) as Hvd.
  destruct (Prim2SF d) as [s|s| |s md ed]; try discriminate.
  destruct s; try discriminate.
  apply Z.leb_le in Hd.
  change (Prim2SF 0) with (S754_zero false).
  apply (SFdiv_sign (Prim2SF y) md ed Hvy Hvd Hd).
Qed.

End Rounding64.

(** ** Rounding follows the order of the rationals

    Each operation of [SpecFloat] on non-negative doubles returns
    [RoundV] of the exact result, and [RoundV] is monotone: a sum, a
    difference, a product or a quotient of doubles grows with its
    operands.  Nothing here depends on the tables. *)

Section RoundingOrder.
Local Open Scope Z_scope.

(** Digits of a non-negative integer: [d] with [2^(d-1) <= k < 2^d]. *)
Lemma Zdigits2_bounds (k : Z) :
  0 < k -> 0 < Zdigits2 k /\ 2 ^ (Zdigits2 k - 1) <= k < 2 ^ Zdigits2 k.
Proof.
  intros Hk. destruct k as [|p|p]; try lia. simpl Zdigits2.
  split; [lia|]. split; [apply digits2_pos_lower | apply digits2_pos_upper].
Qed.

Lemma Zdigits2_unique (k d : Z) :
  0 < d -> 2 ^ (d - 1) <= k < 2 ^ d -> Zdigits2 k = d.
Proof.
  intros Hd [Hlo Hhi].
  assert (Hk : 0 < k).
  { apply Z.lt_le_trans with (2 ^ (d - 1)); [|exact Hlo].
    apply Z.pow_pos_nonneg; lia. }
  destruct (Zdigits2_bounds k Hk) as (Hpos & Hl & Hu).
  assert (d - 1 < Zdigits2 k).
  { apply (Z.pow_lt_mono_r_iff 2); lia. }
  assert (Zdigits2 k - 1 < d).
  { apply (Z.pow_lt_mono_r_iff 2); lia. }
  lia.
Qed.

Lemma Zdigits2_nonneg (k : Z) : 0 <= Zdigits2 k.
Proof. destruct k; simpl; lia. Qed.

Lemma Zdigits2_monotone (j k : Z) : 0 <= j <= k -> Zdigits2 j <= Zdigits2 k.
Proof.
  intros [Hj Hjk].
  destruct (Z.eq_dec j 0) as [->|Hne]; [apply Zdigits2_nonneg|].
  destruct (Zdigits2_bounds j ltac:(lia)) as (_ & Hl & _).
  destruct (Zdigits2_bounds k ltac:(lia)) as (_ & _ & Hu).
  assert (Zdigits2 j - 1 < Zdigits2 k).
  { apply (Z.pow_lt_mono_r_iff 2); [lia| |lia].
    pose proof (Zdigits2_nonneg k). lia. }
  lia.
Qed.

Lemma Zdigits2_le (k d : Z) : 0 <= k -> 0 <= d -> Zdigits2 k <= d -> k < 2 ^ d.
Proof.
  intros Hk Hd Hle.
  destruct (Z.eq_dec k 0) as [->|Hne].
  - apply Z.pow_pos_nonneg; lia.
  - destruct (Zdigits2_bounds k ltac:(lia)) as (_ & _ & Hu).
    apply Z.lt_le_trans with (2 ^ Zdigits2 k); [exact Hu|].
    apply Z.pow_le_mono_r; lia.
Qed.

Lemma rne_bounds (m : Z) (r s : bool) : m <= rne m r s <= m + 1.
Proof. unfold rne. destruct (r && (s || Z.odd m)); lia. Qed.

(** Floors of ordered fractions are ordered. *)
Lemma div_le_cross (A1 B1 A2 B2 : Z) :
  0 <= A1 -> 0 < B1 -> 0 < B2 -> A1 * B2 <= A2 * B1 -> A1 / B1 <= A2 / B2.
Proof.
  intros HA1 HB1 HB2 Hc.
  apply Z.div_le_lower_bound; [exact HB2|].
  pose proof (Z.mul_div_le A1 B1 HB1) as Hfloor.
  assert (0 <= A1 / B1) by (apply Z.div_pos; lia).
  (* B2 * (A1/B1) * B1 <= A1 * B2 <= A2 * B1 *)
  apply Z.mul_le_mono_pos_r with B1; [exact HB1|]. nia.
Qed.

(** The rounding decision is monotone in the remainder. *)
Lemma rne_class_monotone (q rem1 den1 rem2 den2 : Z) :
  0 <= rem1 -> 0 < den1 -> 0 <= rem2 -> 0 < den2 ->
  rem1 * den2 <= rem2 * den1 ->
  rne q (fst (loc_class rem1 den1)) (snd (loc_class rem1 den1)) <=
  rne q (fst (loc_class rem2 den2)) (snd (loc_class rem2 den2)).
Proof.
  intros Hr1 Hd1 Hr2 Hd2 Hc. unfold rne, loc_class. cbn [fst snd].
  destruct (den1 <=? 2 * rem1) eqn:E1; cbn [andb].
  2:{ match goal with |- _ <= (if ?b then _ else _) => destruct b end; lia. }
  apply Z.leb_le in E1.
  assert (E2 : den2 <= 2 * rem2) by nia.
  apply Z.leb_le in E2. rewrite E2. cbn [andb].
  destruct (Z.odd q); rewrite ?orb_true_r; [lia|]. rewrite !orb_false_r.
  destruct (negb (rem1 =? 0) && negb (2 * rem1 =? den1)) eqn:S1.
  2:{ match goal with |- _ <= (if ?b then _ else _) => destruct b end; lia. }
  apply andb_true_iff in S1. destruct S1 as [Sa Sb].
  apply negb_true_iff in Sa. apply negb_true_iff in Sb.
  apply Z.eqb_neq in Sa. apply Z.eqb_neq in Sb.
  apply Z.leb_le in E2.
  assert (den1 < 2 * rem1) by lia.
  assert (den2 < 2 * rem2) by nia.
  replace (negb (rem2 =? 0) && negb (2 * rem2 =? den2)) with true; [lia|].
  symmetry. apply andb_true_iff. split; apply negb_true_iff; apply Z.eqb_neq; lia.
Qed.

(** Rounding to nearest is monotone. *)
Lemma RoundV_monotone (A1 B1 A2 B2 : Z) :
  0 <= A1 -> 0 < B1 -> 0 <= A2 -> 0 < B2 ->
  A1 * B2 <= A2 * B1 ->
  RoundV A1 B1 <= RoundV A2 B2.
Proof.
  intros HA1 HB1 HA2 HB2 Hc. unfold RoundV.
  assert (Hk : A1 / B1 <= A2 / B2) by (apply div_le_cross; assumption).
  assert (Hk1 : 0 <= A1 / B1) by (apply Z.div_pos; lia).
  assert (Hd : Zdigits2 (A1 / B1) <= Zdigits2 (A2 / B2))
    by (apply Zdigits2_monotone; lia).
  set (t1 := Z.max (Zdigits2 (A1 / B1) - 53) 0).
  set (t2 := Z.max (Zdigits2 (A2 / B2) - 53) 0).
  assert (Ht1 : 0 <= t1) by (unfold t1; lia).
  assert (Ht12 : t1 <= t2) by (unfold t1, t2; lia).
  assert (Hp1 : 0 < 2 ^ t1) by (apply Z.pow_pos_nonneg; lia).
  assert (Hp2 : 0 < 2 ^ t2) by (apply Z.pow_pos_nonneg; lia).
  destruct (Z.eq_dec t1 t2) as [Heq|Hne].
  - (* rounded at the same exponent *)
    rewrite <- Heq. clearbody t1. clear t2 Ht12 Hp2 Heq.
    set (D1 := B1 * 2 ^ t1). set (D2 := B2 * 2 ^ t1).
    assert (HD1 : 0 < D1) by (unfold D1; nia).
    assert (HD2 : 0 < D2) by (unfold D2; nia).
    assert (HcD : A1 * D2 <= A2 * D1) by (unfold D1, D2; nia).
    assert (Hq : A1 / D1 <= A2 / D2) by (apply div_le_cross; assumption).
    apply Z.mul_le_mono_nonneg_r; [lia|].
    destruct (Z.eq_dec (A1 / D1) (A2 / D2)) as [Hqe|Hqn].
    + rewrite <- Hqe. apply rne_class_monotone.
      * apply Z.mod_pos_bound; lia.
      * exact HD1.
      * apply Z.mod_pos_bound; lia.
      * exact HD2.
      * rewrite !Z.mod_eq by lia. rewrite <- Hqe. nia.
    + pose proof (rne_bounds (A1 / D1) (fst (loc_class (A1 mod D1) D1))
                    (snd (loc_class (A1 mod D1) D1))).
      pose proof (rne_bounds (A2 / D2) (fst (loc_class (A2 mod D2) D2))
                    (snd (loc_class (A2 mod D2) D2))).
      lia.
  - (* rounded in different binades *)
    assert (Ht : t1 < t2) by lia.
    assert (Ht2 : t2 = Zdigits2 (A2 / B2) - 53) by (unfold t2 in *; lia).
    set (D1 := B1 * 2 ^ t1). set (D2 := B2 * 2 ^ t2).
    assert (HD1 : 0 < D1) by (unfold D1; nia).
    assert (HD2 : 0 < D2) by (unfold D2; nia).
    (* the first is at most 2^53 at t1 *)
    assert (Hq1 : A1 / D1 < 2 ^ 53).
    { unfold D1. rewrite <- Z.div_div by lia.
      apply Z.div_lt_upper_bound; [exact Hp1|].
      rewrite <- Z.pow_add_r by lia.
      apply Zdigits2_le; [exact Hk1|lia|]. unfold t1. lia. }
    (* the second at least 2^52 at t2 *)
    assert (Hq2 : 2 ^ 52 <= A2 / D2).
    { unfold D2. rewrite <- Z.div_div by lia.
      apply Z.div_le_lower_bound; [exact Hp2|].
      rewrite <- Z.pow_add_r by lia.
      assert (Hk2 : 0 < A2 / B2).
      { destruct (Z.eq_dec (A2 / B2) 0) as [E0|E0]; [|lia].
        rewrite E0 in Ht2. simpl in Ht2. lia. }
      destruct (Zdigits2_bounds _ Hk2) as (_ & Hl & _).
      replace (t2 + 52) with (Zdigits2 (A2 / B2) - 1) by lia. exact Hl. }
    pose proof (rne_bounds (A1 / D1) (fst (loc_class (A1 mod D1) D1))
                  (snd (loc_class (A1 mod D1) D1))) as Hb1.
    pose proof (rne_bounds (A2 / D2) (fst (loc_class (A2 mod D2) D2))
                  (snd (loc_class (A2 mod D2) D2))) as Hb2.
    apply Z.le_trans with (2 ^ 53 * 2 ^ t1).
    + apply Z.mul_le_mono_nonneg_r; lia.
    + apply Z.le_trans with (2 ^ 52 * 2 ^ t2).
      * rewrite <- !Z.pow_add_r by lia. apply Z.pow_le_mono_r; lia.
      * apply Z.mul_le_mono_nonneg_r; lia.
Qed.

(** Two fractions with the same value round alike. *)
Lemma RoundV_ratio (A1 B1 A2 B2 : Z) :
  0 <= A1 -> 0 < B1 -> 0 <= A2 -> 0 < B2 ->
  A1 * B2 = A2 * B1 -> RoundV A1 B1 = RoundV A2 B2.
Proof.
  intros HA1 HB1 HA2 HB2 Hc. apply Z.le_antisymm.
  - apply RoundV_monotone; try assumption. lia.
  - apply RoundV_monotone; try assumption. lia.
Qed.

Lemma RoundV_numerator (A1 A2 B : Z) :
  0 <= A1 <= A2 -> 0 < B -> RoundV A1 B <= RoundV A2 B.
Proof.
  intros HA HB. apply RoundV_monotone; try lia.
  apply Z.mul_le_mono_nonneg_r; lia.
Qed.

(** *** The shift register of [SpecFloat] holds a floor and a position *)

Lemma div_mod_double (num den q b rem : Z) :
  0 < den -> 0 <= rem < den -> b = 0 \/ b = 1 ->
  num = den * (2 * q + b) + rem ->
  num / (2 * den) = q /\ num mod (2 * den) = b * den + rem.
Proof.
  intros Hd Hr Hb Hn.
  assert (Heq : num = 2 * den * q + (b * den + rem)) by (rewrite Hn; ring).
  assert (Hbound : 0 <= b * den + rem < 2 * den) by (destruct Hb; subst b; lia).
  split.
  - symmetry. apply (Z.div_unique num (2 * den) q (b * den + rem)).
    + left. exact Hbound.
    + exact Heq.
  - symmetry. apply (Z.mod_unique num (2 * den) q (b * den + rem)).
    + left. exact Hbound.
    + exact Heq.
Qed.

Lemma loc_class_sticky (rem den : Z) :
  0 <= rem < den ->
  fst (loc_class rem den) || snd (loc_class rem den) = negb (rem =? 0).
Proof.
  intros Hr. unfold loc_class. cbn [fst snd].
  destruct (Z.eqb_spec rem 0), (Z.leb_spec den (2 * rem)),
    (Z.eqb_spec (2 * rem) den); simpl; try reflexivity; lia.
Qed.

Lemma loc_class_even (rem den : Z) :
  0 <= rem < den ->
  loc_class rem (2 * den) = (false, negb (rem =? 0)).
Proof.
  intros Hr. unfold loc_class.
  destruct (Z.leb_spec (2 * den) (2 * rem)); [lia|].
  destruct (Z.eqb_spec rem 0), (Z.eqb_spec (2 * rem) (2 * den));
    simpl; try reflexivity; lia.
Qed.

Lemma loc_class_odd (rem den : Z) :
  0 <= rem < den ->
  loc_class (1 * den + rem) (2 * den) = (true, negb (rem =? 0)).
Proof.
  intros Hr. unfold loc_class.
  destruct (Z.leb_spec (2 * den) (2 * (1 * den + rem))); [|lia].
  destruct (Z.eqb_spec (1 * den + rem) 0), (Z.eqb_spec rem 0),
    (Z.eqb_spec (2 * (1 * den + rem)) (2 * den));
    simpl; try reflexivity; lia.
Qed.

Lemma Rep_shr_1 (num den : Z) (mrs : shr_record) :
  Rep num den mrs -> Rep num (2 * den) (shr_1 mrs).
Proof.
  intros (Hn & Hd & Hm & Hr & Hs).
  pose proof (Z.div_mod num den ltac:(lia)) as Hdm.
  pose proof (Z.mod_pos_bound num den Hd) as Hb.
  pose proof (loc_class_sticky _ _ Hb) as Hst.
  rewrite <- Hr, <- Hs in Hst.
  assert (Hq : 0 <= num / den) by (apply Z.div_pos; lia).
  destruct mrs as [m r s]. cbn [shr_m shr_r shr_s] in *. subst m.
  unfold Rep. split; [exact Hn|]. split; [lia|].
  destruct (num / den) as [|[p|p|]|p] eqn:Eq; try lia;
    cbn [shr_1 shr_m shr_r shr_s].
  - destruct (div_mod_double num den 0 0 (num mod den) Hd Hb
                ltac:(left; reflexivity) ltac:(lia)) as [-> ->].
    rewrite Z.mul_0_l, Z.add_0_l, (loc_class_even _ _ Hb). cbn [fst snd].
    split; [reflexivity|]. split; [reflexivity|]. exact Hst.
  - destruct (div_mod_double num den (Zpos p) 1 (num mod den) Hd Hb
                ltac:(right; reflexivity) ltac:(lia)) as [-> ->].
    rewrite (loc_class_odd _ _ Hb). cbn [fst snd].
    split; [reflexivity|]. split; [reflexivity|]. exact Hst.
  - destruct (div_mod_double num den (Zpos p) 0 (num mod den) Hd Hb
                ltac:(left; reflexivity) ltac:(lia)) as [-> ->].
    rewrite Z.mul_0_l, Z.add_0_l, (loc_class_even _ _ Hb). cbn [fst snd].
    split; [reflexivity|]. split; [reflexivity|]. exact Hst.
  - destruct (div_mod_double num den 0 1 (num mod den) Hd Hb
                ltac:(right; reflexivity) ltac:(lia)) as [-> ->].
    rewrite (loc_class_odd _ _ Hb). cbn [fst snd].
    split; [reflexivity|]. split; [reflexivity|]. exact Hst.
Qed.

Lemma Rep_den (num den den' : Z) (mrs : shr_record) :
  den = den' -> Rep num den mrs -> Rep num den' mrs.
Proof. intros ->. exact (fun H => H). Qed.

Lemma Rep_iter (p : positive) :
  forall (num den : Z) (mrs : shr_record),
    Rep num den mrs -> Rep num (den * 2 ^ Zpos p) (iter_pos shr_1 p mrs).
Proof.
  induction p as [p IH|p IH|]; intros num den mrs H; cbn [iter_pos].
  - apply Rep_shr_1 in H. apply IH in H. apply IH in H.
    revert H. apply Rep_den.
    rewrite (Pos2Z.inj_xI p), Z.pow_add_r, Z.pow_mul_r by lia.
    change (2 ^ 2) with 4. change (2 ^ 1) with 2.
    replace (4 ^ Zpos p) with (2 ^ Zpos p * 2 ^ Zpos p).
    + ring.
    + rewrite <- Z.pow_mul_l. reflexivity.
  - apply IH in H. apply IH in H.
    revert H. apply Rep_den.
    rewrite (Pos2Z.inj_xO p), Z.pow_mul_r by lia.
    change (2 ^ 2) with 4.
    replace (4 ^ Zpos p) with (2 ^ Zpos p * 2 ^ Zpos p).
    + ring.
    + rewrite <- Z.pow_mul_l. reflexivity.
  - apply Rep_shr_1 in H. revert H. apply Rep_den.
    rewrite Z.pow_1_r. ring.
Qed.

Lemma Rep_shr (num den : Z) (mrs : shr_record) (e n : Z) :
  Rep num den mrs -> 0 <= n ->
  Rep num (den * 2 ^ n) (fst (shr mrs e n)) /\ snd (shr mrs e n) = e + n.
Proof.
  intros H Hn. unfold shr. destruct n as [|p|p]; try lia; cbn [fst snd].
  - split; [|lia]. revert H. apply Rep_den.
    rewrite Z.pow_0_r. ring.
  - split; [|reflexivity]. apply Rep_iter. exact H.
Qed.

(** *** What [binary_round_aux] returns *)

Lemma pow2_add (a b : Z) : 0 <= a -> 0 <= b -> 2 ^ (a + b) = 2 ^ a * 2 ^ b.
Proof. intros Ha Hb. apply Z.pow_add_r; assumption. Qed.

Lemma pow2_pos (a : Z) : 0 <= a -> 0 < 2 ^ a.
Proof. intros Ha. apply Z.pow_pos_nonneg; lia. Qed.

Lemma Zdigits2_scaled (num den e : Z) :
  0 < den -> den <= num -> - S0 <= e ->
  Z.max (Zdigits2 ((num * 2 ^ (e + S0)) / (den * 2 ^ (S0 + emin64))) - 53) 0
  = Z.max (Zdigits2 (num / den) + e - 53) emin64 - emin64.
Proof.
  intros Hd Hn He.
  assert (Hm : 0 < num / den).
  { apply Z.div_str_pos. lia. }
  destruct (Zdigits2_bounds _ Hm) as (Hdp & Hlo & Hhi).
  set (d := Zdigits2 (num / den)) in *.
  pose proof (Z.mul_div_le num den Hd) as Hfl.
  pose proof (Z.mul_succ_div_gt num den Hd) as Hce.
  assert (Hnlo : den * 2 ^ (d - 1) <= num) by nia.
  assert (Hnhi : num < den * 2 ^ d) by nia.
  change emin64 with (-1074) in *. unfold S0 in *.
  pose proof (pow2_pos (e + 2200) ltac:(lia)) as Hc.
  pose proof (pow2_pos (2200 + -1074) ltac:(lia)) as Hk0.
  destruct (Z_le_gt_dec 1 (d + (e + 1074))) as [Hbig|Hsmall].
  - rewrite (Zdigits2_unique _ (d + (e + 1074))); [lia|lia|].
    split.
    + apply Z.div_le_lower_bound; [nia|].
      replace (den * 2 ^ (2200 + -1074) * 2 ^ (d + (e + 1074) - 1))
        with (den * 2 ^ (d - 1) * 2 ^ (e + 2200)).
      * apply Z.mul_le_mono_nonneg_r; lia.
      * rewrite <- !Z.mul_assoc. f_equal.
        rewrite <- !pow2_add by lia. f_equal. lia.
    + apply Z.div_lt_upper_bound; [nia|].
      replace (den * 2 ^ (2200 + -1074) * 2 ^ (d + (e + 1074)))
        with (den * 2 ^ d * 2 ^ (e + 2200)).
      * apply Z.mul_lt_mono_pos_r; lia.
      * rewrite <- !Z.mul_assoc. f_equal.
        rewrite <- !pow2_add by lia. f_equal. lia.
  - rewrite Z.div_small.
    + simpl Zdigits2. lia.
    + split; [nia|].
      apply Z.lt_le_trans with (den * 2 ^ d * 2 ^ (e + 2200)).
      * apply Z.mul_lt_mono_pos_r; lia.
      * rewrite <- !Z.mul_assoc. apply Z.mul_le_mono_nonneg_l; [lia|].
        rewrite <- pow2_add by lia. apply Z.pow_le_mono_r; lia.
Qed.

Lemma round_nearest_even_rne (mrs : shr_record) :
  round_nearest_even (shr_m mrs) (loc_of_shr_record mrs)
  = rne (shr_m mrs) (shr_r mrs) (shr_s mrs).
Proof.
  destruct mrs as [m [|] [|]]; unfold rne; cbn; try reflexivity.
  - rewrite <- Z.negb_odd. destruct (Z.odd m); reflexivity.
Qed.

Lemma loc_class_scale (c rem den : Z) :
  0 < c -> loc_class (rem * c) (den * c) = loc_class rem den.
Proof.
  intros Hc. unfold loc_class. f_equal.
  - destruct (Z.leb_spec (den * c) (2 * (rem * c))),
      (Z.leb_spec den (2 * rem)); try reflexivity; nia.
  - destruct (Z.eqb_spec (rem * c) 0), (Z.eqb_spec rem 0),
      (Z.eqb_spec (2 * (rem * c)) (den * c)), (Z.eqb_spec (2 * rem) den);
      try reflexivity; nia.
Qed.

Lemma Zdigits2_upper (k d : Z) :
  0 <= k -> 0 <= d -> k < 2 ^ d -> Zdigits2 k <= d.
Proof.
  intros Hk0 Hd Hk. destruct (Z_lt_le_dec 0 k) as [Hpos|Hneg].
  - destruct (Zdigits2_bounds k Hpos) as (Hdp & Hlo & _).
    assert (Zdigits2 k - 1 < d); [|lia].
    apply (Z.pow_lt_mono_r_iff 2); lia.
  - destruct k as [|p|p]; simpl; lia.
Qed.

(** [RoundV] is the rounded mantissa of the shifted register, at the
    exponent [binary_round_aux] shifts to. *)
Lemma RoundV_shr (num den e : Z) (mrs : shr_record) :
  0 < den -> den <= num -> - S0 <= e ->
  e <= Z.max (Zdigits2 (num / den) + e - 53) emin64 ->
  Rep num (den * 2 ^ (Z.max (Zdigits2 (num / den) + e - 53) emin64 - e)) mrs ->
  RoundV (num * 2 ^ (e + S0)) (den * 2 ^ (S0 + emin64))
  = round_nearest_even (shr_m mrs) (loc_of_shr_record mrs)
    * 2 ^ (Z.max (Zdigits2 (num / den) + e - 53) emin64 - emin64).
Proof.
  intros Hd Hn He Hle (_ & Hd2 & Hm & Hr & Hs).
  unfold RoundV. rewrite (Zdigits2_scaled num den e Hd Hn He).
  set (eps := Z.max (Zdigits2 (num / den) + e - 53) emin64) in *.
  assert (Hc : 0 < 2 ^ (e + S0)) by (apply pow2_pos; unfold S0 in *; lia).
  assert (HB : den * 2 ^ (S0 + emin64) * 2 ^ (eps - emin64)
               = den * 2 ^ (eps - e) * 2 ^ (e + S0)).
  { rewrite <- !Z.mul_assoc. f_equal.
    assert (Hemin : emin64 = -1074) by reflexivity.
    unfold S0 in *. rewrite <- !pow2_add by lia. f_equal. lia. }
  cbv zeta. rewrite HB.
  rewrite Z.div_mul_cancel_r by lia.
  rewrite Z.mul_mod_distr_r by lia.
  rewrite (loc_class_scale _ _ _ Hc).
  rewrite <- Hm, <- Hr, <- Hs, round_nearest_even_rne. reflexivity.
Qed.

Lemma shr_nonpositive (mrs : shr_record) (e n : Z) :
  n <= 0 -> shr mrs e n = (mrs, e).
Proof. intros Hn. unfold shr. destruct n; try reflexivity; lia. Qed.

Lemma Rep_exact (m : Z) : 0 <= m -> Rep m 1 (shr_record_of_loc m loc_Exact).
Proof.
  intros Hm. unfold Rep. rewrite Z.div_1_r, Z.mod_1_r. cbn.
  repeat split; lia.
Qed.

(** The rounding step shared by the operations of [SpecFloat]: a positive
    mantissa [m] at exponent [e], the floor of [num / den], is rounded to
    [RoundV] of that fraction, counted in units. *)
Lemma binary_round_aux_spec (m e : Z) (l : location) (num den : Z) :
  0 < m -> Rep num den (shr_record_of_loc m l) -> - S0 <= e ->
  e <= fexp prec emax (Zdigits2 m + e) ->
  is_round (RoundV (num * 2 ^ (e + S0)) (den * 2 ^ (S0 + emin64)))
           (binary_round_aux prec emax false m e l).
Proof.
  intros Hm HR He Hfe.
  assert (Hmq : m = num / den).
  { destruct HR as (_ & _ & H & _). rewrite shr_m_of_loc in H. exact H. }
  assert (Hd : 0 < den) by apply HR.
  assert (Hn : den <= num).
  { pose proof (Z.mul_div_le num den Hd). nia. }
  unfold binary_round_aux, shr_fexp.
  unfold fexp in *. change (SpecFloat.emin prec emax) with emin64 in *.
  change prec with 53 in *.
  change IntDef.Z.max with Z.max in *.
  set (eps := Z.max (Zdigits2 m + e - 53) emin64) in *.
  destruct (Rep_shr num den _ e (eps - e) HR ltac:(lia)) as [HR1 He1].
  destruct (shr (shr_record_of_loc m l) e (eps - e)) as [mrs' e'].
  cbn [fst snd] in HR1, He1. subst e'.
  replace (e + (eps - e)) with eps by lia.
  assert (HV := RoundV_shr num den e mrs' Hd Hn He).
  rewrite <- Hmq in HV. fold eps in HV. specialize (HV Hfe HR1).
  rewrite HV. clear HV.
  (* the shifted mantissa *)
  destruct (Zdigits2_bounds m Hm) as (Hdp & Hlo & Hhi).
  pose proof (Z.mul_div_le num den Hd) as Hfl.
  pose proof (Z.mul_succ_div_gt num den Hd) as Hce.
  rewrite <- Hmq in Hfl, Hce.
  set (d := Zdigits2 m) in *.
  assert (Hnlo : den * 2 ^ (d - 1) <= num) by nia.
  assert (Hnhi : num < den * 2 ^ d) by nia.
  assert (Hm1 : shr_m mrs' = num / (den * 2 ^ (eps - e))) by apply HR1.
  pose proof (pow2_pos (eps - e) ltac:(lia)) as Hpn.
  assert (Hup : 0 <= shr_m mrs' < 2 ^ 53).
  { rewrite Hm1. split.
    - apply Z.div_pos; nia.
    - apply Z.div_lt_upper_bound; [nia|].
      apply Z.lt_le_trans with (1 := Hnhi).
      rewrite <- Z.mul_assoc. apply Z.mul_le_mono_nonneg_l; [lia|].
      rewrite <- pow2_add by lia. apply Z.pow_le_mono_r; lia. }
  assert (Hnormal : emin64 < eps -> 2 ^ 52 <= shr_m mrs').
  { intros Hgt. rewrite Hm1. apply Z.div_le_lower_bound; [nia|].
    apply Z.le_trans with (2 := Hnlo).
    rewrite <- Z.mul_assoc. apply Z.mul_le_mono_nonneg_l; [lia|].
    rewrite <- pow2_add by lia. apply Z.pow_le_mono_r; lia. }
  pose proof (rne_bounds (shr_m mrs') (shr_r mrs') (shr_s mrs')) as Hrb.
  rewrite <- round_nearest_even_rne in Hrb.
  set (m2 := round_nearest_even (shr_m mrs') (loc_of_shr_record mrs')) in *.
  assert (Heps : emin64 <= eps) by lia.
  pose proof (pow2_pos (eps - emin64) ltac:(lia)) as Hpt.
  destruct (Z.eq_dec m2 (2 ^ 53)) as [Htop|Hntop].
  - (* the mantissa overflowed into the next binade *)
    rewrite Htop.
    change (Zdigits2 (2 ^ 53)) with 54.
    replace (Z.max (54 + eps - 53) emin64 - eps) with 1 by lia.
    cbn -[Z.leb Z.pow Z.sub emax].
    destruct (Z.leb_spec (eps + 1) (emax - 53)) as [Hfit|Hover].
    + apply is_round_finite; [lia|]. unfold sv.
      replace (eps + 1 - emin64) with (1 + (eps - emin64)) by lia.
      rewrite pow2_add by lia. change (2 ^ 1) with 2. lia.
    + apply is_round_infinity. unfold OVF.
      change (2 ^ 53 * 2 ^ (eps - emin64)) with (2 ^ 53 * 2 ^ (eps - emin64)).
      rewrite <- pow2_add by lia. apply Z.pow_le_mono_r; [lia|].
      change emax with 1024 in *. lia.
  - assert (Hm2 : 0 <= m2 < 2 ^ 53) by lia.
    pose proof (Zdigits2_upper m2 53 ltac:(lia) ltac:(lia) ltac:(lia)) as Hd2.
    pose proof (Zdigits2_nonneg m2) as Hd2'.
    rewrite shr_nonpositive by lia.
    rewrite shr_m_of_loc.
    destruct m2 as [|p|p] eqn:Ep; try lia.
    + apply is_round_zero. reflexivity.
    + destruct (Z.leb_spec eps (emax - 53)) as [Hfit|Hover].
      * apply is_round_finite; [lia|]. reflexivity.
      * apply is_round_infinity. unfold OVF.
        apply Z.le_trans with (2 ^ 52 * 2 ^ (eps - emin64)).
        -- rewrite <- pow2_add by lia. apply Z.pow_le_mono_r; [lia|].
           change emax with 1024 in *. lia.
        -- apply Z.mul_le_mono_nonneg_r; [lia|].
           assert (emin64 < eps) by (change emax with 1024 in *;
             change emin64 with (-1074) in *; lia).
           specialize (Hnormal H). lia.
Qed.

(** *** Values that need no rounding *)

Lemma RoundV_zero (B : Z) : 0 < B -> RoundV 0 B = 0.
Proof.
  intros HB. unfold RoundV. cbv zeta. rewrite Z.div_0_l by lia.
  simpl Zdigits2.
  change (Z.max (0 - 53) 0) with 0. rewrite Z.pow_0_r, !Z.mul_1_r.
  rewrite Z.mod_0_l by lia. unfold loc_class. cbn [fst snd].
  destruct (Z.leb_spec B (2 * 0)); [lia|]. reflexivity.
Qed.

Lemma Zdigits2_shift (m j : Z) :
  0 < m -> 0 <= j -> Zdigits2 (m * 2 ^ j) = Zdigits2 m + j.
Proof.
  intros Hm Hj. destruct (Zdigits2_bounds m Hm) as (Hd & Hlo & Hhi).
  pose proof (pow2_pos j Hj) as Hp.
  apply Zdigits2_unique; [lia|].
  replace (Zdigits2 m + j - 1) with ((Zdigits2 m - 1) + j) by lia.
  rewrite !pow2_add by lia. split.
  - apply Z.mul_le_mono_nonneg_r; lia.
  - apply Z.mul_lt_mono_pos_r; lia.
Qed.

Lemma RoundV_exact (m j : Z) :
  0 < m < 2 ^ 53 -> 0 <= j -> RoundV (m * 2 ^ j) 1 = m * 2 ^ j.
Proof.
  intros Hm Hj. unfold RoundV. cbv zeta. rewrite Z.div_1_r.
  rewrite Zdigits2_shift by lia.
  pose proof (Zdigits2_upper m 53 ltac:(lia) ltac:(lia) ltac:(lia)) as Hd.
  set (t := Z.max (Zdigits2 m + j - 53) 0).
  assert (Ht : 0 <= t <= j) by lia.
  pose proof (pow2_pos t ltac:(lia)) as Hpt.
  assert (Hsplit : m * 2 ^ j = m * 2 ^ (j - t) * (1 * 2 ^ t)).
  { rewrite Z.mul_1_l, <- Z.mul_assoc, <- pow2_add by lia.
    f_equal. f_equal. lia. }
  rewrite Hsplit at 1 2.
  rewrite Z.div_mul, Z.mod_mul by lia.
  unfold loc_class. cbn [fst snd].
  destruct (Z.leb_spec (1 * 2 ^ t) (2 * 0)); [lia|].
  unfold rne. cbn [andb].
  rewrite <- Z.mul_assoc, <- pow2_add by lia. f_equal. f_equal. lia.
Qed.

(** *** Non-negative finite doubles and their order *)

Lemma valid_finite_top (s : bool) (m : positive) (e : Z) :
  valid_binary (S754_finite s m e) = true -> sv m e < OVF.
Proof.
  intros H. destruct (valid_finite s m e H) as (He & Hm & _).
  unfold SpecFloat.valid_binary, bounded in H.
  apply andb_true_iff in H. destruct H as [_ H]. apply Z.leb_le in H.
  change prec with 53 in H. unfold sv, OVF.
  pose proof (pow2_pos (e - emin64) ltac:(lia)) as Hp.
  apply Z.lt_le_trans with (2 ^ 53 * 2 ^ (e - emin64)).
  - apply Z.mul_lt_mono_pos_r; lia.
  - rewrite <- pow2_add by lia. apply Z.pow_le_mono_r; lia.
Qed.

Lemma sv_positive (m : positive) (e : Z) : emin64 <= e -> 0 < sv m e.
Proof.
  intros He. unfold sv.
  pose proof (pow2_pos (e - emin64) ltac:(lia)). lia.
Qed.

Lemma sv_exponent_order (m1 m2 : positive) (e1 e2 : Z) :
  valid_binary (S754_finite false m1 e1) = true ->
  valid_binary (S754_finite false m2 e2) = true ->
  e1 < e2 -> sv m1 e1 < sv m2 e2.
Proof.
  intros H1 H2 Hlt.
  destruct (valid_finite _ _ _ H1) as (He1 & Hm1 & _).
  destruct (valid_finite _ _ _ H2) as (He2 & _ & Hn2).
  specialize (Hn2 ltac:(lia)). unfold sv.
  pose proof (pow2_pos (e1 - emin64) ltac:(lia)) as Hp1.
  replace (e2 - emin64) with ((e2 - e1 - 1) + (1 + (e1 - emin64))) by lia.
  rewrite !pow2_add by lia. change (2 ^ 1) with 2.
  pose proof (pow2_pos (e2 - e1 - 1) ltac:(lia)) as Hp2.
  assert (H53 : 2 ^ 53 = 2 * 2 ^ 52) by reflexivity.
  set (P1 := 2 ^ (e1 - emin64)) in *. set (P2 := 2 ^ (e2 - e1 - 1)) in *.
  remember (2 ^ 52) as K eqn:HK. rewrite H53 in Hm1. clear HK H53.
  assert (Ha : Zpos m1 * P1 < 2 * K * P1)
    by (apply Z.mul_lt_mono_pos_r; lia).
  assert (Hb : 2 * K * P1 <= 2 * Zpos m2 * P1)
    by (apply Z.mul_le_mono_nonneg_r; lia).
  assert (Hc : 2 * Zpos m2 * P1 * 1 <= 2 * Zpos m2 * P1 * P2)
    by (apply Z.mul_le_mono_nonneg_l; lia).
  replace (Zpos m2 * (P2 * (2 * P1))) with (2 * Zpos m2 * P1 * P2) by ring.
  lia.
Qed.

Lemma NF_leb (x y : spec_float) (X Y : Z) :
  NF x X -> NF y Y -> SFleb x y = (X <=? Y).
Proof.
  intros Hx Hy. destruct Hx as [|m1 e1 H1]; destruct Hy as [|m2 e2 H2].
  - reflexivity.
  - pose proof (sv_positive m2 e2 (proj1 (valid_finite _ _ _ H2))).
    symmetry. apply Z.leb_le. lia.
  - pose proof (sv_positive m1 e1 (proj1 (valid_finite _ _ _ H1))).
    symmetry. apply Z.leb_gt. lia.
  - unfold SFleb, SFcompare.
    change (Pos.compare_cont Eq m1 m2) with (Pos.compare m1 m2).
    destruct (Z.compare_spec e1 e2) as [Heq|Hlt|Hgt].
    + subst e2. unfold sv.
      pose proof (pow2_pos (e1 - emin64)
                    ltac:(pose proof (proj1 (valid_finite _ _ _ H1)); lia)).
      destruct (Pos.compare_spec m1 m2) as [Hm|Hm|Hm]; symmetry.
      * apply Z.leb_le. subst. lia.
      * apply Z.leb_le. nia.
      * apply Z.leb_gt. nia.
    + pose proof (sv_exponent_order _ _ _ _ H1 H2 Hlt).
      symmetry. apply Z.leb_le. lia.
    + pose proof (sv_exponent_order _ _ _ _ H2 H1 Hgt).
      symmetry. apply Z.leb_gt. lia.
Qed.

Lemma is_round_NF (V : Z) (x : spec_float) :
  is_round V x -> valid_binary x = true -> V < OVF -> NF x V.
Proof.
  intros Hr Hv Hlt. destruct Hr as [H0|m e He Hs|Hinf].
  - subst V. constructor.
  - subst V. constructor. exact Hv.
  - lia.
Qed.

Lemma NF_bounds (x : spec_float) (V : Z) : NF x V -> 0 <= V < OVF.
Proof.
  intros H. destruct H as [|m e Hv].
  - split; [lia|]. unfold OVF. apply pow2_pos. discriminate.
  - pose proof (sv_positive m e (proj1 (valid_finite _ _ _ Hv))).
    pose proof (valid_finite_top _ _ _ Hv). lia.
Qed.

(** Rounded results compare as their values do. *)
Lemma is_round_leb (V1 V2 : Z) (x1 x2 : spec_float) :
  is_round V1 x1 -> is_round V2 x2 ->
  valid_binary x1 = true -> valid_binary x2 = true ->
  V1 <= V2 -> SFleb x1 x2 = true.
Proof.
  intros H1 H2 Hv1 Hv2 Hle.
  destruct H2 as [H0|m2 e2 He2 Hs2|Hinf2].
  - assert (N2 : NF (S754_zero false) V2) by (subst V2; constructor).
    destruct H1 as [H0'|m1 e1 He1 Hs1|Hinf1].
    + reflexivity.
    + pose proof (sv_positive m1 e1 He1). lia.
    + unfold OVF in Hinf1.
      pose proof (pow2_pos (emax - emin64) ltac:(discriminate)). lia.
  - pose proof (valid_finite_top _ _ _ Hv2) as Htop.
    destruct H1 as [H0'|m1 e1 He1 Hs1|Hinf1].
    + reflexivity.
    + rewrite (NF_leb _ _ (sv m1 e1) (sv m2 e2)) by (constructor; assumption).
      apply Z.leb_le. lia.
    + lia.
  - destruct H1 as [H0'|m1 e1 He1 Hs1|Hinf1]; reflexivity.
Qed.

(** *** The four operations on non-negative doubles *)

Lemma shl_align_mantissa (m : positive) (e e' : Z) :
  Zpos (fst (shl_align m e e')) = Zpos m * 2 ^ (e - Z.min e e').
Proof.
  unfold shl_align. destruct (e' - e) as [|d|d] eqn:Hd; simpl fst.
  - replace (e - Z.min e e') with 0 by lia. rewrite Z.pow_0_r. lia.
  - replace (e - Z.min e e') with 0 by lia. rewrite Z.pow_0_r. lia.
  - rewrite iter_xO_value. f_equal. f_equal. lia.
Qed.

Lemma RoundV_units (X e : Z) :
  0 <= X -> emin64 <= e ->
  RoundV (X * 2 ^ (e + S0)) (1 * 2 ^ (S0 + emin64))
  = RoundV (X * 2 ^ (e - emin64)) 1.
Proof.
  intros HX He.
  assert (Hemin : emin64 = -1074) by reflexivity.
  pose proof (pow2_pos (e + S0) ltac:(unfold S0; lia)).
  pose proof (pow2_pos (S0 + emin64) ltac:(unfold S0; lia)).
  pose proof (pow2_pos (e - emin64) ltac:(lia)).
  apply RoundV_ratio; try nia.
  rewrite Z.mul_1_r, Z.mul_1_l, <- Z.mul_assoc, <- pow2_add
    by (unfold S0; lia).
  f_equal. f_equal. lia.
Qed.

Lemma binary_round_val (p : positive) (e : Z) :
  emin64 <= e ->
  is_round (RoundV (Zpos p * 2 ^ (e - emin64)) 1)
           (binary_round prec emax false p e).
Proof.
  intros He. unfold binary_round.
  set (f := fexp prec emax (Zpos (digits2_pos p) + e)).
  pose proof (shl_align_exponent p e f) as Hs.
  pose proof (shl_align_mantissa p e f) as Hv.
  destruct (shl_align p e f) as [mz ez]. cbn [fst snd] in Hs, Hv.
  assert (Hf : emin64 <= f).
  { unfold f, fexp. change (SpecFloat.emin prec emax) with emin64.
    change IntDef.Z.max with Z.max. lia. }
  assert (Hez : emin64 <= ez) by lia.
  assert (Hemin : emin64 = -1074) by reflexivity.
  assert (HS0 : - S0 <= ez) by (unfold S0; lia).
  pose proof (binary_round_aux_spec (Zpos mz) ez loc_Exact (Zpos mz) 1
                (Pos2Z.pos_is_pos mz)
                (Rep_exact (Zpos mz) (Pos2Z.pos_is_nonneg mz)) HS0) as Hspec.
  assert (Hpre : ez <= fexp prec emax (Zdigits2 (Zpos mz) + ez)).
  { rewrite Hv, Zdigits2_shift by lia.
    replace (Zdigits2 (Zpos p) + (e - Z.min e f) + ez)
      with (Zpos (digits2_pos p) + e) by (simpl Zdigits2; lia).
    fold f. lia. }
  specialize (Hspec Hpre).
  rewrite RoundV_units in Hspec by lia.
  replace (Zpos mz * 2 ^ (ez - emin64)) with (Zpos p * 2 ^ (e - emin64))
    in Hspec; [exact Hspec|].
  rewrite Hv, <- Z.mul_assoc, <- pow2_add by lia. f_equal. f_equal. lia.
Qed.

Lemma binary_normalize_val (m e : Z) :
  0 <= m -> emin64 <= e ->
  is_round (RoundV (m * 2 ^ (e - emin64)) 1)
           (binary_normalize prec emax m e false).
Proof.
  intros Hm He. destruct m as [|p|p]; try lia; cbn [binary_normalize].
  - rewrite Z.mul_0_l, RoundV_zero by lia. constructor. reflexivity.
  - apply binary_round_val. exact He.
Qed.

Lemma sv_aligned (m : positive) (e ez : Z) :
  emin64 <= ez -> ez <= e ->
  Zpos m * 2 ^ (e - ez) * 2 ^ (ez - emin64) = sv m e.
Proof.
  intros H1 H2. unfold sv. rewrite <- Z.mul_assoc, <- pow2_add by lia.
  f_equal. f_equal. lia.
Qed.

(** Subtraction of a smaller positive double. *)
Lemma SFsub_val (mx my : positive) (ex ey : Z) :
  valid_binary (S754_finite false mx ex) = true ->
  valid_binary (S754_finite false my ey) = true ->
  sv my ey <= sv mx ex ->
  is_round (RoundV (sv mx ex - sv my ey) 1)
           (SFsub prec emax (S754_finite false mx ex) (S754_finite false my ey)).
Proof.
  intros Hx Hy Hle.
  destruct (valid_finite _ _ _ Hx) as (Hex & _ & _).
  destruct (valid_finite _ _ _ Hy) as (Hey & _ & _).
  unfold SFsub. change IntDef.Z.min with Z.min. unfold cond_Zopp.
  rewrite !shl_align_mantissa.
  set (ez := Z.min ex ey).
  replace (Z.min ex ez) with ez by lia. replace (Z.min ey ez) with ez by lia.
  assert (Hez : emin64 <= ez) by lia.
  pose proof (pow2_pos (ez - emin64) ltac:(lia)) as Hp.
  assert (Hval : (Zpos mx * 2 ^ (ex - ez) - Zpos my * 2 ^ (ey - ez))
                 * 2 ^ (ez - emin64) = sv mx ex - sv my ey).
  { rewrite Z.mul_sub_distr_r, !sv_aligned by lia. reflexivity. }
  rewrite <- Hval. apply binary_normalize_val; [nia|exact Hez].
Qed.

(** Addition. *)
Lemma SFadd_val (x y : spec_float) (X Y : Z) :
  NF x X -> NF y Y -> is_round (RoundV (X + Y) 1) (SFadd prec emax x y).
Proof.
  intros Hx Hy. destruct Hx as [|mx ex Hx]; destruct Hy as [|my ey Hy].
  - cbn [SFadd Bool.eqb]. change (0 + 0) with 0.
    rewrite RoundV_zero by lia. constructor. reflexivity.
  - cbn [SFadd]. rewrite Z.add_0_l.
    destruct (valid_finite _ _ _ Hy) as (Hey & Hmy & _).
    unfold sv. rewrite RoundV_exact by lia.
    constructor; [exact Hey|reflexivity].
  - cbn [SFadd]. rewrite Z.add_0_r.
    destruct (valid_finite _ _ _ Hx) as (Hex & Hmx & _).
    unfold sv. rewrite RoundV_exact by lia.
    constructor; [exact Hex|reflexivity].
  - destruct (valid_finite _ _ _ Hx) as (Hex & _ & _).
    destruct (valid_finite _ _ _ Hy) as (Hey & _ & _).
    unfold SFadd. change IntDef.Z.min with Z.min. unfold cond_Zopp.
    rewrite !shl_align_mantissa.
    set (ez := Z.min ex ey).
    replace (Z.min ex ez) with ez by lia.
    replace (Z.min ey ez) with ez by lia.
    assert (Hez : emin64 <= ez) by lia.
    assert (Hval : (Zpos mx * 2 ^ (ex - ez) + Zpos my * 2 ^ (ey - ez))
                   * 2 ^ (ez - emin64) = sv mx ex + sv my ey).
    { rewrite Z.mul_add_distr_r, !sv_aligned by lia. reflexivity. }
    rewrite <- Hval. apply binary_normalize_val; [|exact Hez].
    pose proof (pow2_pos (ex - ez) ltac:(lia)).
    pose proof (pow2_pos (ey - ez) ltac:(lia)). nia.
Qed.

(** Multiplication. *)
Lemma SFmul_val (x y : spec_float) (X Y : Z) :
  NF x X -> NF y Y ->
  is_round (RoundV (X * Y) (2 ^ (- emin64))) (SFmul prec emax x y).
Proof.
  intros Hx Hy.
  assert (Hunit : 0 < 2 ^ (- emin64)) by (apply pow2_pos; discriminate).
  destruct Hx as [|mx ex Hx]; destruct Hy as [|my ey Hy]; cbn [SFmul xorb].
  - rewrite Z.mul_0_l, RoundV_zero by lia. constructor. reflexivity.
  - rewrite Z.mul_0_l, RoundV_zero by lia. constructor. reflexivity.
  - rewrite Z.mul_0_r, RoundV_zero by lia. constructor. reflexivity.
  - destruct (valid_finite _ _ _ Hx) as (Hex & Hmx & Hnx).
    destruct (valid_finite _ _ _ Hy) as (Hey & Hmy & Hny).
    assert (Hemin : emin64 = -1074) by reflexivity.
    assert (HS0 : - S0 <= ex + ey) by (unfold S0; lia).
    pose proof (binary_round_aux_spec (Zpos (mx * my)) (ex + ey) loc_Exact
                  (Zpos (mx * my)) 1 (Pos2Z.pos_is_pos _)
                  (Rep_exact _ (Pos2Z.pos_is_nonneg _)) HS0) as Hspec.
    assert (Hpre : ex + ey
                   <= fexp prec emax (Zdigits2 (Zpos (mx * my)) + (ex + ey))).
    { unfold fexp. change (SpecFloat.emin prec emax) with emin64.
      change prec with 53. change IntDef.Z.max with Z.max.
      destruct (Z_le_gt_dec ex emin64) as [Hsx|Hgx];
        [destruct (Z_le_gt_dec ey emin64) as [Hsy|Hgy]|].
      - lia.
      - assert (53 <= Zdigits2 (Zpos (mx * my))); [|lia].
        change 53 with (Zdigits2 (2 ^ 52)).
        apply Zdigits2_monotone. split; [discriminate|].
        specialize (Hny ltac:(lia)). rewrite Pos2Z.inj_mul. nia.
      - assert (53 <= Zdigits2 (Zpos (mx * my))); [|lia].
        change 53 with (Zdigits2 (2 ^ 52)).
        apply Zdigits2_monotone. split; [discriminate|].
        specialize (Hnx ltac:(lia)). rewrite Pos2Z.inj_mul. nia. }
    specialize (Hspec Hpre).
    pose proof (sv_positive mx ex Hex). pose proof (sv_positive my ey Hey).
    rewrite (RoundV_ratio _ _ (sv mx ex * sv my ey) (2 ^ (- emin64)))
      in Hspec; [exact Hspec| | | | |].
    + apply Z.mul_nonneg_nonneg; [lia|]. apply Z.pow_nonneg. lia.
    + rewrite Z.mul_1_l. apply pow2_pos. unfold S0. lia.
    + nia.
    + exact Hunit.
    + unfold sv. rewrite Pos2Z.inj_mul. unfold S0. rewrite Hemin.
      replace (Zpos mx * Zpos my * 2 ^ (ex + ey + 2200) * 2 ^ (- -1074))
        with (Zpos mx * Zpos my * (2 ^ (ex + ey + 2200) * 2 ^ (- -1074)))
        by ring.
      replace (Zpos mx * 2 ^ (ex - -1074) * (Zpos my * 2 ^ (ey - -1074))
               * (1 * 2 ^ (2200 + -1074)))
        with (Zpos mx * Zpos my
              * (2 ^ (ex - -1074) * 2 ^ (ey - -1074) * 2 ^ (2200 + -1074)))
        by ring.
      f_equal. rewrite <- !pow2_add by lia. f_equal. lia.
Qed.

(** The location [SFdiv] computes is the position of the remainder. *)
Lemma new_location_Rep (num den : Z) :
  0 <= num -> 0 < den ->
  Rep num den (shr_record_of_loc (num / den) (new_location den (num mod den))).
Proof.
  intros Hn Hd. unfold Rep. rewrite shr_m_of_loc.
  split; [exact Hn|]. split; [exact Hd|]. split; [reflexivity|].
  pose proof (Z.mod_pos_bound num den Hd) as Hb.
  set (rem := num mod den) in *.
  unfold new_location, loc_class. cbn [fst snd].
  destruct (Z.even den) eqn:Hev.
  - unfold new_location_even.
    destruct (Z.eqb_spec rem 0) as [H0|H0].
    + rewrite H0. cbn [shr_record_of_loc shr_r shr_s].
      destruct (Z.leb_spec den (2 * 0)); [lia|]. split; reflexivity.
    + destruct (Z.compare_spec (2 * rem) den) as [He|Hl|Hg];
        cbn [shr_record_of_loc shr_r shr_s];
        destruct (Z.leb_spec den (2 * rem)); try lia;
        destruct (Z.eqb_spec (2 * rem) den); try lia; split; reflexivity.
  - assert (Hodd : 2 * rem <> den).
    { intros He. rewrite <- He, Z.even_mul in Hev. discriminate. }
    unfold new_location_odd.
    destruct (Z.eqb_spec rem 0) as [H0|H0].
    + rewrite H0. cbn [shr_record_of_loc shr_r shr_s].
      destruct (Z.leb_spec den (2 * 0)); [lia|]. split; reflexivity.
    + destruct (Z.compare_spec (2 * rem + 1) den) as [He|Hl|Hg];
        cbn [shr_record_of_loc shr_r shr_s];
        destruct (Z.leb_spec den (2 * rem)); try lia;
        destruct (Z.eqb_spec (2 * rem) den); try lia; split; reflexivity.
Qed.

Lemma div_eucl_div_mod (a b : Z) : Z.div_eucl a b = (a / b, a mod b).
Proof.
  unfold Z.div, Z.modulo. destruct (Z.div_eucl a b). reflexivity.
Qed.

Lemma SFdiv_core_val (m1 m2 : positive) (e1 e2 : Z) :
  emin64 <= e1 -> Zpos m1 < 2 ^ 53 -> Zpos m2 < 2 ^ 53 -> e2 <= -53 ->
  exists (q e' s : Z) (l : location),
    SFdiv_core_binary prec emax (Zpos m1) e1 (Zpos m2) e2 = (q, e', l) /\
    0 < q /\ emin64 <= e' /\ 0 <= s /\ e' = e1 - e2 - s /\
    e' <= fexp prec emax (Zdigits2 q + e') /\
    Rep (Zpos m1 * 2 ^ s) (Zpos m2) (shr_record_of_loc q l).
Proof.
  intros He1 Hm1 Hm2 He2. unfold SFdiv_core_binary.
  change IntDef.Z.min with Z.min. simpl Zdigits2.
  set (d1 := Zpos (digits2_pos m1)). set (d2 := Zpos (digits2_pos m2)).
  set (e' := Z.min (fexp prec emax (d1 + e1 - (d2 + e2))) (e1 - e2)).
  assert (Hd1 : 2 ^ (d1 - 1) <= Zpos m1) by apply digits2_pos_lower.
  assert (Hd2 : Zpos m2 < 2 ^ d2) by apply digits2_pos_upper.
  assert (Hd1pos : 0 < d1) by (unfold d1; lia).
  assert (Hd2pos : 0 < d2) by (unfold d2; lia).
  assert (Hd1max : d1 <= 53).
  { assert (d1 - 1 < 53); [|lia].
    apply (Z.pow_lt_mono_r_iff 2); lia. }
  assert (Hemin : emin64 = -1074) by reflexivity.
  assert (He' : emin64 <= e').
  { unfold e', fexp. change (SpecFloat.emin prec emax) with emin64.
    change IntDef.Z.max with Z.max. lia. }
  assert (Hcase : e' <= d1 + e1 - (d2 + e2) - 53 \/ e' <= emin64).
  { unfold e', fexp. change (SpecFloat.emin prec emax) with emin64.
    change prec with 53. change IntDef.Z.max with Z.max. lia. }
  assert (Hs : 0 < e1 - e2 - e').
  { destruct Hcase; lia. }
  assert (Hbig : (e' <= emin64 -> Zpos m2 <= Zpos m1 * 2 ^ (e1 - e2 - e')) /\
                 (emin64 < e' ->
                  2 ^ 52 * Zpos m2 <= Zpos m1 * 2 ^ (e1 - e2 - e'))).
  { split; intros Hc.
    - apply Z.le_trans with (1 * 2 ^ (e1 - e2 - e')).
      + rewrite Z.mul_1_l. apply Z.le_trans with (2 ^ 53); [lia|].
        apply Z.pow_le_mono_r; lia.
      + apply Z.mul_le_mono_nonneg_r; [|lia].
        apply Z.pow_nonneg. lia.
    - assert (Ha : e' <= d1 + e1 - (d2 + e2) - 53) by lia.
      apply Z.le_trans with (2 ^ 52 * 2 ^ d2).
      + apply Z.mul_le_mono_nonneg_l; lia.
      + apply Z.le_trans with (2 ^ (d1 - 1) * 2 ^ (e1 - e2 - e')).
        * rewrite <- !pow2_add by lia. apply Z.pow_le_mono_r; lia.
        * apply Z.mul_le_mono_nonneg_r; [|exact Hd1].
          apply Z.pow_nonneg. lia. }
  destruct Hbig as [Hsub Hnorm].
  destruct (e1 - e2 - e') as [|s|s] eqn:Es; try lia.
  rewrite Z.shiftl_mul_pow2 by lia.
  rewrite div_eucl_div_mod.
  set (num := Zpos m1 * 2 ^ Zpos s) in *.
  pose proof (pow2_pos (Zpos s) ltac:(lia)) as Hps.
  assert (Hnum : 0 <= num) by (unfold num; nia).
  exists (num / Zpos m2), e', (Zpos s), (new_location (Zpos m2) (num mod Zpos m2)).
  split; [reflexivity|].
  assert (Hq : 0 < num / Zpos m2).
  { apply Z.div_str_pos. split; [lia|].
    destruct (Z_le_gt_dec e' emin64); [apply Hsub; lia|].
    specialize (Hnorm ltac:(lia)). nia. }
  split; [exact Hq|]. split; [exact He'|]. split; [lia|]. split; [lia|].
  split.
  - unfold fexp. change (SpecFloat.emin prec emax) with emin64.
    change prec with 53. change IntDef.Z.max with Z.max.
    destruct (Z_le_gt_dec e' emin64) as [Hc|Hc]; [lia|].
    assert (53 <= Zdigits2 (num / Zpos m2)); [|lia].
    change 53 with (Zdigits2 (2 ^ 52)).
    apply Zdigits2_monotone. split; [discriminate|].
    apply Z.div_le_lower_bound; [lia|].
    rewrite Z.mul_comm. apply Hnorm. lia.
  - apply new_location_Rep; lia.
Qed.

(** Division by a positive double below one. *)
Lemma SFdiv_val (x : spec_float) (X : Z) (md : positive) (ed : Z) :
  NF x X ->
  valid_binary (S754_finite false md ed) = true -> ed <= -53 ->
  is_round (RoundV (X * 2 ^ (- emin64)) (sv md ed))
           (SFdiv prec emax x (S754_finite false md ed)).
Proof.
  intros Hx Hd Hed.
  destruct (valid_finite _ _ _ Hd) as (Hemd & Hmd & _).
  pose proof (sv_positive md ed Hemd) as Hsvd.
  destruct Hx as [|mx ex Hx]; cbn [SFdiv xorb].
  - rewrite Z.mul_0_l, RoundV_zero by lia. constructor. reflexivity.
  - destruct (valid_finite _ _ _ Hx) as (Hex & Hmx & _).
    destruct (SFdiv_core_val mx md ex ed Hex Hmx Hmd Hed)
      as (q & e' & s & l & Heq & Hq & He' & Hs & Hes & Hpre & HR).
    rewrite Heq.
    assert (Hemin : emin64 = -1074) by reflexivity.
    assert (HS0 : - S0 <= e') by (unfold S0; lia).
    pose proof (binary_round_aux_spec q e' l _ _ Hq HR HS0 Hpre) as Hspec.
    pose proof (sv_positive mx ex Hex).
    pose proof (pow2_pos s Hs).
    pose proof (pow2_pos (e' + S0) ltac:(unfold S0; lia)).
    pose proof (pow2_pos (S0 + emin64) ltac:(unfold S0; lia)).
    pose proof (pow2_pos (- emin64) ltac:(lia)).
    rewrite (RoundV_ratio _ _ (sv mx ex * 2 ^ (- emin64)) (sv md ed))
      in Hspec; [exact Hspec| | | | |]; try nia.
    unfold sv. unfold S0 in *. rewrite Hemin in *.
    replace (Zpos mx * 2 ^ s * 2 ^ (e' + 2200) * (Zpos md * 2 ^ (ed - -1074)))
      with (Zpos mx * Zpos md
            * (2 ^ s * 2 ^ (e' + 2200) * 2 ^ (ed - -1074))) by ring.
    replace (Zpos mx * 2 ^ (ex - -1074) * 2 ^ (- -1074)
             * (Zpos md * 2 ^ (2200 + -1074)))
      with (Zpos mx * Zpos md
            * (2 ^ (ex - -1074) * 2 ^ (- -1074) * 2 ^ (2200 + -1074)))
      by ring.
    f_equal. rewrite <- !pow2_add by lia. f_equal. lia.
Qed.

(** *** Doubles *)

Lemma positive_finite_Val (c : float) :
  positive_finite c = true -> exists V : Z, 0 < V /\ Val c V.
Proof.
  unfold positive_finite, Val. intros H. pose proof (Prim2SF_valid c) as Hv.
  destruct (Prim2SF c) as [s|s| |s m e]; try discriminate.
  destruct s; try discriminate.
  exists (sv m e). split.
  - apply sv_positive. apply (valid_finite _ _ _ Hv).
  - constructor. exact Hv.
Qed.

Lemma finite_not_negative_Val (c : float) :
  finite_not_negative c = true -> exists V : Z, Val c V.
Proof.
  unfold finite_not_negative, Val. intros H.
  pose proof (Prim2SF_valid c) as Hv.
  destruct (Prim2SF c) as [s|s| |s m e]; try discriminate;
    destruct s; try discriminate.
  - exists 0. constructor.
  - exists (sv m e). constructor. exact Hv.
Qed.

Lemma Val_leb (x y : float) (X Y : Z) :
  Val x X -> Val y Y -> (x <=? y)%float = (X <=? Y).
Proof.
  intros Hx Hy. rewrite FloatAxioms.leb_spec. apply NF_leb; assumption.
Qed.

Lemma Rnd_Val (x : float) (V : Z) : Rnd x V -> V < OVF -> Val x V.
Proof.
  intros H Hlt. apply is_round_NF; [exact H| |exact Hlt].
  apply Prim2SF_valid.
Qed.

Lemma Rnd_leb (x y : float) (X Y : Z) :
  Rnd x X -> Rnd y Y -> X <= Y -> (x <=? y)%float = true.
Proof.
  intros Hx Hy Hle. rewrite FloatAxioms.leb_spec.
  apply (is_round_leb X Y); try assumption; apply Prim2SF_valid.
Qed.

Lemma Val_exact (x : float) (V : Z) : Val x V -> RoundV V 1 = V.
Proof.
  unfold Val. intros H. destruct H as [|m e Hv].
  - apply RoundV_zero. lia.
  - destruct (valid_finite _ _ _ Hv) as (He & Hm & _).
    unfold sv. apply RoundV_exact; lia.
Qed.

Lemma Val_bounds (x : float) (V : Z) : Val x V -> 0 <= V < OVF.
Proof. apply NF_bounds. Qed.

Lemma SFsub_NF (x y : spec_float) (X Y : Z) :
  NF x X -> NF y Y -> Y <= X ->
  is_round (RoundV (X - Y) 1) (SFsub prec emax x y).
Proof.
  intros Hx Hy Hle. destruct Hy as [|my ey Hy].
  - rewrite Z.sub_0_r. destruct Hx as [|mx ex Hx].
    + cbn [SFsub Bool.eqb negb]. rewrite RoundV_zero by lia.
      constructor. reflexivity.
    + cbn [SFsub]. destruct (valid_finite _ _ _ Hx) as (Hex & Hmx & _).
      unfold sv. rewrite RoundV_exact by lia.
      constructor; [exact Hex|reflexivity].
  - pose proof (sv_positive my ey (proj1 (valid_finite _ _ _ Hy))) as Hpos.
    destruct Hx as [|mx ex Hx]; [lia|].
    apply SFsub_val; assumption.
Qed.

Lemma fsub_round (x y : float) (X Y : Z) :
  Val x X -> Val y Y -> Y <= X -> Rnd (x - y) (RoundV (X - Y) 1).
Proof.
  intros Hx Hy Hle. unfold Rnd. rewrite FloatAxioms.sub_spec.
  apply SFsub_NF; assumption.
Qed.

Lemma fadd_round (x y : float) (X Y : Z) :
  Val x X -> Val y Y -> Rnd (x + y) (RoundV (X + Y) 1).
Proof.
  intros Hx Hy. unfold Rnd. rewrite FloatAxioms.add_spec.
  apply SFadd_val; assumption.
Qed.

Lemma fmul_round (x y : float) (X Y : Z) :
  Val x X -> Val y Y -> Rnd (x * y) (RoundV (X * Y) (2 ^ (- emin64))).
Proof.
  intros Hx Hy. unfold Rnd. rewrite FloatAxioms.mul_spec.
  apply SFmul_val; assumption.
Qed.

Lemma fdiv_round (x d : float) (X D : Z) :
  Val x X -> Val d D -> positive_below_one d = true ->
  Rnd (x / d) (RoundV (X * 2 ^ (- emin64)) D).
Proof.
  intros Hx Hd Hb. unfold Rnd, Val, positive_below_one in *.
  rewrite FloatAxioms.div_spec.
  destruct (Prim2SF d) as [s|s| |s md ed]; try discriminate.
  destruct s; try discriminate. apply Z.leb_le in Hb.
  inversion Hd; subst. apply SFdiv_val; assumption.
Qed.

(** Within one bin the interpolated value follows the request. *)
Lemma bin64_monotone (el eh cl ch r1 r2 : float) :
  positive_finite el = true -> positive_finite eh = true ->
  positive_below_one (eh - el) = true ->
  finite_not_negative cl = true -> finite_not_negative ch = true ->
  (cl <=? ch)%float = true ->
  (el <=? r1)%float = true -> (r1 <=? r2)%float = true ->
  (r2 <=? eh)%float = true ->
  (bin64 el eh cl ch r1 <=? bin64 el eh cl ch r2)%float = true.
Proof.
  intros Hel Heh Hd Hcl Hch Hc H1 H12 H2.
  destruct (positive_finite_Val el Hel) as (XL & HXL & VL).
  destruct (positive_finite_Val eh Heh) as (XH & HXH & VH).
  destruct (finite_not_negative_Val cl Hcl) as (CL & VCL).
  destruct (finite_not_negative_Val ch Hch) as (CH & VCH).
  pose proof (Val_bounds _ _ VCL) as BCL.
  assert (Hfin : forall r, (el <=? r)%float = true ->
                   (r <=? eh)%float = true -> positive_finite r = true).
  { intros r Ha Hb. rewrite FloatAxioms.leb_spec in Ha, Hb.
    unfold positive_finite in *.
    destruct (Prim2SF el) as [s|s| |s m e]; try discriminate.
    destruct s; try discriminate.
    destruct (Prim2SF eh) as [s|s| |s m' e']; try discriminate.
    destruct s; try discriminate.
    destruct (Prim2SF r) as [[|]|[|]| |[|] mr er]; try discriminate.
    reflexivity. }
  assert (Hr1 : positive_finite r1 = true).
  { apply Hfin; [exact H1|]. apply float_leb_trans with r2; assumption. }
  assert (Hr2 : positive_finite r2 = true).
  { apply Hfin; [|exact H2]. apply float_leb_trans with r1; assumption. }
  destruct (positive_finite_Val r1 Hr1) as (X1 & HX1 & V1).
  destruct (positive_finite_Val r2 Hr2) as (X2 & HX2 & V2).
  rewrite (Val_leb _ _ _ _ VL V1) in H1. apply Z.leb_le in H1.
  rewrite (Val_leb _ _ _ _ V1 V2) in H12. apply Z.leb_le in H12.
  rewrite (Val_leb _ _ _ _ V2 VH) in H2. apply Z.leb_le in H2.
  rewrite (Val_leb _ _ _ _ VCL VCH) in Hc. apply Z.leb_le in Hc.
  assert (Hunit : 0 < 2 ^ (- emin64)) by (apply pow2_pos; discriminate).
  (* the width of the bin *)
  pose proof (fsub_round eh el XH XL VH VL ltac:(lia)) as Rd.
  set (D := RoundV (XH - XL) 1) in *.
  assert (VD : Val (eh - el) D /\ 0 < D).
  { unfold Rnd in Rd. unfold Val. unfold positive_below_one in Hd.
    pose proof (Prim2SF_valid (eh - el)) as Hv.
    destruct (Prim2SF (eh - el)) as [s|s| |s md ed]; try discriminate.
    destruct s; try discriminate.
    inversion Rd as [|m e He Hs|]; subst. rewrite <- Hs. split.
    - constructor. exact Hv.
    - apply sv_positive. exact He. }
  destruct VD as [VD HD].
  pose proof (Val_bounds _ _ VD) as BD.
  (* the rise of the curve *)
  pose proof (fsub_round ch cl CH CL VCH VCL Hc) as Rg.
  set (G := RoundV (CH - CL) 1) in *.
  assert (HG : 0 <= G <= CH).
  { split.
    - rewrite <- (RoundV_zero 1) by lia.
      apply RoundV_monotone; lia.
    - rewrite <- (Val_exact _ _ VCH). apply RoundV_monotone; lia. }
  pose proof (Val_bounds _ _ VCH) as BCH.
  assert (VG : Val (ch - cl) G) by (apply Rnd_Val; [exact Rg|lia]).
  (* the chain for one request *)
  assert (Hchain : forall r X, Val r X -> XL <= X <= XH ->
            exists U F P : Z,
              U = RoundV (X - XL) 1 /\
              F = RoundV (U * 2 ^ (- emin64)) D /\
              P = RoundV (F * G) (2 ^ (- emin64)) /\
              0 <= U /\ 0 <= F /\ 0 <= P /\
              Val ((r - el) / (eh - el) * (ch - cl)) P).
  { intros r X VX HX.
    pose proof (fsub_round r el X XL VX VL ltac:(lia)) as Ru.
    set (U := RoundV (X - XL) 1) in *.
    assert (HU : 0 <= U <= D).
    { split.
      - rewrite <- (RoundV_zero 1) by lia. apply RoundV_monotone; lia.
      - apply RoundV_monotone; lia. }
    assert (VU : Val (r - el) U) by (apply Rnd_Val; [exact Ru|lia]).
    pose proof (fdiv_round _ _ _ _ VU VD Hd) as Rf.
    set (F := RoundV (U * 2 ^ (- emin64)) D) in *.
    assert (HF : 0 <= F <= 2 ^ (- emin64)).
    { split.
      - rewrite <- (RoundV_zero D) by lia. apply RoundV_monotone; nia.
      - apply Z.le_trans with (RoundV (1 * 2 ^ (- emin64)) 1).
        + apply RoundV_monotone; nia.
        + rewrite RoundV_exact; [lia|split; [lia|reflexivity]|discriminate]. }
    assert (VF : Val ((r - el) / (eh - el)) F).
    { apply Rnd_Val; [exact Rf|].
      apply Z.le_lt_trans with (2 ^ (- emin64)); [lia|].
      unfold OVF. apply Z.pow_lt_mono_r; [lia|discriminate|reflexivity]. }
    pose proof (fmul_round _ _ _ _ VF VG) as Rp.
    set (P := RoundV (F * G) (2 ^ (- emin64))) in *.
    assert (HP : 0 <= P <= G).
    { split.
      - rewrite <- (RoundV_zero (2 ^ (- emin64))) by lia.
        apply RoundV_monotone; nia.
      - apply Z.le_trans with (RoundV G 1).
        + apply RoundV_monotone; nia.
        + rewrite (Val_exact _ _ VG). lia. }
    exists U, F, P. repeat split; try lia.
    apply Rnd_Val; [exact Rp|lia]. }
  destruct (Hchain r1 X1 V1 ltac:(lia))
    as (U1 & F1 & P1 & EU1 & EF1 & EP1 & HU1 & HF1 & HP1 & VP1).
  destruct (Hchain r2 X2 V2 ltac:(lia))
    as (U2 & F2 & P2 & EU2 & EF2 & EP2 & HU2 & HF2 & HP2 & VP2).
  assert (HU : U1 <= U2) by (subst U1 U2; apply RoundV_numerator; lia).
  assert (HF : F1 <= F2).
  { subst F1 F2. apply RoundV_numerator; [|lia]. split; [nia|].
    apply Z.mul_le_mono_nonneg_r; lia. }
  assert (HP : P1 <= P2).
  { subst P1 P2. apply RoundV_numerator; [|lia]. split; [nia|].
    apply Z.mul_le_mono_nonneg_r; lia. }
  unfold bin64.
  apply (Rnd_leb _ _ (RoundV (CL + P1) 1) (RoundV (CL + P2) 1)).
  - apply fadd_round; assumption.
  - apply fadd_round; assumption.
  - apply RoundV_numerator; lia.
Qed.

End RoundingOrder.

(** ** The interpolation fraction in double precision *)

Section Binary64Lookups.

Lemma grid64_positive_finite (i : nat) :
  i <= 58 -> positive_finite (E64 i) = true.
Proof.
  intros Hi.
  assert (Hall : forallb (fun k => positive_finite (E64 k)) (seq 0 59) = true)
    by (vm_compute; reflexivity).
  rewrite forallb_forall in Hall. apply Hall. apply in_seq. lia.
Qed.

Lemma grid64_width_below_one (i : nat) :
  i <= 57 -> positive_below_one (E64 (i + 1) - E64 i) = true.
Proof.
  intros Hi.
  assert (Hall : forallb
            (fun k => positive_below_one (E64 (k + 1) - E64 k))
            (seq 0 58) = true) by (vm_compute; reflexivity).
  rewrite forallb_forall in Hall. apply Hall. apply in_seq. lia.
Qed.

Lemma efrac64 (r : float) :
  spec_efrac r energy =
  ((r - E64 (spec_ilow r energy)) /
   (E64 (spec_ilow r energy + 1) - E64 (spec_ilow r energy)))%float.
Proof. reflexivity. Qed.

(** For every double, [efrac < 0] holds exactly when the request is below
    [energy[0]].  (For NaN both tests are false.) *)
Lemma efrac64_negative (r : float) :
  (spec_efrac r energy <? 0)%float = (r <? E64 0)%float.
Proof.
  pose proof (spec_ilow_bound r energy) as Hb.
  rewrite efrac64.
  rewrite float_div_sign by (apply grid64_width_below_one; exact Hb).
  rewrite float_sub_sign by (apply grid64_positive_finite; lia).
  destruct (spec_ilow_test r energy) as [_ Hk].
  destruct (spec_ilow r energy) as [|k]; [reflexivity|].
  specialize (Hk k (Nat.lt_succ_diag_r k)).
  change (fleb r (nth (k + 1) energy (lit 0)))
    with (r <=? E64 (k + 1))%float in Hk.
  replace (k + 1) with (S k) in Hk by lia.
  assert (H1 : (r <? E64 (S k))%float = false).
  { destruct (r <? E64 (S k))%float eqn:Hlt; [|reflexivity].
    rewrite (float_ltb_leb _ _ Hlt) in Hk. discriminate. }
  assert (H0 : (r <? E64 0)%float = false).
  { destruct (r <? E64 0)%float eqn:Hlt; [|reflexivity].
    rewrite (float_leb_trans r (E64 0) (E64 (S k))) in Hk.
    - discriminate.
    - apply float_ltb_leb. exact Hlt.
    - apply grid64_monotone. lia. }
  rewrite H1, H0. reflexivity.
Qed.

End Binary64Lookups.

(** ** Below the table *)

(** C5, counterexample: at energy 0, below [energy[0]], the scan finds
    index 0 at its first test and the carbon elastic lookup computes
    [efrac = -1]. *)
Lemma efrac_negative_at_zero_energy :
  elastic_locals (F := float) (lit 0.0) 0 energy
    = Ok (mkLocals 0 (-1)%float 0%float) /\
  ((-1) <? 0)%float = true.
Proof. split; vm_compute; reflexivity. Qed.

(** C5, amended: in double precision, for every requested energy and
    every selector, [efrac] is negative exactly when the energy is below
    [energy[0]] = 0.0005 GeV, and in that case the scan finds [ilow = 0],
    at its first test and not by the default 57; at or above [energy[0]]
    (and for NaN) [efrac] is never negative.  The inelastic lookup always
    returns, the elastic one for every selector but 3. *)
Theorem efrac_negative_exactly_below_table (r : float) (s : Z) :
  (exists l : locals,
     inelastic_locals r s energy = Ok l /\
     (efrac l <? 0)%float = (r <? lit 0.0005)%float /\
     ((r <? lit 0.0005)%float = true -> ilow l = 0)) /\
  (forall l : locals,
     elastic_locals r s energy = Ok l ->
     (efrac l <? 0)%float = (r <? lit 0.0005)%float /\
     ((r <? lit 0.0005)%float = true -> ilow l = 0)) /\
  (s <> 3%Z -> exists l : locals, elastic_locals r s energy = Ok l).
Proof.
  assert (Hfirst : (r <? lit 0.0005)%float = true ->
                   spec_ilow r energy = 0).
  { intros Hr. apply spec_ilow_first.
    apply (float_leb_trans r (E64 0) (E64 1)).
    - apply float_ltb_leb. exact Hr.
    - apply grid64_monotone. lia. }
  destruct (lookups_in_range float binary64 r s) as [He (li & Hi & _)].
  split; [|split].
  - exists li. split; [exact Hi|].
    destruct (locals_of_lookup r _ li Hi) as (-> & -> & _).
    split; [apply efrac64_negative|exact Hfirst].
  - intros l Hl.
    destruct (locals_of_lookup r _ l Hl) as (-> & -> & _).
    split; [apply efrac64_negative|exact Hfirst].
  - intros Hs. destruct (He Hs) as (l & Hl & _). exists l. exact Hl.
Qed.

(** The same in exact arithmetic. *)
Lemma real_efrac_sign_below_table (r : real) (s : Z) :
  (exists l : locals,
     inelastic_locals r s energy = Ok l /\
     (efrac l < 0 <-> r < lit 0.0005)%R /\
     ((r < lit 0.0005)%R -> ilow l = 0)) /\
  (forall l : locals,
     elastic_locals r s energy = Ok l ->
     (efrac l < 0 <-> r < lit 0.0005)%R /\
     ((r < lit 0.0005)%R -> ilow l = 0)).
Proof.
  assert (Hfirst : (r < lit 0.0005)%R -> spec_ilow r energy = 0).
  { intros Hr. apply ilow_below.
    assert (H01 : (E 0 < E 1)%R) by (apply grid_increasing; lia).
    assert (Hr0 : (r < E 0)%R) by exact Hr. lra. }
  destruct (lookups_in_range real exact r s) as [_ (li & Hi & _)].
  split.
  - exists li. split; [exact Hi|].
    destruct (locals_of_lookup r _ li Hi) as (-> & -> & _).
    split; [apply efrac_negative_iff|exact Hfirst].
  - intros l Hl.
    destruct (locals_of_lookup r _ l Hl) as (-> & -> & _).
    split; [apply efrac_negative_iff|exact Hfirst].
Qed.

(** C10: in double precision, for every requested energy strictly below
    [energy[0]] = 0.0005 GeV (zero, the negative numbers and minus infinity
    included) and every selector, both lookups return; the scan selects
    [ilow = 0], the fraction [(r - energy[0]) / (energy[1] - energy[0])] is
    strictly negative, and the value is
    [curve[0] + efrac * (curve[1] - curve[0])]. *)
Theorem below_table_extrapolates (r : float) (s : Z) :
  (r <? lit 0.0005)%float = true ->
  let f := ((r - lit 0.0005) / (lit 0.001 - lit 0.0005))%float in
  let ec := select_ecross s in
  let ic := select_icross s in
  (f <? 0)%float = true /\
  elastic_locals r s energy =
    Ok (mkLocals 0 f
          (nth 0 ec (lit 0) + f * (nth 1 ec (lit 0) - nth 0 ec (lit 0)))%float)
  /\
  inelastic_locals r s energy =
    Ok (mkLocals 0 f
          (nth 0 ic (lit 0) + f * (nth 1 ic (lit 0) - nth 0 ic (lit 0)))%float)
  /\
  get_elastic_crosssection r s energy =
    Ok (nth 0 ec (lit 0) + f * (nth 1 ec (lit 0) - nth 0 ec (lit 0)))%float
  /\
  get_inelastic_crosssection r s energy =
    Ok (nth 0 ic (lit 0) + f * (nth 1 ic (lit 0) - nth 0 ic (lit 0)))%float.
Proof.
  intros Hr f ec ic.
  assert (Hr1 : fleb r (nth 1 energy (lit 0)) = true).
  { apply (float_leb_trans r (E64 0) (E64 1)).
    - apply float_ltb_leb. exact Hr.
    - apply grid64_monotone. lia. }
  assert (Hf : (f <? 0)%float = true).
  { pose proof (efrac64_negative r) as Hneg.
    unfold spec_efrac in Hneg. rewrite (spec_ilow_first r Hr1) in Hneg.
    change (r <? E64 0)%float with (r <? lit 0.0005)%float in Hneg.
    rewrite Hr in Hneg. exact Hneg. }
  assert (Hel : elastic_locals r s energy =
    Ok (mkLocals 0 f
          (nth 0 ec (lit 0) + f * (nth 1 ec (lit 0) - nth 0 ec (lit 0)))%float)).
  { assert (Hlen : 2 <= length (select_ecross (F := float) s)).
    { pose proof (select_ecross_length_ge (F := float) s). lia. }
    exact (first_bin_locals r (select_ecross s) Hr1 Hlen). }
  assert (Hil : inelastic_locals r s energy =
    Ok (mkLocals 0 f
          (nth 0 ic (lit 0) + f * (nth 1 ic (lit 0) - nth 0 ic (lit 0)))%float)).
  { assert (Hlen : 2 <= length (select_icross (F := float) s)).
    { rewrite (select_icross_length s). lia. }
    exact (first_bin_locals r (select_icross s) Hr1 Hlen). }
  repeat split; try assumption.
  - unfold get_elastic_crosssection. rewrite Hel. reflexivity.
  - unfold get_inelastic_crosssection. rewrite Hil. reflexivity.
Qed.

Lemma below_table_extrapolates_witness :
  (lit 0.0 <? lit 0.0005)%float = true /\
  let f := ((lit 0.0 - lit 0.0005) / (lit 0.001 - lit 0.0005))%float in
  let ec := select_ecross 3 in
  let ic := select_icross 3 in
  (f <? 0)%float = true /\
  elastic_locals (lit 0.0) 3 energy =
    Ok (mkLocals 0 f
          (nth 0 ec (lit 0) + f * (nth 1 ec (lit 0) - nth 0 ec (lit 0)))%float)
  /\
  inelastic_locals (lit 0.0) 3 energy =
    Ok (mkLocals 0 f
          (nth 0 ic (lit 0) + f * (nth 1 ic (lit 0) - nth 0 ic (lit 0)))%float)
  /\
  get_elastic_crosssection (lit 0.0) 3 energy =
    Ok (nth 0 ec (lit 0) + f * (nth 1 ec (lit 0) - nth 0 ec (lit 0)))%float
  /\
  get_inelastic_crosssection (lit 0.0) 3 energy =
    Ok (nth 0 ic (lit 0) + f * (nth 1 ic (lit 0) - nth 0 ic (lit 0)))%float.
Proof.
  split; [reflexivity | apply (below_table_extrapolates (lit 0.0) 3)].
  reflexivity.
Defined.

(** The same in exact arithmetic. *)
Lemma real_extrapolation_under_table (r : real) (s : Z) :
  (r < lit 0.0005)%R ->
  let f := ((r - lit 0.0005) / (lit 0.001 - lit 0.0005))%R in
  let ec := select_ecross s in
  let ic := select_icross s in
  (f < 0)%R /\
  elastic_locals r s energy =
    Ok (mkLocals 0 f
          (nth 0 ec (lit 0) + f * (nth 1 ec (lit 0) - nth 0 ec (lit 0)))%R)
  /\
  inelastic_locals r s energy =
    Ok (mkLocals 0 f
          (nth 0 ic (lit 0) + f * (nth 1 ic (lit 0) - nth 0 ic (lit 0)))%R).
Proof.
  intros Hr f ec ic.
  assert (H01 : (E 0 < E 1)%R) by (apply grid_increasing; lia).
  assert (Hr0 : (r < E 0)%R) by exact Hr.
  assert (Hr1 : fleb r (nth 1 energy (lit 0)) = true).
  { apply Rleb_true. change (nth 1 energy (lit 0)) with (E 1). lra. }
  repeat split.
  - pose proof (proj2 (efrac_negative_iff r) Hr0) as Hneg.
    unfold spec_efrac in Hneg. rewrite (spec_ilow_first r Hr1) in Hneg.
    exact Hneg.
  - assert (Hlen : (2 <= length (select_ecross (F := real) s))%nat).
    { pose proof (select_ecross_length_ge (F := real) s). lia. }
    exact (first_bin_locals r (select_ecross s) Hr1 Hlen).
  - assert (Hlen : (2 <= length (select_icross (F := real) s))%nat).
    { rewrite (select_icross_length s). lia. }
    exact (first_bin_locals r (select_icross s) Hr1 Hlen).
Qed.

(** ** At the tabulated energies *)

(** C4, counterexample: 0.006 GeV is [energy[11]]; the carbon elastic
    lookup there selects [ilow = 10] and computes [efrac = 1], not [0].
    And the platinum elastic lookup at [energy[18]] = 0.011 GeV does not
    return the tabulated 0.053. *)
Lemma efrac_is_one_at_tabulated_energy :
  elastic_locals (F := float) (lit 0.006) 0 energy
    = Ok (mkLocals 10 1%float (lit 0.395)) /\
  (1 =? 0)%float = false /\
  nth 18 (select_ecross (F := float) 6) (lit 0) = lit 0.053 /\
  get_elastic_crosssection (F := float) (lit 0.011) 6 energy
    = Ok (next_down (lit 0.053)) /\
  (next_down (lit 0.053) =? lit 0.053)%float = false.
Proof. repeat split; vm_compute; reflexivity. Qed.

Lemma locals_eqb_eq (l : locals) (i : nat) (f v : float) :
  locals_eqb l i f v = true ->
  ilow l = i /\ efrac l = f /\ cross_section l = v.
Proof.
  unfold locals_eqb. intros H.
  apply andb_true_iff in H. destruct H as [H Hv].
  apply andb_true_iff in H. destruct H as [Hi Hf].
  apply Nat.eqb_eq in Hi.
  apply FloatAxioms.Leibniz.eqb_spec in Hf.
  apply FloatAxioms.Leibniz.eqb_spec in Hv.
  auto.
Qed.

Lemma grid_points_checked (k j : nat) :
  k <= 7 -> j <= 58 -> grid_point_check k j = true.
Proof.
  intros Hk Hj.
  assert (Hall : forallb (fun k => forallb (grid_point_check k) (seq 0 59))
                         (seq 0 8) = true) by (vm_compute; reflexivity).
  rewrite forallb_forall in Hall.
  assert (Hink : In k (seq 0 8)) by (apply in_seq; lia).
  specialize (Hall k Hink). rewrite forallb_forall in Hall.
  apply Hall. apply in_seq. lia.
Qed.

Lemma grid_point_inelastic (s : Z) (j : nat) :
  (0 <= s <= 7)%Z -> j <= 58 ->
  at_grid_point (inelastic_locals (E64 j) s energy) j
    (nth j (select_icross s) (lit 0)).
Proof.
  intros Hs Hj.
  pose proof (grid_points_checked (Z.to_nat s) j ltac:(lia) Hj) as Hc.
  unfold grid_point_check in Hc. rewrite Z2Nat.id in Hc by lia.
  apply andb_true_iff in Hc. destruct Hc as [Hi _].
  destruct (inelastic_locals (E64 j) s energy) as [l|e]; [|discriminate].
  apply locals_eqb_eq in Hi. destruct Hi as (H1 & H2 & H3).
  exists l. auto.
Qed.

Lemma grid_point_elastic (s : Z) (j : nat) :
  (0 <= s <= 7)%Z -> j <= 58 -> ~ (s = 3%Z /\ j = 58) ->
  at_grid_point (elastic_locals (E64 j) s energy) j
    (elastic_grid_value (Z.to_nat s) j).
Proof.
  intros Hs Hj Hne.
  pose proof (grid_points_checked (Z.to_nat s) j ltac:(lia) Hj) as Hc.
  unfold grid_point_check in Hc. rewrite Z2Nat.id in Hc by lia.
  apply andb_true_iff in Hc. destruct Hc as [_ He].
  apply orb_true_iff in He. destruct He as [He|He].
  - apply andb_true_iff in He. destruct He as [H3 H58].
    apply Nat.eqb_eq in H3. apply Nat.eqb_eq in H58.
    exfalso. apply Hne. split; lia.
  - destruct (elastic_locals (E64 j) s energy) as [l|e]; [|discriminate].
    apply locals_eqb_eq in He. destruct He as (H1 & H2 & H3).
    exists l. auto.
Qed.

(** C4, amended: in double precision, for every selector in [[0, 7]] and
    every [j] in [0..58], the lookup at [energy[j]] selects bin [j - 1]
    with [efrac = 1] (bin 0 with [efrac = 0] for [j = 0]) and returns
    exactly [curve[j]], with one exception: the platinum elastic lookup
    at [energy[18]] returns the double just below the tabulated 0.053.
    (The elastic lookup of selector 3 at [j = 58] is left out.)  So 0.0005
    GeV returns [curve[0]] and the carbon elastic lookup at 0.006 GeV
    returns 0.395. *)
Theorem lookup_at_tabulated_energy (s : Z) (j : nat) :
  (0 <= s <= 7)%Z -> j <= 58 ->
  at_grid_point (inelastic_locals (E64 j) s energy) j
    (nth j (select_icross s) (lit 0)) /\
  (~ (s = 3%Z /\ j = 58) -> ~ (s = 6%Z /\ j = 18) ->
   at_grid_point (elastic_locals (E64 j) s energy) j
     (nth j (select_ecross s) (lit 0))) /\
  at_grid_point (elastic_locals (E64 18) 6 energy) 18
    (next_down (nth 18 (select_ecross 6) (lit 0))) /\
  get_elastic_crosssection (lit 0.006) 0 energy = Ok (lit 0.395).
Proof.
  intros Hs Hj. split; [|split; [|split]].
  - apply grid_point_inelastic; assumption.
  - intros H3 H6.
    pose proof (grid_point_elastic s j Hs Hj H3) as He.
    unfold elastic_grid_value in He.
    destruct (Nat.eqb (Z.to_nat s) 6 && Nat.eqb j 18) eqn:Hb.
    + apply andb_true_iff in Hb. destruct Hb as [Hb6 Hb18].
      apply Nat.eqb_eq in Hb6. apply Nat.eqb_eq in Hb18.
      exfalso. apply H6. split; lia.
    + rewrite Z2Nat.id in He by lia. exact He.
  - apply (grid_point_elastic 6 18); lia.
  - vm_compute. reflexivity.
Qed.

Lemma lookup_at_tabulated_energy_witness :
  ((0 <= 0 <= 7)%Z /\ 11 <= 58) /\
  at_grid_point (inelastic_locals (E64 11) 0 energy) 11
    (nth 11 (select_icross 0) (lit 0)) /\
  (~ (0%Z = 3%Z /\ 11 = 58) -> ~ (0%Z = 6%Z /\ 11 = 18) ->
   at_grid_point (elastic_locals (E64 11) 0 energy) 11
     (nth 11 (select_ecross 0) (lit 0))) /\
  at_grid_point (elastic_locals (E64 18) 6 energy) 18
    (next_down (nth 18 (select_ecross 6) (lit 0))) /\
  get_elastic_crosssection (lit 0.006) 0 energy = Ok (lit 0.395).
Proof.
  split; [lia | apply (lookup_at_tabulated_energy 0 11); lia].
Defined.

(** In exact arithmetic the value at a tabulated energy is the tabulated
    one, for every curve whose subscripts are in range. *)
Lemma interpolate_at_grid_exact (xc : list real) (j : nat) :
  j <= 58 -> Nat.pred j + 1 < length xc ->
  at_grid_point (interpolate (E j) xc energy) j (nth j xc (lit 0)).
Proof.
  intros Hj Hlen. unfold at_grid_point.
  rewrite (interpolate_in_range (E j) xc (lit 0))
    by (rewrite (ilow_at_grid j Hj); exact Hlen).
  eexists. split; [reflexivity|]. cbn [ilow efrac cross_section].
  rewrite (efrac_at_grid j Hj), (ilow_at_grid j Hj).
  assert (H0 : lit (F := real) 0 = 0%R) by (simpl; unfold Q2R; simpl; lra).
  assert (H1 : lit (F := real) 1 = 1%R) by (simpl; unfold Q2R; simpl; lra).
  split; [reflexivity|]. split.
  - destruct (Nat.eqb j 0); [rewrite H0 | rewrite H1]; reflexivity.
  - destruct j as [|k]; cbn [Nat.pred Nat.eqb fadd fmul fsub exact].
    + ring.
    + replace (k + 1) with (S k) by lia. ring.
Qed.

Lemma real_lookup_at_grid_points (s : Z) (j : nat) :
  j <= 58 ->
  at_grid_point (inelastic_locals (E j) s energy) j
    (nth j (select_icross s) (lit 0)) /\
  (~ (s = 3%Z /\ j = 58) ->
   at_grid_point (elastic_locals (E j) s energy) j
     (nth j (select_ecross s) (lit 0))).
Proof.
  intros Hj. split.
  - apply interpolate_at_grid_exact; [exact Hj|].
    rewrite (select_icross_length s). lia.
  - intros Hne. apply interpolate_at_grid_exact; [exact Hj|].
    destruct (Z.eq_dec s 3) as [->|Hs].
    + assert (j <> 58) by (intros ->; apply Hne; split; reflexivity).
      pose proof (select_ecross_length_ge (F := real) 3). lia.
    + rewrite (select_ecross_length s Hs). lia.
Qed.

(** ** The nuclear radius parameter *)

Section Radius.
Local Open Scope R_scope.

(** In exact arithmetic [0.94 * x^(1/3)] separates positive weights. *)
Lemma radius_injective (x y : Q) :
  0 < Q2R x -> 0 < Q2R y ->
  radius (F := real) x Rpower = radius (F := real) y Rpower ->
  Q2R x = Q2R y.
Proof.
  intros Hx Hy. unfold radius. simpl.
  assert (H094 : Q2R 0.94 <> 0) by (unfold Q2R; simpl; lra).
  assert (Hthird : Q2R 1.0 / Q2R 3.0 <> 0) by (unfold Q2R; simpl; lra).
  intros H. apply Rmult_eq_reg_l in H; [|exact H094].
  unfold Rpower in H. apply exp_inv in H.
  apply Rmult_eq_reg_l in H; [|exact Hthird].
  apply ln_inv in H; assumption.
Qed.

End Radius.

(** C6: seven of the eight records store [0.94 * pow(A, 1./3.)] for their
    own atomic weight [A], whatever [pow] computes.  Copper stores the
    value for 63.55 next to the atomic weight 63.546: two different
    doubles, and in exact arithmetic, with the real power function, two
    different radius parameters. *)
Theorem copper_radius_from_another_weight :
  (forall (F : Type) (AR : Arith F) (pow : F -> F -> F) (m : MP),
     In m [carbon; aluminum; iron; tantalum; tungstun; platinum; lead] ->
     R m pow = fmul (lit 0.94) (pow (a m) (fdiv (lit 1.0) (lit 3.0)))) /\
  (forall (F : Type) (AR : Arith F) (pow : F -> F -> F),
     R copper pow =
       fmul (lit 0.94) (pow (lit 63.55) (fdiv (lit 1.0) (lit 3.0))) /\
     a copper = lit 63.546 /\
     get_a 3 = lit 63.546) /\
  (lit (F := float) 63.55 =? lit 63.546)%float = false /\
  R (F := real) copper Rpower <>
    fmul (lit 0.94) (Rpower (a copper) (fdiv (lit 1.0) (lit 3.0))).
Proof.
  split; [|split; [|split]].
  - intros F AR pow m Hm. simpl in Hm.
    repeat (destruct Hm as [<-|Hm]; [reflexivity|]). contradiction.
  - intros F AR pow. repeat split; reflexivity.
  - vm_compute. reflexivity.
  - intros H.
    change (radius (F := real) 63.55 Rpower = radius (F := real) 63.546 Rpower)
      in H.
    apply radius_injective in H.
    + unfold Q2R in H. simpl in H. lra.
    + unfold Q2R. simpl. lra.
    + unfold Q2R. simpl. lra.
Qed.

(** ** Order preservation, in exact arithmetic *)

Section Monotone.
Local Open Scope R_scope.

Lemma chain_nondecreasing (c : nat -> real) (m n : nat) :
  (m <= n)%nat ->
  (forall k, (m <= k < n)%nat -> c k <= c (k + 1)%nat) ->
  c m <= c n.
Proof.
  intros Hmn Hstep. induction n as [|n IH].
  - replace m with 0%nat by lia. lra.
  - destruct (Nat.eq_dec m (S n)) as [->|Hne]; [lra|].
    apply Rle_trans with (c n).
    + apply IH; [lia|]. intros k Hk. apply Hstep. lia.
    + replace (S n) with (n + 1)%nat by lia. apply Hstep. lia.
Qed.

(** The scan is monotone in the request. *)
Lemma ilow_monotone (e1 e2 : real) :
  e1 <= e2 -> e2 <= E 58 ->
  (spec_ilow e1 energy <= spec_ilow e2 energy)%nat.
Proof.
  intros H12 H2.
  destruct (Nat.le_gt_cases (spec_ilow e1 energy) (spec_ilow e2 energy))
    as [H|H]; [exact H|].
  destruct (ilow_exact e1) as (Hb1 & _ & Hdown).
  destruct (ilow_exact e2) as (_ & Hup & _).
  specialize (Hdown _ H).
  assert (e2 <= E (spec_ilow e2 energy + 1)) by (apply Hup; lia).
  lra.
Qed.

Lemma interpolate_monotone (xc : list real) (e1 e2 : real) :
  E 0 <= e1 -> e1 < e2 -> e2 <= E 58 ->
  nondecreasing_between xc e1 e2 ->
  exists l1 l2 : locals,
    interpolate e1 xc energy = Ok l1 /\
    interpolate e2 xc energy = Ok l2 /\
    cross_section l1 <= cross_section l2.
Proof.
  intros H0 H12 H58 Hmono.
  set (i1 := spec_ilow e1 energy). set (i2 := spec_ilow e2 energy).
  set (c := fun k => nth k xc (lit 0)).
  assert (Hr1 : E 0 <= e1 <= E 58) by lra.
  assert (Hr2 : E 0 <= e2 <= E 58) by lra.
  destruct (ilow_bracket e1 Hr1) as ((Hlo1 & Hhi1) & Hs1).
  destruct (ilow_bracket e2 Hr2) as ((Hlo2 & Hhi2) & Hs2).
  fold i1 in Hlo1, Hhi1, Hs1. fold i2 in Hlo2, Hhi2, Hs2.
  pose proof (spec_ilow_bound e1 energy) as Hb1. fold i1 in Hb1.
  pose proof (spec_ilow_bound e2 energy) as Hb2. fold i2 in Hb2.
  assert (Hi12 : (i1 <= i2)%nat) by (apply ilow_monotone; lra).
  (* a bin that meets the interval has its points, in order *)
  assert (Hbin : forall i, (i <= 57)%nat -> E i < e2 -> e1 < E (i + 1) ->
                 (i + 1 < length xc)%nat /\ c i <= c (i + 1)%nat).
  { intros i Hi Ha Hb.
    destruct (Hmono i Hi Ha Hb) as (x & x' & Hx & Hx' & Hle).
    split.
    - apply nth_error_Some. rewrite Hx'. discriminate.
    - unfold c. rewrite (nth_error_nth xc i _ Hx).
      rewrite (nth_error_nth xc (i + 1) _ Hx'). exact Hle. }
  assert (Hlast : E i2 < e2).
  { destruct (Nat.eq_dec i2 0) as [Hz|Hnz].
    - rewrite Hz. lra.
    - apply Hs2. lia. }
  destruct (Hbin i2 Hb2 Hlast ltac:(lra)) as [Hlen2 Hc2].
  rewrite (interpolate_in_range e1 xc (lit 0)) by (fold i1; lia).
  rewrite (interpolate_in_range e2 xc (lit 0)) by (fold i2; lia).
  do 2 eexists. split; [reflexivity|]. split; [reflexivity|].
  cbn [cross_section fadd fmul fsub exact].
  fold i1 i2. fold (c i1) (c (i1 + 1)%nat) (c i2) (c (i2 + 1)%nat).
  pose proof (efrac_unit_interval e1 Hr1) as Hf1.
  pose proof (efrac_unit_interval e2 Hr2) as Hf2.
  set (f1 := spec_efrac e1 energy) in *.
  set (f2 := spec_efrac e2 energy) in *.
  destruct (Nat.eq_dec i1 i2) as [Heq|Hne].
  - (* one bin *)
    assert (Hf12 : f1 <= f2).
    { unfold f1, f2. rewrite !efrac_exact. fold i1 i2. rewrite Heq.
      pose proof (bin_width_positive e2) as Hw. fold i2 in Hw.
      unfold Rdiv. apply Rmult_le_compat_r; [|lra].
      left. apply Rinv_0_lt_compat. exact Hw. }
    rewrite Heq.
    assert (0 <= (f2 - f1) * (c (i2 + 1)%nat - c i2))
      by (apply Rmult_le_pos; lra).
    lra.
  - (* e1 in an earlier bin than e2 *)
    assert (Hv1 : c i1 + f1 * (c (i1 + 1)%nat - c i1) <= c (i1 + 1)%nat).
    { destruct (Rlt_le_dec e1 (E (i1 + 1))) as [Hin|Hout].
      - assert (Hlt : E i1 < e2) by lra.
        destruct (Hbin i1 Hb1 Hlt Hin) as [_ Hc1].
        assert (0 <= (1 - f1) * (c (i1 + 1)%nat - c i1))
          by (apply Rmult_le_pos; lra).
        lra.
      - assert (He1 : e1 = E (i1 + 1)) by lra.
        assert (Hone : f1 = 1).
        { unfold f1. rewrite efrac_exact. fold i1. rewrite He1.
          pose proof (bin_width_positive e1) as Hw. fold i1 in Hw.
          apply Rdiv_diag. lra. }
        rewrite Hone. lra. }
    assert (Hchain : c (i1 + 1)%nat <= c i2).
    { apply chain_nondecreasing; [lia|].
      intros k Hk. apply Hbin; [lia| |].
      - assert (E k <= E i2) by (apply grid_monotone; lia). lra.
      - assert (E (i1 + 1) <= E k) by (apply grid_monotone; lia).
        assert (E k < E (k + 1)) by (apply grid_increasing; lia).
        lra. }
    assert (0 <= f2 * (c (i2 + 1)%nat - c i2))
      by (apply Rmult_le_pos; lra).
    lra.
Qed.

End Monotone.

(** In exact arithmetic: for every selector and every pair of
    real energies [e1 < e2] inside [[energy[0], energy[58]]], if the
    selected curve does not decrease over the bins that meet [[e1, e2]],
    then both lookups return and [lookup(e1) <= lookup(e2)]. *)
Lemma exact_arithmetic_preserves_order (s : Z) (e1 e2 : real) :
  (E 0 <= e1)%R -> (e1 < e2)%R -> (e2 <= E 58)%R ->
  (nondecreasing_between (select_ecross s) e1 e2 ->
   exists v1 v2 : real,
     get_elastic_crosssection e1 s energy = Ok v1 /\
     get_elastic_crosssection e2 s energy = Ok v2 /\
     (v1 <= v2)%R) /\
  (nondecreasing_between (select_icross s) e1 e2 ->
   exists v1 v2 : real,
     get_inelastic_crosssection e1 s energy = Ok v1 /\
     get_inelastic_crosssection e2 s energy = Ok v2 /\
     (v1 <= v2)%R).
Proof.
  intros H0 H12 H58. split; intros Hmono.
  - destruct (interpolate_monotone _ e1 e2 H0 H12 H58 Hmono)
      as (l1 & l2 & E1 & E2 & Hle).
    unfold get_elastic_crosssection, elastic_locals.
    rewrite E1, E2. simpl. eauto.
  - destruct (interpolate_monotone _ e1 e2 H0 H12 H58 Hmono)
      as (l1 & l2 & E1 & E2 & Hle).
    unfold get_inelastic_crosssection, inelastic_locals.
    rewrite E1, E2. simpl. eauto.
Qed.

(** ** Order preservation in double precision *)

Section Monotone64.

Lemma SFleb_ltb_trans (x y z : spec_float) :
  SFleb x y = true -> SFltb y z = true -> SFltb x z = true.
Proof.
  unfold SFleb, SFltb.
  destruct x as [sx|sx| |sx mx ex], y as [sy|sy| |sy my ey],
           z as [sz|sz| |sz mz ez]; simpl;
    repeat match goal with s : bool |- _ => destruct s end; simpl;
    try discriminate; try reflexivity; intros H1 H2.
  all: change (Pos.compare_cont Eq) with Pos.compare in *.
  all: destruct (Z.compare_spec ex ey), (Z.compare_spec ey ez),
         (Z.compare_spec ex ez); try lia; try discriminate; try reflexivity;
       subst;
       destruct (Pos.compare_spec mx my), (Pos.compare_spec my mz),
         (Pos.compare_spec mx mz); simpl in *;
       try lia; try discriminate; try reflexivity.
Qed.

Lemma SFltb_leb_trans (x y z : spec_float) :
  SFltb x y = true -> SFleb y z = true -> SFltb x z = true.
Proof.
  unfold SFleb, SFltb.
  destruct x as [sx|sx| |sx mx ex], y as [sy|sy| |sy my ey],
           z as [sz|sz| |sz mz ez]; simpl;
    repeat match goal with s : bool |- _ => destruct s end; simpl;
    try discriminate; try reflexivity; intros H1 H2.
  all: change (Pos.compare_cont Eq) with Pos.compare in *.
  all: destruct (Z.compare_spec ex ey), (Z.compare_spec ey ez),
         (Z.compare_spec ex ez); try lia; try discriminate; try reflexivity;
       subst;
       destruct (Pos.compare_spec mx my), (Pos.compare_spec my mz),
         (Pos.compare_spec mx mz); simpl in *;
       try lia; try discriminate; try reflexivity.
Qed.

Lemma float_leb_ltb_trans (x y z : float) :
  (x <=? y)%float = true -> (y <? z)%float = true -> (x <? z)%float = true.
Proof.
  rewrite !FloatAxioms.leb_spec, !FloatAxioms.ltb_spec.
  apply SFleb_ltb_trans.
Qed.

Lemma float_ltb_leb_trans (x y z : float) :
  (x <? y)%float = true -> (y <=? z)%float = true -> (x <? z)%float = true.
Proof.
  rewrite !FloatAxioms.leb_spec, !FloatAxioms.ltb_spec.
  apply SFltb_leb_trans.
Qed.

(** Positive finite doubles are totally ordered. *)
Lemma float_leb_total (x y : float) :
  positive_finite x = true -> positive_finite y = true ->
  (x <=? y)%float = false -> (y <? x)%float = true.
Proof.
  unfold positive_finite.
  rewrite FloatAxioms.leb_spec, FloatAxioms.ltb_spec.
  destruct (Prim2SF x) as [sx|sx| |sx mx ex]; try discriminate.
  destruct sx; try discriminate.
  destruct (Prim2SF y) as [sy|sy| |sy my ey]; try discriminate.
  destruct sy; try discriminate.
  intros _ _. unfold SFleb, SFltb, SFcompare.
  change (Pos.compare_cont Eq) with Pos.compare.
  destruct (Z.compare_spec ex ey), (Z.compare_spec ey ex);
    try lia; try discriminate; try reflexivity.
  subst. destruct (Pos.compare_spec mx my), (Pos.compare_spec my mx);
    try lia; try discriminate; try reflexivity.
Qed.

Lemma float_leb_antisym (x y : float) :
  positive_finite x = true -> positive_finite y = true ->
  (x <=? y)%float = true -> (x <? y)%float = false -> x = y.
Proof.
  unfold positive_finite.
  rewrite FloatAxioms.leb_spec, FloatAxioms.ltb_spec.
  intros Hx Hy Hle Hlt. apply Prim2SF_inj.
  destruct (Prim2SF x) as [sx|sx| |sx mx ex]; try discriminate.
  destruct sx; try discriminate.
  destruct (Prim2SF y) as [sy|sy| |sy my ey]; try discriminate.
  destruct sy; try discriminate.
  revert Hle Hlt. unfold SFleb, SFltb, SFcompare.
  change (Pos.compare_cont Eq) with Pos.compare.
  destruct (Z.compare_spec ex ey); try discriminate.
  subst. destruct (Pos.compare_spec mx my); try discriminate.
  intros _ _. congruence.
Qed.

Lemma between_positive_finite (el eh r : float) :
  positive_finite el = true -> positive_finite eh = true ->
  (el <=? r)%float = true -> (r <=? eh)%float = true ->
  positive_finite r = true.
Proof.
  unfold positive_finite.
  rewrite !FloatAxioms.leb_spec.
  destruct (Prim2SF el) as [s|s| |s m e]; try discriminate.
  destruct s; try discriminate.
  destruct (Prim2SF eh) as [s|s| |s m' e']; try discriminate.
  destruct s; try discriminate.
  destruct (Prim2SF r) as [[|]|[|]| |[|] mr er]; try discriminate.
  reflexivity.
Qed.

Lemma grid64_increasing (i : nat) :
  i <= 57 -> (E64 i <? E64 (i + 1))%float = true.
Proof.
  intros Hi.
  assert (Hall : forallb (fun k => (E64 k <? E64 (k + 1))%float)
                         (seq 0 58) = true) by (vm_compute; reflexivity).
  rewrite forallb_forall in Hall. apply Hall. apply in_seq. lia.
Qed.

(** Inside the table the request lies in the bin the scan selects. *)
Lemma ilow64_bracket (r : float) :
  (E64 0 <=? r)%float = true -> (r <=? E64 58)%float = true ->
  (E64 (spec_ilow r energy) <=? r)%float = true /\
  (r <=? E64 (spec_ilow r energy + 1))%float = true /\
  (0 < spec_ilow r energy -> (E64 (spec_ilow r energy) <? r)%float = true).
Proof.
  intros Hlo Hhi.
  pose proof (spec_ilow_bound r energy) as Hb.
  destruct (spec_ilow_test r energy) as [Ht Hk].
  set (i := spec_ilow r energy) in *.
  assert (Hfin : positive_finite r = true).
  { apply (between_positive_finite (E64 0) (E64 58)); try assumption;
      apply grid64_positive_finite; lia. }
  assert (Hstrict : 0 < i -> (E64 i <? r)%float = true).
  { intros Hpos. specialize (Hk (i - 1) ltac:(lia)).
    replace (i - 1 + 1) with i in Hk by lia.
    apply float_leb_total; [exact Hfin| |exact Hk].
    apply grid64_positive_finite. lia. }
  repeat split.
  - destruct (Nat.eq_dec i 0) as [E0|Hne].
    + rewrite E0. exact Hlo.
    + apply float_ltb_leb. apply Hstrict. lia.
  - destruct (Nat.eq_dec i 57) as [E57|Hne].
    + rewrite E57. exact Hhi.
    + apply Ht. lia.
  - exact Hstrict.
Qed.

(** The scan is monotone in the request. *)
Lemma ilow64_monotone (r1 r2 : float) :
  (E64 0 <=? r2)%float = true -> (r2 <=? E64 58)%float = true ->
  (r1 <=? r2)%float = true ->
  spec_ilow r1 energy <= spec_ilow r2 energy.
Proof.
  intros H0 H58 H12.
  destruct (Nat.le_gt_cases (spec_ilow r1 energy) (spec_ilow r2 energy))
    as [H|H]; [exact H|].
  destruct (spec_ilow_test r1 energy) as [_ Hk]. specialize (Hk _ H).
  destruct (ilow64_bracket r2 H0 H58) as (_ & Hup & _).
  change (fleb r1 (nth (spec_ilow r2 energy + 1) energy (lit 0)))
    with (r1 <=? E64 (spec_ilow r2 energy + 1))%float in Hk.
  rewrite (float_leb_trans _ _ _ H12 Hup) in Hk. discriminate.
Qed.

Lemma chain64 (c : nat -> float) (m n : nat) :
  m < n ->
  (forall k, m <= k < n -> (c k <=? c (k + 1)%nat)%float = true) ->
  (c m <=? c n)%float = true.
Proof.
  intros Hmn Hstep. induction n as [|n IH]; [lia|].
  destruct (Nat.eq_dec m n) as [->|Hne].
  - replace (S n) with (n + 1) by lia. apply Hstep. lia.
  - apply float_leb_trans with (c n).
    + apply IH; [lia|]. intros k Hk. apply Hstep. lia.
    + replace (S n) with (n + 1) by lia. apply Hstep. lia.
Qed.

(** Every bin of every curve passes [bin_check]. *)
Lemma bins_checked (s : Z) (j : nat) :
  j <= 57 ->
  bin_check (select_ecross s) j = true /\
  bin_check (select_icross s) j = true.
Proof.
  intros Hj.
  assert (Hall : forallb
            (fun k => forallb
               (fun i => bin_check (select_ecross (Z.of_nat k)) i
                         && bin_check (select_icross (Z.of_nat k)) i)
               (seq 0 58))
            (seq 0 8) = true) by (vm_compute; reflexivity).
  rewrite forallb_forall in Hall.
  assert (Hsel : exists k, k <= 7 /\
            select_ecross (F := float) s = select_ecross (Z.of_nat k) /\
            select_icross (F := float) s = select_icross (Z.of_nat k)).
  { destruct (Z_le_gt_dec 0 s) as [H0|H0];
      [destruct (Z_le_gt_dec s 6) as [H6|H6]|].
    - exists (Z.to_nat s). rewrite Z2Nat.id by lia. split; [lia|auto].
    - exists 7.
      destruct (accessors_compat (F := float) s)
        as (_ & _ & _ & _ & -> & ->).
      unfold compat_properties.
      replace ((0 <=? s) && (s <=? 6))%Z with false
        by (symmetry; apply andb_false_iff; right; apply Z.leb_gt; lia).
      split; [lia|split; reflexivity].
    - exists 7.
      destruct (accessors_compat (F := float) s)
        as (_ & _ & _ & _ & -> & ->).
      unfold compat_properties.
      replace ((0 <=? s) && (s <=? 6))%Z with false
        by (symmetry; apply andb_false_iff; left; apply Z.leb_gt; lia).
      split; [lia|split; reflexivity]. }
  destruct Hsel as (k & Hk & -> & ->).
  assert (Hink : In k (seq 0 8)) by (apply in_seq; lia).
  specialize (Hall k Hink). rewrite forallb_forall in Hall.
  assert (Hinj : In j (seq 0 58)) by (apply in_seq; lia).
  specialize (Hall j Hinj). apply andb_true_iff in Hall. exact Hall.
Qed.

Lemma interpolate_monotone64 (s : Z) (xc : list float) (r1 r2 : float) :
  xc = select_ecross s \/ xc = select_icross s ->
  (E64 0 <=? r1)%float = true -> (r1 <? r2)%float = true ->
  (r2 <=? E64 58)%float = true ->
  nondecreasing_between64 xc r1 r2 ->
  exists l1 l2 : locals,
    interpolate r1 xc energy = Ok l1 /\
    interpolate r2 xc energy = Ok l2 /\
    (cross_section l1 <=? cross_section l2)%float = true.
Proof.
  intros Hxc H0 H12 H58 Hmono.
  set (i1 := spec_ilow r1 energy). set (i2 := spec_ilow r2 energy).
  set (c := fun k => nth k xc (lit 0)).
  set (f := fun i => bin64 (E64 i) (E64 (i + 1)) (c i) (c (i + 1)%nat)).
  assert (Hle12 : (r1 <=? r2)%float = true) by (apply float_ltb_leb; exact H12).
  assert (H58' : (r1 <=? E64 58)%float = true)
    by (apply float_leb_trans with r2; assumption).
  assert (H0' : (E64 0 <=? r2)%float = true)
    by (apply float_leb_trans with r1; assumption).
  destruct (ilow64_bracket r1 H0 H58') as (Hlo1 & Hhi1 & Hs1).
  destruct (ilow64_bracket r2 H0' H58) as (Hlo2 & Hhi2 & Hs2).
  fold i1 in Hlo1, Hhi1, Hs1. fold i2 in Hlo2, Hhi2, Hs2.
  pose proof (spec_ilow_bound r1 energy) as Hb1. fold i1 in Hb1.
  pose proof (spec_ilow_bound r2 energy) as Hb2. fold i2 in Hb2.
  assert (Hi12 : i1 <= i2) by (apply ilow64_monotone; assumption).
  (* a bin that meets the interval has its points, in order *)
  assert (Hbin : forall i, i <= 57 -> (E64 i <? r2)%float = true ->
                 (r1 <? E64 (i + 1))%float = true ->
                 i + 1 < length xc /\ (c i <=? c (i + 1)%nat)%float = true).
  { intros i Hi Ha Hb.
    destruct (Hmono i Hi Ha Hb) as (x & x' & Hx & Hx' & Hle).
    split.
    - apply nth_error_Some. rewrite Hx'. discriminate.
    - unfold c. rewrite (nth_error_nth xc i _ Hx).
      rewrite (nth_error_nth xc (i + 1)%nat _ Hx'). exact Hle. }
  (* what the tables were checked for *)
  assert (Hchk : forall i, i <= 57 -> i + 1 < length xc ->
                 finite_not_negative (c i) = true /\
                 finite_not_negative (c (i + 1)%nat) = true /\
                 (f i (E64 (i + 1)) <=? c (i + 1)%nat)%float = true /\
                 (c i <=? f i (E64 i))%float = true).
  { intros i Hi Hlen.
    assert (Hc : bin_check xc i = true).
    { destruct (bins_checked s i Hi) as [He Hin].
      destruct Hxc as [-> | ->]; assumption. }
    unfold bin_check in Hc.
    rewrite (nth_error_nth' xc (lit 0)) in Hc by lia.
    rewrite (nth_error_nth' xc (lit 0)) in Hc by lia.
    fold (c i) (c (i + 1)%nat) in Hc.
    apply andb_true_iff in Hc. destruct Hc as [Hc T3].
    apply andb_true_iff in Hc. destruct Hc as [Hc T2].
    apply andb_true_iff in Hc. destruct Hc as [T0 T1].
    auto. }
  (* monotony within one bin *)
  assert (Hin : forall i x y, i <= 57 -> i + 1 < length xc ->
                (c i <=? c (i + 1)%nat)%float = true ->
                (E64 i <=? x)%float = true -> (x <=? y)%float = true ->
                (y <=? E64 (i + 1))%float = true ->
                (f i x <=? f i y)%float = true).
  { intros i x y Hi Hlen Hc Hx Hxy Hy.
    destruct (Hchk i Hi Hlen) as (T0 & T1 & _ & _).
    apply bin64_monotone; try assumption.
    - apply grid64_positive_finite. lia.
    - apply grid64_positive_finite. lia.
    - apply grid64_width_below_one. exact Hi. }
  assert (Hlast : (E64 i2 <? r2)%float = true).
  { destruct (Nat.eq_dec i2 0) as [Hz|Hnz].
    - rewrite Hz. apply float_leb_ltb_trans with r1; assumption.
    - apply Hs2. lia. }
  assert (Hnext : (r1 <? E64 (i2 + 1))%float = true)
    by (apply float_ltb_leb_trans with r2; assumption).
  destruct (Hbin i2 Hb2 Hlast Hnext) as [Hlen2 Hc2].
  rewrite (interpolate_in_range r1 xc (lit 0)) by (fold i1; lia).
  rewrite (interpolate_in_range r2 xc (lit 0)) by (fold i2; lia).
  do 2 eexists. split; [reflexivity|]. split; [reflexivity|].
  cbn [cross_section].
  change ((f i1 r1 <=? f i2 r2)%float = true).
  destruct (Nat.eq_dec i1 i2) as [Heq|Hne].
  - (* one bin *)
    rewrite Heq in *. apply Hin; assumption.
  - (* r1 in an earlier bin than r2 *)
    assert (Hlen1 : i1 + 1 < length xc) by lia.
    destruct (Hchk i1 Hb1 Hlen1) as (_ & _ & T2 & _).
    destruct (Hchk i2 Hb2 Hlen2) as (_ & _ & _ & T3).
    assert (Hv1 : (f i1 r1 <=? c (i1 + 1)%nat)%float = true).
    { destruct (r1 <? E64 (i1 + 1))%float eqn:Hlt.
      - assert (Ha : (E64 i1 <? r2)%float = true)
          by (apply float_leb_ltb_trans with r1; assumption).
        destruct (Hbin i1 Hb1 Ha Hlt) as [_ Hc1].
        apply float_leb_trans with (f i1 (E64 (i1 + 1))); [|exact T2].
        apply Hin; try assumption.
        apply grid64_monotone. lia.
      - assert (He : r1 = E64 (i1 + 1)).
        { apply float_leb_antisym; try assumption.
          - apply (between_positive_finite (E64 0) (E64 58)); try assumption;
              apply grid64_positive_finite; lia.
          - apply grid64_positive_finite. lia. }
        rewrite He. exact T2. }
    assert (Hv2 : (c i2 <=? f i2 r2)%float = true).
    { apply float_leb_trans with (f i2 (E64 i2)); [exact T3|].
      apply Hin; try assumption.
      apply grid64_monotone. lia. }
    destruct (Nat.eq_dec (i1 + 1)%nat i2) as [Hadj|Hfar].
    + rewrite Hadj in Hv1. apply float_leb_trans with (c i2); assumption.
    + apply float_leb_trans with (c (i1 + 1)%nat); [exact Hv1|].
      apply float_leb_trans with (c i2); [|exact Hv2].
      apply chain64; [lia|].
      intros k Hk. apply Hbin; [lia| |].
      * apply float_leb_ltb_trans with (E64 i2); [|exact Hlast].
        apply grid64_monotone. lia.
      * apply float_leb_ltb_trans with (E64 k).
        -- apply float_leb_trans with (E64 (i1 + 1)); [exact Hhi1|].
           apply grid64_monotone. lia.
        -- apply grid64_increasing. lia.
Qed.

End Monotone64.

(** C8: in double precision, for every selector and every pair of doubles
    [r1 < r2] inside [[energy[0], energy[58]]], if the selected curve does
    not decrease over the bins that meet [[r1, r2]], then both lookups
    return and [lookup(r1) <= lookup(r2)]. *)
Theorem interpolation_preserves_order (s : Z) (r1 r2 : float) :
  (E64 0 <=? r1)%float = true -> (r1 <? r2)%float = true ->
  (r2 <=? E64 58)%float = true ->
  (nondecreasing_between64 (select_ecross s) r1 r2 ->
   exists v1 v2 : float,
     get_elastic_crosssection r1 s energy = Ok v1 /\
     get_elastic_crosssection r2 s energy = Ok v2 /\
     (v1 <=? v2)%float = true) /\
  (nondecreasing_between64 (select_icross s) r1 r2 ->
   exists v1 v2 : float,
     get_inelastic_crosssection r1 s energy = Ok v1 /\
     get_inelastic_crosssection r2 s energy = Ok v2 /\
     (v1 <=? v2)%float = true).
Proof.
  intros H0 H12 H58. split; intros Hmono.
  - destruct (interpolate_monotone64 s _ r1 r2 (or_introl eq_refl)
                H0 H12 H58 Hmono) as (l1 & l2 & E1 & E2 & Hle).
    unfold get_elastic_crosssection, elastic_locals.
    rewrite E1, E2. simpl. eauto.
  - destruct (interpolate_monotone64 s _ r1 r2 (or_intror eq_refl)
                H0 H12 H58 Hmono) as (l1 & l2 & E1 & E2 & Hle).
    unfold get_inelastic_crosssection, inelastic_locals.
    rewrite E1, E2. simpl. eauto.
Qed.

(** Between 6.1 and 6.4 MeV, inside the bin from 6 to 6.5 MeV, the carbon
    elastic curve rises from 0.395 to 0.404. *)
Lemma carbon_elastic_rises_near_6_MeV :
  nondecreasing_between64 (select_ecross 0) (lit 0.0061) (lit 0.0064).
Proof.
  intros i Hi Ha Hb.
  assert (Hall : forallb
            (fun k => implb ((E64 k <? lit 0.0064)%float
                             && (lit 0.0061 <? E64 (k + 1))%float)
                            (Nat.eqb k 11))
            (seq 0 58) = true) by (vm_compute; reflexivity).
  rewrite forallb_forall in Hall.
  assert (Hin : In i (seq 0 58)) by (apply in_seq; lia).
  specialize (Hall i Hin). rewrite Ha, Hb in Hall.
  apply Nat.eqb_eq in Hall. subst i.
  exists (lit 0.395), (lit 0.404).
  split; [reflexivity|]. split; [reflexivity|].
  vm_compute. reflexivity.
Qed.

Lemma interpolation_preserves_order_witness :
  ((E64 0 <=? lit 0.0061)%float = true /\
   (lit 0.0061 <? lit 0.0064)%float = true /\
   (lit 0.0064 <=? E64 58)%float = true) /\
  exists v1 v2 : float,
    get_elastic_crosssection (lit 0.0061) 0 energy = Ok v1 /\
    get_elastic_crosssection (lit 0.0064) 0 energy = Ok v2 /\
    (v1 <=? v2)%float = true.
Proof.
  assert (H0 : (E64 0 <=? lit 0.0061)%float = true)
    by (vm_compute; reflexivity).
  assert (H12 : (lit 0.0061 <? lit 0.0064)%float = true)
    by (vm_compute; reflexivity).
  assert (H58 : (lit 0.0064 <=? E64 58)%float = true)
    by (vm_compute; reflexivity).
  split; [auto|].
  exact (proj1 (interpolation_preserves_order 0 (lit 0.0061) (lit 0.0064)
                  H0 H12 H58)
               carbon_elastic_rises_near_6_MeV).
Defined.

(** * Further properties of the lookups *)

(** ** Tables of any length *)

Section AnyTable.
Context {F : Type} {AR : Arith F}.

(** The loop over [a, a+1, ..., a+n-1]: it stops at the first index whose
    test succeeds, or keeps the default after [n] failed tests; it raises
    when a test reads past the end of [en]. *)
Lemma scan_ok_iff (r : F) (en : list F) (dflt : nat) :
  forall (n a i : nat),
    scan r en (seq a n) dflt = Ok i <->
    (a <= i < a + n /\ i + 1 < length en /\
     (forall k e, a <= k < i -> nth_error en (k + 1) = Some e ->
                  fleb r e = false) /\
     (forall e, nth_error en (i + 1) = Some e -> fleb r e = true))
    \/
    (i = dflt /\ (n = 0 \/ a + n < length en) /\
     (forall k e, a <= k < a + n -> nth_error en (k + 1) = Some e ->
                  fleb r e = false)).
Proof.
  induction n as [|n IH]; intros a i.
  - cbn [seq scan]. split.
    + intros H. injection H as <-. right. repeat split.
      * left. reflexivity.
      * intros k e Hk. lia.
    + intros [(Hi & _)|(Hi & _)]; [lia|]. subst. reflexivity.
  - cbn [seq scan]. unfold index.
    destruct (nth_error en (a + 1)) as [e|] eqn:He; cbn [bind].
    + destruct (fleb r e) eqn:Ht.
      * split.
        -- intros H. injection H as <-. left. repeat split; try lia.
           ++ apply nth_error_Some. rewrite He. discriminate.
           ++ intros e' He'. congruence.
        -- intros [(Hi & _ & Hk & _)|(_ & _ & Hk)].
           ++ destruct (Nat.eq_dec i a) as [->|Hne]; [reflexivity|].
              specialize (Hk a e ltac:(lia) He). congruence.
           ++ specialize (Hk a e ltac:(lia) He). congruence.
      * rewrite IH. split.
        -- intros [(Hi & Hlen & Hk & Hi')|(Hi & Hlen & Hk)].
           ++ left. repeat split; try lia; try assumption.
              intros k e' Hk' He'.
              destruct (Nat.eq_dec k a) as [->|Hne]; [congruence|].
              apply (Hk k e'); [lia|exact He'].
           ++ right. repeat split; try assumption.
              ** right. assert (a + 1 < length en).
                 { apply nth_error_Some. rewrite He. discriminate. }
                 destruct Hlen as [->|Hlen]; lia.
              ** intros k e' Hk' He'.
                 destruct (Nat.eq_dec k a) as [->|Hne]; [congruence|].
                 apply (Hk k e'); [lia|exact He'].
        -- intros [(Hi & Hlen & Hk & Hi')|(Hi & Hlen & Hk)].
           ++ left. assert (Hne : i <> a).
              { intros ->. specialize (Hi' e He). congruence. }
              repeat split; try lia; try assumption.
              intros k e' Hk' He'. apply (Hk k e'); [lia|exact He'].
           ++ right. repeat split; try assumption.
              ** destruct (Nat.eq_dec n 0) as [->|Hn]; [left; reflexivity|].
                 right. destruct Hlen as [Hlen|Hlen]; lia.
              ** intros k e' Hk' He'. apply (Hk k e'); [lia|exact He'].
    + split; [discriminate|].
      assert (Hnone : length en <= a + 1) by (apply nth_error_None; exact He).
      intros [(Hi & Hlen & _)|(_ & Hlen & _)]; lia.
Qed.

(** The scan of the lookups, [range(58)] with default [57]. *)
Lemma scan_selects (r : F) (en : list F) (i : nat) :
  scan r en (seq 0 58) 57 = Ok i <-> selects r en i.
Proof.
  rewrite scan_ok_iff. unfold selects. split.
  - intros [(Hi & Hlen & Hk & Ht)|(Hi & Hlen & Hk)].
    + repeat split; try lia; try assumption.
      * intros k e Hlt. apply Hk. lia.
      * intros _. exact Ht.
    + subst i. repeat split; try lia.
      intros k e Hlt. apply Hk. lia.
  - intros (Hi & Hlen & Hk & Ht).
    destruct (Nat.eq_dec i 57) as [->|Hne].
    + destruct (nth_error en (57 + 1)) as [e|] eqn:He.
      * destruct (fleb r e) eqn:Hte.
        -- left. repeat split; try lia.
           ++ intros k e' Hk'. apply Hk. lia.
           ++ intros e' He'. congruence.
        -- right. repeat split; try lia.
           intros k e' Hk' He'.
           destruct (Nat.eq_dec k 57) as [->|Hne]; [congruence|].
           apply (Hk k e'); [lia|exact He'].
      * apply nth_error_None in He. lia.
    + left. repeat split; try lia.
      * intros k e Hk'. apply Hk. lia.
      * apply Ht. lia.
Qed.

Lemma interpolate_ok_iff (r : F) (xc en : list F) (l : locals) :
  interpolate r xc en = Ok l <->
  selects r en (ilow l) /\ computed_from r xc en l.
Proof.
  unfold interpolate, computed_from. split.
  - intros H.
    destruct (scan r en (seq 0 58) 57) as [i|e] eqn:Hs; [|discriminate].
    cbn [bind] in H. unfold index in H.
    destruct (nth_error en i) as [e_lo|] eqn:H1; [|discriminate].
    cbn [bind] in H.
    destruct (nth_error en (i + 1)) as [e_hi|] eqn:H2; [|discriminate].
    cbn [bind] in H.
    destruct (nth_error xc i) as [c_lo|] eqn:H3; [|discriminate].
    cbn [bind] in H.
    destruct (nth_error xc (i + 1)) as [c_hi|] eqn:H4; [|discriminate].
    cbn [bind] in H. injection H as <-. cbn [ilow efrac cross_section].
    split; [apply scan_selects; exact Hs|].
    exists e_lo, e_hi, c_lo, c_hi. auto 6.
  - intros (Hsel & e_lo & e_hi & c_lo & c_hi & H1 & H2 & H3 & H4 & Hf & Hv).
    apply scan_selects in Hsel. rewrite Hsel. cbn [bind]. unfold index.
    rewrite H1. cbn [bind]. rewrite H2. cbn [bind].
    rewrite H3. cbn [bind]. rewrite H4. cbn [bind].
    destruct l as [i f v]. cbn [ilow efrac cross_section] in *.
    subst f. rewrite <- Hv. reflexivity.
Qed.

Lemma scan_raises_index_error (r : F) (en : list F) (dflt : nat) (e : exn) :
  forall range : list nat,
    scan r en range dflt = Raise e -> e = IndexError.
Proof.
  induction range as [|i rest IH]; cbn [scan]; [discriminate|].
  unfold index. destruct (nth_error en (i + 1)) as [x|]; cbn [bind].
  - destruct (fleb r x); [discriminate|exact IH].
  - intros H. injection H as <-. reflexivity.
Qed.

Lemma interpolate_raises_index_error (r : F) (xc en : list F) (e : exn) :
  interpolate r xc en = Raise e -> e = IndexError.
Proof.
  unfold interpolate.
  destruct (scan r en (seq 0 58) 57) as [i|e'] eqn:Hs; cbn [bind].
  - unfold index.
    destruct (nth_error en i); cbn [bind]; [|congruence].
    destruct (nth_error en (i + 1)); cbn [bind]; [|congruence].
    destruct (nth_error xc i); cbn [bind]; [|congruence].
    destruct (nth_error xc (i + 1)); cbn [bind]; [discriminate|congruence].
  - intros H. injection H as <-.
    apply (scan_raises_index_error _ _ _ _ _ Hs).
Qed.

End AnyTable.

(** X1: for every array of doubles passed as [energy], whatever its
    length, a lookup returns exactly when the scan stays inside the table and the
    curve has the entries [ilow] and [ilow + 1]; its locals are then the
    bin the scan selects and the fraction and value computed from the four
    table entries.  In every other case it raises [IndexError]. *)
Theorem lookup_returns_exactly_when (F : Type) (AR : Arith F)
    (r : F) (s : Z) (en : list F) :
  (forall l : locals,
     elastic_locals r s en = Ok l <->
     selects r en (ilow l) /\ computed_from r (select_ecross s) en l) /\
  (forall l : locals,
     inelastic_locals r s en = Ok l <->
     selects r en (ilow l) /\ computed_from r (select_icross s) en l) /\
  (forall e : exn,
     get_elastic_crosssection r s en = Raise e -> e = IndexError) /\
  (forall e : exn,
     get_inelastic_crosssection r s en = Raise e -> e = IndexError).
Proof.
  split; [|split; [|split]].
  - intros l. apply interpolate_ok_iff.
  - intros l. apply interpolate_ok_iff.
  - intros e. unfold get_elastic_crosssection, elastic_locals.
    destruct (interpolate r (select_ecross s) en) as [l|e'] eqn:Hi;
      cbn [bind]; [discriminate|].
    intros H. injection H as <-.
    apply (interpolate_raises_index_error _ _ _ _ Hi).
  - intros e. unfold get_inelastic_crosssection, inelastic_locals.
    destruct (interpolate r (select_icross s) en) as [l|e'] eqn:Hi;
      cbn [bind]; [discriminate|].
    intros H. injection H as <-.
    apply (interpolate_raises_index_error _ _ _ _ Hi).
Qed.

Section Prefix.
Context {F : Type} {AR : Arith F}.

Lemma index_firstn (l : list F) (n i : nat) :
  i < n -> index (firstn n l) i = index l i.
Proof.
  intros Hi. unfold index. rewrite nth_error_firstn.
  apply Nat.ltb_lt in Hi. rewrite Hi. reflexivity.
Qed.

Lemma scan_firstn (r : F) (en : list F) (dflt : nat) :
  forall range : list nat,
    (forall i, In i range -> i < 58) ->
    scan r (firstn 59 en) range dflt = scan r en range dflt.
Proof.
  induction range as [|i rest IH]; intros Hr; cbn [scan]; [reflexivity|].
  rewrite index_firstn by (specialize (Hr i (or_introl eq_refl)); lia).
  destruct (index en (i + 1)) as [e|e]; cbn [bind]; [|reflexivity].
  destruct (fleb r e); [reflexivity|].
  apply IH. intros k Hk. apply Hr. right. exact Hk.
Qed.

(** The lookup on a table and on its first 59 entries. *)
Lemma interpolate_firstn (r : F) (xc en : list F) :
  interpolate r xc (firstn 59 en) = interpolate r xc en.
Proof.
  unfold interpolate.
  rewrite scan_firstn by (intros i Hi; apply in_seq in Hi; lia).
  destruct (scan r en (seq 0 58) 57) as [i|e] eqn:Hs; cbn [bind];
    [|reflexivity].
  apply scan_selects in Hs. destruct Hs as (Hi & _).
  rewrite !index_firstn by lia. reflexivity.
Qed.

(** Both lookups read the same bin of the energy table, and the curves of
    the inelastic lookups all have 59 entries. *)
Lemma interpolate_same_bin (r : F) (xc xc' en : list F) (l : locals) :
  interpolate r xc en = Ok l ->
  ilow l + 1 < length xc' ->
  exists l' : locals,
    interpolate r xc' en = Ok l' /\
    ilow l' = ilow l /\ efrac l' = efrac l.
Proof.
  intros Hl Hlen. apply interpolate_ok_iff in Hl.
  destruct Hl as (Hsel & e_lo & e_hi & c_lo & c_hi & H1 & H2 & _ & _ & Hf & _).
  destruct (nth_error xc' (ilow l)) as [c_lo'|] eqn:H3.
  2:{ apply nth_error_None in H3. lia. }
  destruct (nth_error xc' (ilow l + 1)) as [c_hi'|] eqn:H4.
  2:{ apply nth_error_None in H4. lia. }
  exists (mkLocals (ilow l) (efrac l)
            (fadd c_lo' (fmul (efrac l) (fsub c_hi' c_lo')))).
  split; [|split; reflexivity].
  apply interpolate_ok_iff. split; [exact Hsel|].
  exists e_lo, e_hi, c_lo', c_hi'. cbn [ilow efrac cross_section]. auto 6.
Qed.

End Prefix.

(** X2: a lookup never reads the energy array past [energy[58]]: two
    arrays with the same first 59 entries give the same outcome, value or
    [IndexError], for every request and selector. *)
Theorem entries_past_58_are_never_read (F : Type) (AR : Arith F)
    (r : F) (s : Z) (en en' : list F) :
  firstn 59 en = firstn 59 en' ->
  get_elastic_crosssection r s en = get_elastic_crosssection r s en' /\
  get_inelastic_crosssection r s en = get_inelastic_crosssection r s en'.
Proof.
  intros Heq.
  unfold get_elastic_crosssection, get_inelastic_crosssection,
    elastic_locals, inelastic_locals.
  rewrite <- (interpolate_firstn r (select_ecross s) en).
  rewrite <- (interpolate_firstn r (select_ecross s) en').
  rewrite <- (interpolate_firstn r (select_icross s) en).
  rewrite <- (interpolate_firstn r (select_icross s) en').
  rewrite Heq. split; reflexivity.
Qed.

Lemma entries_past_58_are_never_read_witness :
  firstn 59 (energy (F := float) ++ [lit 3.0; lit 0.1]) = firstn 59 energy /\
  get_elastic_crosssection (lit 0.0525) 4 (energy ++ [lit 3.0; lit 0.1]) =
    get_elastic_crosssection (lit 0.0525) 4 energy /\
  get_inelastic_crosssection (lit 0.0525) 4 (energy ++ [lit 3.0; lit 0.1]) =
    get_inelastic_crosssection (lit 0.0525) 4 energy.
Proof.
  split; [reflexivity|].
  apply (entries_past_58_are_never_read float binary64 (lit 0.0525) 4).
  reflexivity.
Defined.

(** X3: for every array passed as [energy], the two lookups fail or
    return together:
    when the elastic lookup of a selector returns, the inelastic lookup of
    any selector returns too, from the same bin and with the same fraction;
    and when an inelastic lookup returns, so does the elastic lookup of
    every selector other than 3, whose curve is one entry short. *)
Theorem lookups_return_together (F : Type) (AR : Arith F)
    (r : F) (s s' : Z) (en : list F) :
  (forall le : locals,
     elastic_locals r s en = Ok le ->
     exists li : locals,
       inelastic_locals r s' en = Ok li /\
       ilow li = ilow le /\ efrac li = efrac le) /\
  (forall li : locals,
     inelastic_locals r s' en = Ok li ->
     s <> 3%Z ->
     exists le : locals,
       elastic_locals r s en = Ok le /\
       ilow le = ilow li /\ efrac le = efrac li).
Proof.
  split.
  - intros le Hle. apply (interpolate_same_bin r _ _ en le Hle).
    assert (Hi : ilow le <= 57).
    { apply interpolate_ok_iff in Hle. destruct Hle as ((Hi & _) & _).
      exact Hi. }
    rewrite (select_icross_length s'). lia.
  - intros li Hli Hs. apply (interpolate_same_bin r _ _ en li Hli).
    assert (Hi : ilow li <= 57).
    { apply interpolate_ok_iff in Hli. destruct Hli as ((Hi & _) & _).
      exact Hi. }
    rewrite (select_ecross_length s Hs). lia.
Qed.

(** ** The selected bin, in double precision *)

Section Bins64.

Lemma ilow64_characterised (r : float) (i : nat) :
  spec_ilow r energy = i <->
  i <= 57 /\
  (i < 57 -> (r <=? E64 (i + 1))%float = true) /\
  (0 < i -> (r <=? E64 i)%float = false).
Proof.
  pose proof (spec_ilow_bound r energy) as Hb.
  destruct (spec_ilow_test r energy) as [Ht Hk].
  change (fun k => fleb r (nth (k + 1) energy (lit 0)))
    with (fun k => (r <=? E64 (k + 1))%float) in Hk.
  change (fleb r (nth (spec_ilow r energy + 1) energy (lit 0)))
    with (r <=? E64 (spec_ilow r energy + 1))%float in Ht.
  set (j := spec_ilow r energy) in *.
  split.
  - intros <-. repeat split; [exact Hb|exact Ht|].
    intros Hpos. specialize (Hk (j - 1) ltac:(lia)).
    replace (j - 1 + 1) with j in Hk by lia. exact Hk.
  - intros (Hi & Hup & Hdown).
    destruct (Nat.lt_trichotomy j i) as [Hlt|[Heq|Hgt]]; [|exact Heq|].
    + specialize (Ht ltac:(lia)). specialize (Hdown ltac:(lia)).
      rewrite (float_leb_trans r (E64 (j + 1)) (E64 i) Ht) in Hdown.
      * discriminate.
      * apply grid64_monotone. lia.
    + specialize (Hk i Hgt). specialize (Hup ltac:(lia)).
      change (fleb r (nth (i + 1) energy (lit 0)))
        with (r <=? E64 (i + 1))%float in Hk.
      congruence.
Qed.

End Bins64.

(** X4: in double precision, for every request (NaN and the infinities
    included) and every selector, the bin a lookup selects is told by the
    two edges of that bin alone: [ilow = i] exactly when the request is
    [<= energy[i+1]] (not asked of the last bin, [i = 57]) and is not
    [<= energy[i]] (not asked of the first bin, [i = 0]). *)
Theorem selected_bin_brackets_request (r : float) (s : Z) (i : nat) :
  (exists l : locals,
     inelastic_locals r s energy = Ok l /\
     (ilow l = i <->
      i <= 57 /\
      (i < 57 -> (r <=? E64 (i + 1))%float = true) /\
      (0 < i -> (r <=? E64 i)%float = false))) /\
  (forall l : locals,
     elastic_locals r s energy = Ok l ->
     (ilow l = i <->
      i <= 57 /\
      (i < 57 -> (r <=? E64 (i + 1))%float = true) /\
      (0 < i -> (r <=? E64 i)%float = false))).
Proof.
  destruct (lookups_in_range float binary64 r s) as [_ (li & Hi & _)].
  split.
  - exists li. split; [exact Hi|].
    destruct (locals_of_lookup r _ li Hi) as (-> & _).
    apply ilow64_characterised.
  - intros l Hl.
    destruct (locals_of_lookup r _ l Hl) as (-> & _).
    apply ilow64_characterised.
Qed.

(** ** The interpolation fraction, in units *)

Section Values64.
Local Open Scope Z_scope.

Lemma Val_Rnd (x : float) (V : Z) : Val x V -> Rnd x V.
Proof.
  unfold Val, Rnd. intros H. destruct H as [|m e Hv].
  - constructor. reflexivity.
  - constructor; [|reflexivity]. apply (valid_finite _ _ _ Hv).
Qed.

Lemma Val_zero : Val 0%float 0.
Proof. unfold Val. change (Prim2SF 0) with (S754_zero false). constructor. Qed.

Lemma Val_one : Val 1%float (2 ^ (- emin64)).
Proof.
  unfold Val.
  change (Prim2SF 1) with (S754_finite false 4503599627370496 (-52)).
  replace (2 ^ (- emin64)) with (sv 4503599627370496 (-52))
    by (vm_compute; reflexivity).
  constructor. reflexivity.
Qed.

Lemma unit_positive : 0 < 2 ^ (- emin64).
Proof. apply pow2_pos. discriminate. Qed.

Lemma unit_below_overflow : 2 ^ (- emin64) < OVF.
Proof.
  unfold OVF. apply Z.pow_lt_mono_r; [lia|discriminate|reflexivity].
Qed.

Lemma RoundV_nonneg (A B : Z) : 0 <= A -> 0 < B -> 0 <= RoundV A B.
Proof.
  intros HA HB. rewrite <- (RoundV_zero B HB).
  apply RoundV_numerator; lia.
Qed.

Lemma RoundV_unit (D : Z) : 0 < D -> RoundV (D * 2 ^ (- emin64)) D
                                   = 2 ^ (- emin64).
Proof.
  intros HD. pose proof unit_positive as Hu.
  rewrite (RoundV_ratio _ _ (1 * 2 ^ (- emin64)) 1) by nia.
  rewrite RoundV_exact; [lia|split; [lia|reflexivity]|discriminate].
Qed.

Lemma NF_finite_inv (m : positive) (e : Z) (V : Z) :
  NF (S754_finite false m e) V ->
  V = sv m e /\ valid_binary (S754_finite false m e) = true.
Proof. intros H. inversion H. subst. split; [reflexivity|assumption]. Qed.

(** A difference of two non-negative finite doubles, the smaller taken
    from the larger. *)
Lemma difference_Val (x y : float) (X Y : Z) :
  Val x X -> Val y Y -> Y <= X ->
  Val (x - y) (RoundV (X - Y) 1) /\ 0 <= RoundV (X - Y) 1 <= X.
Proof.
  intros Hx Hy Hle.
  pose proof (Val_bounds _ _ Hx) as Bx. pose proof (Val_bounds _ _ Hy) as By.
  assert (Hb : 0 <= RoundV (X - Y) 1 <= X).
  { split.
    - apply RoundV_nonneg; lia.
    - rewrite <- (Val_exact _ _ Hx) at 2. apply RoundV_numerator; lia. }
  split; [|exact Hb].
  apply Rnd_Val; [apply fsub_round; assumption|lia].
Qed.

(** The width of a bin. *)
Lemma width_Val (el eh : float) (XL XH : Z) :
  Val el XL -> Val eh XH -> XL <= XH ->
  positive_below_one (eh - el) = true ->
  Val (eh - el) (RoundV (XH - XL) 1) /\ 0 < RoundV (XH - XL) 1.
Proof.
  intros VL VH Hle Hd.
  destruct (difference_Val eh el XH XL VH VL Hle) as [VD _].
  split; [exact VD|].
  unfold Val, positive_below_one in *.
  destruct (Prim2SF (eh - el)) as [s|s| |s md ed]; try discriminate.
  destruct s; try discriminate.
  destruct (NF_finite_inv _ _ _ VD) as [-> Hv].
  apply sv_positive. apply (valid_finite _ _ _ Hv).
Qed.

(** The fraction of a request inside the bin. *)
Lemma fraction_Val (el eh r : float) (XL XH X : Z) :
  Val el XL -> Val eh XH -> Val r X -> XL <= X <= XH ->
  positive_below_one (eh - el) = true ->
  Val ((r - el) / (eh - el)) (fraction_units XL XH X) /\
  0 <= fraction_units XL XH X <= 2 ^ (- emin64).
Proof.
  intros VL VH VX HX Hd. pose proof unit_positive as Hu.
  destruct (width_Val el eh XL XH VL VH ltac:(lia) Hd) as [VD HD].
  destruct (difference_Val r el X XL VX VL ltac:(lia)) as [VU HU].
  assert (HUD : RoundV (X - XL) 1 <= RoundV (XH - XL) 1)
    by (apply RoundV_numerator; lia).
  assert (Hb : 0 <= fraction_units XL XH X <= 2 ^ (- emin64)).
  { unfold fraction_units. split.
    - apply RoundV_nonneg; [nia|exact HD].
    - rewrite <- (RoundV_unit _ HD) at 2.
      apply RoundV_numerator; [|exact HD]. split; [nia|].
      apply Z.mul_le_mono_nonneg_r; lia. }
  split; [|exact Hb].
  apply Rnd_Val.
  - apply fdiv_round; assumption.
  - pose proof unit_below_overflow. lia.
Qed.

(** The fraction of a finite request at or above the upper edge. *)
Lemma fraction_above (el eh r : float) (XL XH X : Z) :
  Val el XL -> Val eh XH -> Val r X -> XL <= XH -> XH <= X ->
  positive_below_one (eh - el) = true ->
  Rnd ((r - el) / (eh - el)) (fraction_units XL XH X) /\
  2 ^ (- emin64) <= fraction_units XL XH X.
Proof.
  intros VL VH VX HLH HX Hd. pose proof unit_positive as Hu.
  destruct (width_Val el eh XL XH VL VH HLH Hd) as [VD HD].
  destruct (difference_Val r el X XL VX VL ltac:(lia)) as [VU HU].
  assert (HUD : RoundV (XH - XL) 1 <= RoundV (X - XL) 1)
    by (apply RoundV_numerator; lia).
  split.
  - apply fdiv_round; assumption.
  - unfold fraction_units. rewrite <- (RoundV_unit _ HD) at 1.
    apply RoundV_numerator; [|exact HD]. split; [nia|].
    apply Z.mul_le_mono_nonneg_r; lia.
Qed.

Lemma fraction_units_monotone (XL XH X1 X2 : Z) :
  XL <= X1 <= X2 -> 0 < RoundV (XH - XL) 1 ->
  fraction_units XL XH X1 <= fraction_units XL XH X2.
Proof.
  intros HX HD. pose proof unit_positive as Hu. unfold fraction_units.
  assert (H0 : 0 <= RoundV (X1 - XL) 1) by (apply RoundV_nonneg; lia).
  assert (H12 : RoundV (X1 - XL) 1 <= RoundV (X2 - XL) 1)
    by (apply RoundV_numerator; lia).
  apply RoundV_numerator; [|exact HD]. split; [nia|].
  apply Z.mul_le_mono_nonneg_r; lia.
Qed.

(** The energies of the table, in units. *)
Lemma grid64_Val (i : nat) :
  (i <= 58)%nat -> exists V : Z, 0 < V /\ Val (E64 i) V.
Proof.
  intros Hi. apply positive_finite_Val. apply grid64_positive_finite. exact Hi.
Qed.

(** A request inside the table, in units. *)
Lemma request_Val (r : float) :
  (E64 0 <=? r)%float = true -> (r <=? E64 58)%float = true ->
  exists X : Z, 0 < X /\ Val r X.
Proof.
  intros H0 H58. apply positive_finite_Val.
  apply (between_positive_finite (E64 0) (E64 58)); try assumption;
    apply grid64_positive_finite; lia.
Qed.

(** Inside the table the fraction of the selected bin is between 0 and 1. *)
Lemma efrac64_unit_interval (r : float) :
  (E64 0 <=? r)%float = true -> (r <=? E64 58)%float = true ->
  (0 <=? spec_efrac r energy)%float = true /\
  (spec_efrac r energy <=? 1)%float = true.
Proof.
  intros H0 H58.
  pose proof (spec_ilow_bound r energy) as Hb.
  destruct (ilow64_bracket r H0 H58) as (Hlo & Hhi & _).
  rewrite efrac64. set (i := spec_ilow r energy) in *.
  destruct (grid64_Val i ltac:(lia)) as (XL & HXL & VL).
  destruct (grid64_Val (i + 1) ltac:(lia)) as (XH & HXH & VH).
  destruct (request_Val r H0 H58) as (X & HX & VX).
  rewrite (Val_leb _ _ _ _ VL VX) in Hlo. apply Z.leb_le in Hlo.
  rewrite (Val_leb _ _ _ _ VX VH) in Hhi. apply Z.leb_le in Hhi.
  destruct (fraction_Val (E64 i) (E64 (i + 1)) r XL XH X VL VH VX
              ltac:(lia) (grid64_width_below_one i Hb)) as [VF HF].
  rewrite (Val_leb _ _ _ _ Val_zero VF), (Val_leb _ _ _ _ VF Val_one).
  split; apply Z.leb_le; lia.
Qed.

End Values64.

(** X5: in double precision, for every request inside
    [[energy[0], energy[58]]] and every selector, the interpolation
    fraction a lookup computes satisfies [0 <= efrac <= 1], roundings
    included: inside the table nothing is extrapolated. *)
Theorem fraction_within_unit_interval (r : float) (s : Z) :
  (E64 0 <=? r)%float = true -> (r <=? E64 58)%float = true ->
  (exists l : locals,
     inelastic_locals r s energy = Ok l /\
     (0 <=? efrac l)%float = true /\ (efrac l <=? 1)%float = true) /\
  (forall l : locals,
     elastic_locals r s energy = Ok l ->
     (0 <=? efrac l)%float = true /\ (efrac l <=? 1)%float = true).
Proof.
  intros H0 H58.
  destruct (lookups_in_range float binary64 r s) as [_ (li & Hi & _)].
  split.
  - exists li. split; [exact Hi|].
    destruct (locals_of_lookup r _ li Hi) as (_ & -> & _).
    apply efrac64_unit_interval; assumption.
  - intros l Hl.
    destruct (locals_of_lookup r _ l Hl) as (_ & -> & _).
    apply efrac64_unit_interval; assumption.
Qed.

Lemma fraction_within_unit_interval_witness :
  ((E64 0 <=? lit 0.0525)%float = true /\
   (lit 0.0525 <=? E64 58)%float = true) /\
  (exists l : locals,
     inelastic_locals (lit 0.0525) 4 energy = Ok l /\
     (0 <=? efrac l)%float = true /\ (efrac l <=? 1)%float = true) /\
  (forall l : locals,
     elastic_locals (lit 0.0525) 4 energy = Ok l ->
     (0 <=? efrac l)%float = true /\ (efrac l <=? 1)%float = true).
Proof.
  assert (H0 : (E64 0 <=? lit 0.0525)%float = true) by reflexivity.
  assert (H58 : (lit 0.0525 <=? E64 58)%float = true) by reflexivity.
  split; [auto|].
  exact (fraction_within_unit_interval (lit 0.0525) 4 H0 H58).
Defined.

(** ** Above the table *)

Section Above64.

(** What is at or above a positive finite double. *)
Lemma above_positive_finite (c r : float) :
  positive_finite c = true -> (c <=? r)%float = true ->
  positive_finite r = true \/ r = infinity.
Proof.
  unfold positive_finite. rewrite FloatAxioms.leb_spec.
  destruct (Prim2SF c) as [sc|sc| |sc mc ec]; try discriminate.
  destruct sc; try discriminate. intros _.
  destruct (Prim2SF r) as [[|]|[|]| |[|] m e] eqn:Er; try discriminate.
  - intros _. right. apply Prim2SF_inj. rewrite Er. reflexivity.
  - intros _. left. reflexivity.
Qed.

Lemma ilow64_above (r : float) :
  (E64 58 <=? r)%float = true -> spec_ilow r energy = 57.
Proof.
  intros Hr. apply ilow64_last.
  destruct (r <=? E64 57)%float eqn:H57; [|reflexivity].
  pose proof (float_leb_trans _ _ _ Hr H57) as Habs.
  vm_compute in Habs. discriminate.
Qed.

(** At or above [energy[58]] the fraction of the last bin is at least 1. *)
Lemma efrac64_above (r : float) :
  (E64 58 <=? r)%float = true ->
  (1 <=? (r - E64 57) / (E64 58 - E64 57))%float = true.
Proof.
  intros Hr.
  destruct (above_positive_finite (E64 58) r
              (grid64_positive_finite 58 ltac:(lia)) Hr) as [Hfin| ->].
  - destruct (grid64_Val 57 ltac:(lia)) as (XL & HXL & VL).
    destruct (grid64_Val 58 ltac:(lia)) as (XH & HXH & VH).
    destruct (positive_finite_Val r Hfin) as (X & HX & VX).
    rewrite (Val_leb _ _ _ _ VH VX) in Hr. apply Z.leb_le in Hr.
    assert (HLH : (XL <= XH)%Z).
    { apply Z.leb_le. rewrite <- (Val_leb _ _ _ _ VL VH).
      apply grid64_monotone. lia. }
    destruct (fraction_above (E64 57) (E64 58) r XL XH X VL VH VX HLH Hr
                (grid64_width_below_one 57 ltac:(lia))) as [RF HF].
    apply (Rnd_leb _ _ _ _ (Val_Rnd _ _ Val_one) RF HF).
  - vm_compute. reflexivity.
Qed.

(** At or above [energy[58]] both lookups work in the last bin. *)
Lemma locals_above_table (r : float) (s : Z) :
  (E64 58 <=? r)%float = true ->
  let f := ((r - E64 57) / (E64 58 - E64 57))%float in
  let ec := select_ecross s in
  let ic := select_icross s in
  inelastic_locals r s energy =
    Ok (mkLocals 57 f
          (nth 57 ic (lit 0)
           + f * (nth 58 ic (lit 0) - nth 57 ic (lit 0)))%float) /\
  (s <> 3%Z ->
   elastic_locals r s energy =
     Ok (mkLocals 57 f
           (nth 57 ec (lit 0)
            + f * (nth 58 ec (lit 0) - nth 57 ec (lit 0)))%float)).
Proof.
  intros Hr f ec ic. pose proof (ilow64_above r Hr) as Hi. split.
  - unfold inelastic_locals.
    rewrite (interpolate_in_range r (select_icross s) (lit 0))
      by (rewrite Hi, (select_icross_length s); lia).
    unfold spec_efrac. rewrite Hi. reflexivity.
  - intros Hs. unfold elastic_locals.
    rewrite (interpolate_in_range r (select_ecross s) (lit 0))
      by (rewrite Hi, (select_ecross_length s Hs); lia).
    unfold spec_efrac. rewrite Hi. reflexivity.
Qed.

End Above64.

(** X6: in double precision, for every request at or above [energy[58]] =
    2.5 GeV, plus infinity included, and every selector: the scan ends at
    the default [ilow = 57], the fraction
    [(r - energy[57]) / (energy[58] - energy[57])] is at least 1 and is not
    clamped, and the value is
    [curve[57] + efrac * (curve[58] - curve[57])], an extrapolation of the
    last bin.  The inelastic lookup returns it for every selector, the
    elastic one for every selector but 3. *)
Theorem above_table_extrapolates (r : float) (s : Z) :
  (lit 2.5 <=? r)%float = true ->
  let f := ((r - lit 2.0) / (lit 2.5 - lit 2.0))%float in
  let ec := select_ecross s in
  let ic := select_icross s in
  (1 <=? f)%float = true /\
  inelastic_locals r s energy =
    Ok (mkLocals 57 f
          (nth 57 ic (lit 0)
           + f * (nth 58 ic (lit 0) - nth 57 ic (lit 0)))%float) /\
  get_inelastic_crosssection r s energy =
    Ok (nth 57 ic (lit 0)
        + f * (nth 58 ic (lit 0) - nth 57 ic (lit 0)))%float /\
  (s <> 3%Z ->
   elastic_locals r s energy =
     Ok (mkLocals 57 f
           (nth 57 ec (lit 0)
            + f * (nth 58 ec (lit 0) - nth 57 ec (lit 0)))%float) /\
   get_elastic_crosssection r s energy =
     Ok (nth 57 ec (lit 0)
         + f * (nth 58 ec (lit 0) - nth 57 ec (lit 0)))%float).
Proof.
  intros Hr f ec ic.
  change (lit 2.5) with (E64 58) in Hr.
  destruct (locals_above_table r s Hr) as [Hil Hel].
  split; [exact (efrac64_above r Hr)|]. split; [exact Hil|]. split.
  - unfold get_inelastic_crosssection. rewrite Hil. reflexivity.
  - intros Hs. split; [exact (Hel Hs)|].
    unfold get_elastic_crosssection. rewrite (Hel Hs). reflexivity.
Qed.

Lemma above_table_extrapolates_witness :
  (lit 2.5 <=? lit 10.0)%float = true /\
  let f := ((lit 10.0 - lit 2.0) / (lit 2.5 - lit 2.0))%float in
  let ec := select_ecross 7 in
  let ic := select_icross 7 in
  (1 <=? f)%float = true /\
  inelastic_locals (lit 10.0) 7 energy =
    Ok (mkLocals 57 f
          (nth 57 ic (lit 0)
           + f * (nth 58 ic (lit 0) - nth 57 ic (lit 0)))%float) /\
  get_inelastic_crosssection (lit 10.0) 7 energy =
    Ok (nth 57 ic (lit 0)
        + f * (nth 58 ic (lit 0) - nth 57 ic (lit 0)))%float /\
  (7 <> 3 ->
   elastic_locals (lit 10.0) 7 energy =
     Ok (mkLocals 57 f
           (nth 57 ec (lit 0)
            + f * (nth 58 ec (lit 0) - nth 57 ec (lit 0)))%float) /\
   get_elastic_crosssection (lit 10.0) 7 energy =
     Ok (nth 57 ec (lit 0)
         + f * (nth 58 ec (lit 0) - nth 57 ec (lit 0)))%float)%Z.
Proof.
  split; [reflexivity | apply (above_table_extrapolates (lit 10.0) 7)].
  reflexivity.
Defined.

(** ** Signs: a falling bin is a rising bin read downwards *)

Section Signs64.
Local Open Scope Z_scope.

Lemma SFopp_involutive (x : spec_float) : SFopp (SFopp x) = x.
Proof. destruct x as [s|s| |s m e]; try destruct s; reflexivity. Qed.

(** Rounding is symmetric: the sign goes through it. *)
Lemma binary_round_aux_opp (m e : Z) (l : location) :
  binary_round_aux prec emax true m e l
  = SFopp (binary_round_aux prec emax false m e l).
Proof.
  unfold binary_round_aux.
  destruct (shr_fexp prec emax m e l) as [mrs' e'].
  destruct (shr_fexp prec emax _ e' loc_Exact) as [mrs'' e''].
  destruct (shr_m mrs''); try reflexivity.
  destruct (e'' <=? emax - prec); reflexivity.
Qed.

Lemma binary_round_aux_sign_opp (s : bool) (m e : Z) (l : location) :
  binary_round_aux prec emax (negb s) m e l
  = SFopp (binary_round_aux prec emax s m e l).
Proof.
  destruct s; cbn [negb].
  - rewrite binary_round_aux_opp, SFopp_involutive. reflexivity.
  - apply binary_round_aux_opp.
Qed.

Lemma binary_round_opp (m : positive) (e : Z) :
  binary_round prec emax true m e = SFopp (binary_round prec emax false m e).
Proof.
  unfold binary_round.
  destruct (shl_align m e (fexp prec emax (Zpos (digits2_pos m) + e)))
    as [mz ez].
  apply binary_round_aux_opp.
Qed.

(** [x + (-y)] is [x - y], for all doubles. *)
Lemma SFadd_opp (x y : spec_float) :
  SFadd prec emax x (SFopp y) = SFsub prec emax x y.
Proof.
  destruct x as [sx|sx| |sx mx ex], y as [sy|sy| |sy my ey];
    try reflexivity; destruct sx, sy; reflexivity.
Qed.

(** [x * (-y)] is [-(x * y)], for all doubles. *)
Lemma SFmul_opp_r (x y : spec_float) :
  SFmul prec emax x (SFopp y) = SFopp (SFmul prec emax x y).
Proof.
  destruct x as [sx|sx| |sx mx ex], y as [sy|sy| |sy my ey];
    cbn [SFopp SFmul]; try reflexivity;
    try (destruct sx, sy; reflexivity).
  replace (xorb sx (negb sy)) with (negb (xorb sx sy))
    by (destruct sx, sy; reflexivity).
  apply binary_round_aux_sign_opp.
Qed.

(** [(-x) / y] is [-(x / y)], for all doubles. *)
Lemma SFdiv_opp_l (x y : spec_float) :
  SFdiv prec emax (SFopp x) y = SFopp (SFdiv prec emax x y).
Proof.
  destruct x as [sx|sx| |sx mx ex], y as [sy|sy| |sy my ey];
    cbn [SFopp SFdiv]; try reflexivity;
    try (destruct sx, sy; reflexivity).
  destruct (SFdiv_core_binary prec emax (Zpos mx) ex (Zpos my) ey)
    as [[q e'] l].
  replace (xorb (negb sx) sy) with (negb (xorb sx sy))
    by (destruct sx, sy; reflexivity).
  apply binary_round_aux_sign_opp.
Qed.

(** Taking the larger from the smaller. *)
Lemma SFsub_swap (x y : spec_float) (X Y : Z) :
  NF x X -> NF y Y -> X < Y ->
  SFsub prec emax x y = SFopp (SFsub prec emax y x).
Proof.
  intros Hx Hy Hlt. destruct Hy as [|my ey Hy].
  - pose proof (NF_bounds _ _ Hx). lia.
  - destruct Hx as [|mx ex Hx]; [reflexivity|].
    destruct (valid_finite _ _ _ Hx) as (Hex & _ & _).
    destruct (valid_finite _ _ _ Hy) as (Hey & _ & _).
    unfold SFsub. change IntDef.Z.min with Z.min. unfold cond_Zopp.
    rewrite !shl_align_mantissa.
    replace (Z.min ey ex) with (Z.min ex ey) by lia.
    set (ez := Z.min ex ey).
    replace (Z.min ex ez) with ez by lia.
    replace (Z.min ey ez) with ez by lia.
    assert (Hez : emin64 <= ez) by lia.
    pose proof (pow2_pos (ez - emin64) ltac:(lia)) as Hp.
    pose proof (sv_aligned mx ex ez Hez ltac:(lia)) as Hvx.
    pose proof (sv_aligned my ey ez Hez ltac:(lia)) as Hvy.
    set (a := Zpos mx * 2 ^ (ex - ez)) in *.
    set (b := Zpos my * 2 ^ (ey - ez)) in *.
    assert (Hab : 0 < b - a) by nia.
    destruct (b - a) as [|p|p] eqn:Ep; try lia.
    replace (a - b) with (Zneg p) by lia.
    cbn [binary_normalize]. apply binary_round_opp.
Qed.

(** Over a falling bin the lookup computes [cl - e * (cl - ch)], for every
    fraction [e]. *)
Lemma bin64_falling_form (cl ch e : float) (CL CH : Z) :
  Val cl CL -> Val ch CH -> CH < CL ->
  (cl + e * (ch - cl))%float = (cl - e * (cl - ch))%float.
Proof.
  intros Vcl Vch Hlt. apply Prim2SF_inj.
  rewrite FloatAxioms.add_spec, FloatAxioms.mul_spec, FloatAxioms.sub_spec.
  rewrite (FloatAxioms.sub_spec cl), FloatAxioms.mul_spec,
    (FloatAxioms.sub_spec cl ch).
  unfold SF64add, SF64mul, SF64sub.
  rewrite (SFsub_swap _ _ CH CL Vch Vcl Hlt).
  rewrite SFmul_opp_r. apply SFadd_opp.
Qed.

(** A product by a fraction between 0 and 1. *)
Lemma product_Val (e g : float) (Fv G : Z) :
  Val e Fv -> Val g G -> Fv <= 2 ^ (- emin64) ->
  Val (e * g) (RoundV (Fv * G) (2 ^ (- emin64))) /\
  0 <= RoundV (Fv * G) (2 ^ (- emin64)) <= G.
Proof.
  intros Ve Vg HF. pose proof unit_positive as Hu.
  pose proof (Val_bounds _ _ Ve) as Be. pose proof (Val_bounds _ _ Vg) as Bg.
  assert (Hb : 0 <= RoundV (Fv * G) (2 ^ (- emin64)) <= G).
  { split.
    - apply RoundV_nonneg; [nia|exact Hu].
    - rewrite <- (Val_exact _ _ Vg) at 2.
      assert (H0 : 0 <= Fv * G) by nia.
      assert (Hc : Fv * G * 1 <= G * 2 ^ (- emin64)).
      { rewrite Z.mul_1_r, (Z.mul_comm G).
        apply Z.mul_le_mono_nonneg_r; lia. }
      apply RoundV_monotone; lia. }
  split; [|exact Hb].
  apply Rnd_Val; [apply fmul_round; assumption|lia].
Qed.

(** The value over a rising bin. *)
Lemma bin64_rising_Rnd (cl ch e : float) (CL CH Fv : Z) :
  Val cl CL -> Val ch CH -> CL <= CH ->
  Val e Fv -> Fv <= 2 ^ (- emin64) ->
  Rnd (cl + e * (ch - cl)) (rising_units CL CH Fv).
Proof.
  intros Vcl Vch Hle Ve HF.
  destruct (difference_Val ch cl CH CL Vch Vcl Hle) as [Vg _].
  destruct (product_Val _ _ _ _ Ve Vg HF) as [Vp _].
  unfold rising_units. apply fadd_round; assumption.
Qed.

(** The value over a bin that does not rise: it is finite and between 0
    and the lower curve point. *)
Lemma bin64_falling_Val (cl ch e : float) (CL CH Fv : Z) :
  Val cl CL -> Val ch CH -> CH <= CL ->
  Val e Fv -> Fv <= 2 ^ (- emin64) ->
  Val (cl + e * (ch - cl)) (falling_units CL CH Fv).
Proof.
  intros Vcl Vch Hle Ve HF.
  destruct (Z.eq_dec CH CL) as [Heq|Hne].
  - (* a flat bin *)
    subst CH.
    pose proof (bin64_rising_Rnd cl ch e CL CL Fv Vcl Vch ltac:(lia) Ve HF)
      as HR.
    unfold rising_units in HR. unfold falling_units.
    rewrite Z.sub_diag in *.
    rewrite (RoundV_zero 1) in * by lia.
    rewrite Z.mul_0_r in *.
    rewrite (RoundV_zero (2 ^ (- emin64)) unit_positive) in *.
    rewrite Z.add_0_r in HR. rewrite Z.sub_0_r.
    apply Rnd_Val; [exact HR|].
    rewrite (Val_exact _ _ Vcl). apply (Val_bounds _ _ Vcl).
  - rewrite (bin64_falling_form cl ch e CL CH Vcl Vch ltac:(lia)).
    destruct (difference_Val cl ch CL CH Vcl Vch Hle) as [Vg Hg].
    destruct (product_Val _ _ _ _ Ve Vg HF) as [Vp Hp].
    unfold falling_units.
    apply (difference_Val cl (e * (cl - ch)) CL _ Vcl Vp). lia.
Qed.

Lemma falling_units_antitone (CL CH F1 F2 : Z) :
  0 <= CH <= CL -> 0 <= F1 <= F2 -> F2 <= 2 ^ (- emin64) ->
  RoundV CL 1 = CL ->
  RoundV (RoundV (CL - CH) 1) 1 = RoundV (CL - CH) 1 ->
  falling_units CL CH F2 <= falling_units CL CH F1.
Proof.
  intros HC HF HF2 Hexact Hidem. pose proof unit_positive as Hu.
  unfold falling_units.
  set (G := RoundV (CL - CH) 1) in *.
  assert (HG : 0 <= G <= CL).
  { unfold G. split; [apply RoundV_nonneg; lia|].
    rewrite <- Hexact at 2. apply RoundV_numerator; lia. }
  assert (HP : RoundV (F1 * G) (2 ^ (- emin64))
               <= RoundV (F2 * G) (2 ^ (- emin64))).
  { apply RoundV_numerator; [|exact Hu]. split; [nia|].
    apply Z.mul_le_mono_nonneg_r; lia. }
  assert (HP2 : RoundV (F2 * G) (2 ^ (- emin64)) <= G).
  { apply Z.le_trans with (RoundV (2 ^ (- emin64) * G) (2 ^ (- emin64))).
    - apply RoundV_numerator; [|exact Hu]. split; [nia|].
      apply Z.mul_le_mono_nonneg_r; lia.
    - rewrite (RoundV_ratio _ _ G 1) by nia. lia. }
  apply RoundV_numerator; lia.
Qed.

End Signs64.

(** ** Bins over which a curve does not rise *)

Section Falling64.

(** Within one bin over which the curve does not rise, the interpolated
    value goes down as the request goes up. *)
Lemma bin64_antitone (el eh cl ch r1 r2 : float) :
  positive_finite el = true -> positive_finite eh = true ->
  positive_below_one (eh - el) = true ->
  finite_not_negative cl = true -> finite_not_negative ch = true ->
  (ch <=? cl)%float = true ->
  (el <=? r1)%float = true -> (r1 <=? r2)%float = true ->
  (r2 <=? eh)%float = true ->
  (bin64 el eh cl ch r2 <=? bin64 el eh cl ch r1)%float = true.
Proof.
  intros Hel Heh Hd Hcl Hch Hc H1 H12 H2.
  destruct (positive_finite_Val el Hel) as (XL & HXL & VL).
  destruct (positive_finite_Val eh Heh) as (XH & HXH & VH).
  destruct (finite_not_negative_Val cl Hcl) as (CL & VCL).
  destruct (finite_not_negative_Val ch Hch) as (CH & VCH).
  assert (Hr1 : positive_finite r1 = true).
  { apply (between_positive_finite el eh); try assumption.
    apply float_leb_trans with r2; assumption. }
  assert (Hr2 : positive_finite r2 = true).
  { apply (between_positive_finite el eh); try assumption.
    apply float_leb_trans with r1; assumption. }
  destruct (positive_finite_Val r1 Hr1) as (X1 & HX1 & V1).
  destruct (positive_finite_Val r2 Hr2) as (X2 & HX2 & V2).
  rewrite (Val_leb _ _ _ _ VL V1) in H1. apply Z.leb_le in H1.
  rewrite (Val_leb _ _ _ _ V1 V2) in H12. apply Z.leb_le in H12.
  rewrite (Val_leb _ _ _ _ V2 VH) in H2. apply Z.leb_le in H2.
  rewrite (Val_leb _ _ _ _ VCH VCL) in Hc. apply Z.leb_le in Hc.
  destruct (width_Val el eh XL XH VL VH ltac:(lia) Hd) as [_ HD].
  destruct (fraction_Val el eh r1 XL XH X1 VL VH V1 ltac:(lia) Hd)
    as [VF1 HF1].
  destruct (fraction_Val el eh r2 XL XH X2 VL VH V2 ltac:(lia) Hd)
    as [VF2 HF2].
  pose proof (fraction_units_monotone XL XH X1 X2 ltac:(lia) HD) as HF.
  pose proof (bin64_falling_Val cl ch _ CL CH _ VCL VCH Hc VF1
                (proj2 HF1)) as R1.
  pose proof (bin64_falling_Val cl ch _ CL CH _ VCL VCH Hc VF2
                (proj2 HF2)) as R2.
  unfold bin64. rewrite (Val_leb _ _ _ _ R2 R1). apply Z.leb_le.
  destruct (difference_Val cl ch CL CH VCL VCH Hc) as [Vg _].
  pose proof (Val_bounds _ _ VCH).
  apply falling_units_antitone; try lia.
  - apply (Val_exact _ _ VCL).
  - apply (Val_exact _ _ Vg).
Qed.

(** The curves a selector denotes are those of one of the eight
    selectors [0..7]. *)
Lemma curves_of_selector (s : Z) :
  exists k : nat,
    k <= 7 /\ (s = 3%Z <-> k = 3) /\
    select_ecross (F := float) s = select_ecross (Z.of_nat k) /\
    select_icross (F := float) s = select_icross (Z.of_nat k).
Proof.
  destruct (Z_le_gt_dec 0 s) as [H0|H0];
    [destruct (Z_le_gt_dec s 6) as [H6|H6]|].
  - exists (Z.to_nat s). rewrite Z2Nat.id by lia.
    split; [lia|]. split; [lia|auto].
  - exists 7.
    destruct (accessors_compat (F := float) s)
      as (_ & _ & _ & _ & -> & ->).
    unfold compat_properties.
    replace ((0 <=? s) && (s <=? 6))%Z with false
      by (symmetry; apply andb_false_iff; right; apply Z.leb_gt; lia).
    split; [lia|]. split; [lia|split; reflexivity].
  - exists 7.
    destruct (accessors_compat (F := float) s)
      as (_ & _ & _ & _ & -> & ->).
    unfold compat_properties.
    replace ((0 <=? s) && (s <=? 6))%Z with false
      by (symmetry; apply andb_false_iff; left; apply Z.leb_gt; lia).
    split; [lia|]. split; [lia|split; reflexivity].
Qed.

(** Every bin of every curve passes the two checks. *)
Lemma falling_bins_checked (s : Z) (xc : list float) (j : nat) :
  xc = select_ecross s \/ xc = select_icross s ->
  j <= 57 ->
  falling_bin_check xc j = true /\ boundary_check xc j = true.
Proof.
  intros Hxc Hj.
  assert (Hall : forallb
            (fun k => forallb
               (fun i =>
                  falling_bin_check (select_ecross (Z.of_nat k)) i
                  && boundary_check (select_ecross (Z.of_nat k)) i
                  && falling_bin_check (select_icross (Z.of_nat k)) i
                  && boundary_check (select_icross (Z.of_nat k)) i)
               (seq 0 58))
            (seq 0 8) = true) by (vm_compute; reflexivity).
  rewrite forallb_forall in Hall.
  destruct (curves_of_selector s) as (k & Hk & _ & He & Hi).
  rewrite He, Hi in Hxc.
  assert (Hink : In k (seq 0 8)) by (apply in_seq; lia).
  specialize (Hall k Hink). rewrite forallb_forall in Hall.
  assert (Hinj : In j (seq 0 58)) by (apply in_seq; lia).
  specialize (Hall j Hinj).
  apply andb_true_iff in Hall. destruct Hall as [Hall H4].
  apply andb_true_iff in Hall. destruct Hall as [Hall H3].
  apply andb_true_iff in Hall. destruct Hall as [H1 H2].
  destruct Hxc as [-> | ->]; split; assumption.
Qed.

(** Doubles that are finite and not negative are totally ordered. *)
Lemma finite_not_negative_total (x y : float) :
  finite_not_negative x = true -> finite_not_negative y = true ->
  (x <=? y)%float = false -> (y <=? x)%float = true.
Proof.
  intros Hx Hy.
  destruct (finite_not_negative_Val x Hx) as (X & VX).
  destruct (finite_not_negative_Val y Hy) as (Y & VY).
  rewrite (Val_leb _ _ _ _ VX VY), (Val_leb _ _ _ _ VY VX).
  intros H. apply Z.leb_gt in H. apply Z.leb_le. lia.
Qed.

Lemma finite_not_negative_above_zero (x : float) :
  finite_not_negative x = true -> (0 <=? x)%float = true.
Proof.
  intros Hx. destruct (finite_not_negative_Val x Hx) as (X & VX).
  rewrite (Val_leb _ _ _ _ Val_zero VX). apply Z.leb_le.
  apply (Val_bounds _ _ VX).
Qed.

(** The facts of the two checks about bin [i] of a curve. *)
Lemma bin_facts (s : Z) (xc : list float) (i : nat) (c c' : float) :
  xc = select_ecross s \/ xc = select_icross s ->
  i <= 57 ->
  nth_error xc i = Some c -> nth_error xc (i + 1) = Some c' ->
  let f := bin64 (E64 i) (E64 (i + 1)) c c' in
  finite_not_negative c = true /\ finite_not_negative c' = true /\
  (f (E64 (i + 1)) <=? c')%float = true /\
  (c <=? f (E64 i))%float = true /\
  ((c' <=? c)%float = true ->
   (c' <=? f (E64 (i + 1)))%float = true /\
   (f (E64 i) <=? c)%float = true).
Proof.
  intros Hxc Hi Hc Hc' f.
  assert (Hb : bin_check xc i = true).
  { destruct (bins_checked s i Hi) as [He Hin].
    destruct Hxc as [-> | ->]; assumption. }
  destruct (falling_bins_checked s xc i Hxc Hi) as [Hf _].
  unfold bin_check in Hb. unfold falling_bin_check in Hf.
  rewrite Hc, Hc' in Hb, Hf. fold f in Hb, Hf.
  apply andb_true_iff in Hb. destruct Hb as [Hb T3].
  apply andb_true_iff in Hb. destruct Hb as [Hb T2].
  apply andb_true_iff in Hb. destruct Hb as [T0 T1].
  repeat split; try assumption.
  - rewrite H in Hf. cbn [implb] in Hf.
    apply andb_true_iff in Hf. apply Hf.
  - rewrite H in Hf. cbn [implb] in Hf.
    apply andb_true_iff in Hf. apply Hf.
Qed.

(** Inside the table a value that is returned lies between the two curve
    points of its bin, and is not negative. *)
Lemma interpolate_between (s : Z) (xc : list float) (r : float)
    (l : locals) :
  xc = select_ecross s \/ xc = select_icross s ->
  (E64 0 <=? r)%float = true -> (r <=? E64 58)%float = true ->
  interpolate r xc energy = Ok l ->
  between_neighbours xc l.
Proof.
  intros Hxc H0 H58 Hl.
  destruct (locals_of_lookup r xc l Hl)
    as (Hi & Hf & c & c' & Hc & Hc' & Hv).
  pose proof (spec_ilow_bound r energy) as Hb.
  destruct (ilow64_bracket r H0 H58) as (Hlo & Hhi & _).
  rewrite Hf, efrac64 in Hv. rewrite <- Hi in *.
  set (i := ilow l) in *.
  change (cross_section l = bin64 (E64 i) (E64 (i + 1)) c c' r) in Hv.
  destruct (bin_facts s xc i c c' Hxc Hb Hc Hc')
    as (T0 & T1 & T2 & T3 & Tf).
  set (f := bin64 (E64 i) (E64 (i + 1)) c c') in *.
  assert (Hpl : positive_finite (E64 i) = true)
    by (apply grid64_positive_finite; lia).
  assert (Hph : positive_finite (E64 (i + 1)) = true)
    by (apply grid64_positive_finite; lia).
  pose proof (grid64_width_below_one i Hb) as Hw.
  assert (Hll : (E64 i <=? E64 i)%float = true)
    by (apply grid64_monotone; lia).
  assert (Hhh : (E64 (i + 1) <=? E64 (i + 1))%float = true)
    by (apply grid64_monotone; lia).
  assert (Hlh : (E64 i <=? E64 (i + 1))%float = true)
    by (apply grid64_monotone; lia).
  exists c, c'. split; [exact Hc|]. split; [exact Hc'|]. rewrite Hv.
  destruct (c <=? c')%float eqn:Hrise.
  - assert (Hlow : (c <=? f r)%float = true).
    { apply float_leb_trans with (f (E64 i)); [exact T3|].
      apply bin64_monotone; assumption. }
    assert (Hupp : (f r <=? c')%float = true).
    { apply float_leb_trans with (f (E64 (i + 1))); [|exact T2].
      apply bin64_monotone; assumption. }
    split; [|left; split; assumption].
    apply float_leb_trans with c; [|exact Hlow].
    apply finite_not_negative_above_zero. exact T0.
  - pose proof (finite_not_negative_total c c' T0 T1 Hrise) as Hfall.
    destruct (Tf Hfall) as [T2' T3'].
    assert (Hlow : (c' <=? f r)%float = true).
    { apply float_leb_trans with (f (E64 (i + 1))); [exact T2'|].
      apply bin64_antitone; assumption. }
    assert (Hupp : (f r <=? c)%float = true).
    { apply float_leb_trans with (f (E64 i)); [|exact T3'].
      apply bin64_antitone; assumption. }
    split; [|right; split; assumption].
    apply float_leb_trans with c'; [|exact Hlow].
    apply finite_not_negative_above_zero. exact T1.
Qed.

End Falling64.

(** X7: in double precision, for every request inside
    [[energy[0], energy[58]]] and every selector, the value a lookup
    returns lies between the two tabulated curve points of the selected
    bin, [curve[ilow]] and [curve[ilow+1]], whichever is the larger, and
    is not negative: inside the table the interpolation never overshoots,
    roundings included. *)
Theorem lookup_between_neighbours (r : float) (s : Z) :
  (E64 0 <=? r)%float = true -> (r <=? E64 58)%float = true ->
  (exists l : locals,
     inelastic_locals r s energy = Ok l /\
     between_neighbours (select_icross s) l) /\
  (forall l : locals,
     elastic_locals r s energy = Ok l ->
     between_neighbours (select_ecross s) l).
Proof.
  intros H0 H58.
  destruct (lookups_in_range float binary64 r s) as [_ (li & Hi & _)].
  split.
  - exists li. split; [exact Hi|].
    apply (interpolate_between s _ r li (or_intror eq_refl) H0 H58 Hi).
  - intros l Hl.
    apply (interpolate_between s _ r l (or_introl eq_refl) H0 H58 Hl).
Qed.

Lemma lookup_between_neighbours_witness :
  ((E64 0 <=? lit 0.0525)%float = true /\
   (lit 0.0525 <=? E64 58)%float = true) /\
  (exists l : locals,
     inelastic_locals (lit 0.0525) 0 energy = Ok l /\
     between_neighbours (select_icross 0) l) /\
  (forall l : locals,
     elastic_locals (lit 0.0525) 0 energy = Ok l ->
     between_neighbours (select_ecross 0) l).
Proof.
  assert (H0 : (E64 0 <=? lit 0.0525)%float = true) by reflexivity.
  assert (H58 : (lit 0.0525 <=? E64 58)%float = true) by reflexivity.
  split; [auto|].
  exact (lookup_between_neighbours (lit 0.0525) 0 H0 H58).
Defined.

(** ** Order reversal in double precision *)

Section Antitone64.

Lemma chain64_down (c : nat -> float) (m n : nat) :
  m < n ->
  (forall k, m <= k < n -> (c (k + 1)%nat <=? c k)%float = true) ->
  (c n <=? c m)%float = true.
Proof.
  intros Hmn Hstep. induction n as [|n IH]; [lia|].
  destruct (Nat.eq_dec m n) as [->|Hne].
  - replace (S n) with (n + 1) by lia. apply Hstep. lia.
  - apply float_leb_trans with (c n).
    + replace (S n) with (n + 1) by lia. apply Hstep. lia.
    + apply IH; [lia|]. intros k Hk. apply Hstep. lia.
Qed.

Lemma interpolate_antitone64 (s : Z) (xc : list float) (r1 r2 : float) :
  xc = select_ecross s \/ xc = select_icross s ->
  (E64 0 <=? r1)%float = true -> (r1 <? r2)%float = true ->
  (r2 <=? E64 58)%float = true ->
  nonincreasing_between64 xc r1 r2 ->
  exists l1 l2 : locals,
    interpolate r1 xc energy = Ok l1 /\
    interpolate r2 xc energy = Ok l2 /\
    (cross_section l2 <=? cross_section l1)%float = true.
Proof.
  intros Hxc H0 H12 H58 Hmono.
  set (i1 := spec_ilow r1 energy). set (i2 := spec_ilow r2 energy).
  set (c := fun k => nth k xc (lit 0)).
  set (f := fun i => bin64 (E64 i) (E64 (i + 1)) (c i) (c (i + 1)%nat)).
  assert (Hle12 : (r1 <=? r2)%float = true) by (apply float_ltb_leb; exact H12).
  assert (H58' : (r1 <=? E64 58)%float = true)
    by (apply float_leb_trans with r2; assumption).
  assert (H0' : (E64 0 <=? r2)%float = true)
    by (apply float_leb_trans with r1; assumption).
  destruct (ilow64_bracket r1 H0 H58') as (Hlo1 & Hhi1 & Hs1).
  destruct (ilow64_bracket r2 H0' H58) as (Hlo2 & Hhi2 & Hs2).
  fold i1 in Hlo1, Hhi1, Hs1. fold i2 in Hlo2, Hhi2, Hs2.
  pose proof (spec_ilow_bound r1 energy) as Hb1. fold i1 in Hb1.
  pose proof (spec_ilow_bound r2 energy) as Hb2. fold i2 in Hb2.
  assert (Hi12 : i1 <= i2) by (apply ilow64_monotone; assumption).
  (* a bin that meets the interval has its points, in order *)
  assert (Hbin : forall i, i <= 57 -> (E64 i <? r2)%float = true ->
                 (r1 <? E64 (i + 1))%float = true ->
                 i + 1 < length xc /\ (c (i + 1)%nat <=? c i)%float = true).
  { intros i Hi Ha Hb.
    destruct (Hmono i Hi Ha Hb) as (x & x' & Hx & Hx' & Hle).
    split.
    - apply nth_error_Some. rewrite Hx'. discriminate.
    - unfold c. rewrite (nth_error_nth xc i _ Hx).
      rewrite (nth_error_nth xc (i + 1)%nat _ Hx'). exact Hle. }
  (* what the tables were checked for *)
  assert (Hchk : forall i, i <= 57 -> i + 1 < length xc ->
                 finite_not_negative (c i) = true /\
                 finite_not_negative (c (i + 1)%nat) = true /\
                 ((c (i + 1)%nat <=? c i)%float = true ->
                  (c (i + 1)%nat <=? f i (E64 (i + 1)))%float = true /\
                  (f i (E64 i) <=? c i)%float = true)).
  { intros i Hi Hlen.
    destruct (bin_facts s xc i (c i) (c (i + 1)%nat) Hxc Hi)
      as (T0 & T1 & _ & _ & Tf).
    - apply nth_error_nth'. lia.
    - apply nth_error_nth'. lia.
    - auto. }
  (* the end of a bin before one over which the curve does not rise *)
  assert (Hbnd : forall i, i <= 56 -> i + 2 < length xc ->
                 (c (i + 2)%nat <=? c (i + 1)%nat)%float = true ->
                 (c (i + 1)%nat <=? f i (E64 (i + 1)))%float = true).
  { intros i Hi Hlen Hc.
    destruct (falling_bins_checked s xc i Hxc ltac:(lia)) as [_ Hq].
    unfold boundary_check in Hq.
    rewrite (nth_error_nth' xc (lit 0)) in Hq by lia.
    rewrite (nth_error_nth' xc (lit 0)) in Hq by lia.
    rewrite (nth_error_nth' xc (lit 0)) in Hq by lia.
    fold (c i) (c (i + 1)%nat) (c (i + 2)%nat) in Hq.
    rewrite Hc in Hq. exact Hq. }
  (* antitony within one bin *)
  assert (Hin : forall i x y, i <= 57 -> i + 1 < length xc ->
                (c (i + 1)%nat <=? c i)%float = true ->
                (E64 i <=? x)%float = true -> (x <=? y)%float = true ->
                (y <=? E64 (i + 1))%float = true ->
                (f i y <=? f i x)%float = true).
  { intros i x y Hi Hlen Hc Hx Hxy Hy.
    destruct (Hchk i Hi Hlen) as (T0 & T1 & _).
    apply bin64_antitone; try assumption.
    - apply grid64_positive_finite. lia.
    - apply grid64_positive_finite. lia.
    - apply grid64_width_below_one. exact Hi. }
  assert (Hlast : (E64 i2 <? r2)%float = true).
  { destruct (Nat.eq_dec i2 0) as [Hz|Hnz].
    - rewrite Hz. apply float_leb_ltb_trans with r1; assumption.
    - apply Hs2. lia. }
  assert (Hnext : (r1 <? E64 (i2 + 1))%float = true)
    by (apply float_ltb_leb_trans with r2; assumption).
  destruct (Hbin i2 Hb2 Hlast Hnext) as [Hlen2 Hc2].
  rewrite (interpolate_in_range r1 xc (lit 0)) by (fold i1; lia).
  rewrite (interpolate_in_range r2 xc (lit 0)) by (fold i2; lia).
  do 2 eexists. split; [reflexivity|]. split; [reflexivity|].
  cbn [cross_section].
  change ((f i2 r2 <=? f i1 r1)%float = true).
  destruct (Nat.eq_dec i1 i2) as [Heq|Hne].
  - (* one bin *)
    rewrite Heq in *. apply Hin; assumption.
  - (* r1 in an earlier bin than r2 *)
    assert (Hlen1 : i1 + 1 < length xc) by lia.
    assert (Hv1 : (c (i1 + 1)%nat <=? f i1 r1)%float = true).
    { destruct (r1 <? E64 (i1 + 1))%float eqn:Hlt.
      - assert (Ha : (E64 i1 <? r2)%float = true)
          by (apply float_leb_ltb_trans with r1; assumption).
        destruct (Hbin i1 Hb1 Ha Hlt) as [_ Hc1].
        destruct (Hchk i1 Hb1 Hlen1) as (_ & _ & Tf).
        destruct (Tf Hc1) as [T2 _].
        apply float_leb_trans with (f i1 (E64 (i1 + 1))); [exact T2|].
        apply Hin; try assumption.
        apply grid64_monotone. lia.
      - assert (He : r1 = E64 (i1 + 1)).
        { apply float_leb_antisym; try assumption.
          - apply (between_positive_finite (E64 0) (E64 58)); try assumption;
              apply grid64_positive_finite; lia.
          - apply grid64_positive_finite. lia. }
        assert (Hnb : (E64 (i1 + 1) <? r2)%float = true)
          by (rewrite <- He; exact H12).
        assert (Hnn : (r1 <? E64 (i1 + 1 + 1))%float = true).
        { rewrite He. apply grid64_increasing. lia. }
        destruct (Hbin (i1 + 1) ltac:(lia) Hnb Hnn) as [Hlen' Hc'].
        rewrite He. apply Hbnd; [lia|lia|].
        replace (i1 + 2) with (i1 + 1 + 1) by lia. exact Hc'. }
    assert (Hv2 : (f i2 r2 <=? c i2)%float = true).
    { destruct (Hchk i2 Hb2 Hlen2) as (_ & _ & Tf).
      destruct (Tf Hc2) as [_ T3].
      apply float_leb_trans with (f i2 (E64 i2)); [|exact T3].
      apply Hin; try assumption.
      apply grid64_monotone. lia. }
    destruct (Nat.eq_dec (i1 + 1) i2) as [Hadj|Hfar].
    + rewrite Hadj in Hv1. apply float_leb_trans with (c i2); assumption.
    + apply float_leb_trans with (c i2); [exact Hv2|].
      apply float_leb_trans with (c (i1 + 1)%nat); [|exact Hv1].
      apply chain64_down; [lia|].
      intros k Hk. apply Hbin; [lia| |].
      * apply float_leb_ltb_trans with (E64 i2); [|exact Hlast].
        apply grid64_monotone. lia.
      * apply float_leb_ltb_trans with (E64 k).
        -- apply float_leb_trans with (E64 (i1 + 1)); [exact Hhi1|].
           apply grid64_monotone. lia.
        -- apply grid64_increasing. lia.
Qed.

End Antitone64.

(** X8: in double precision, for every selector and every pair of doubles
    [r1 < r2] inside [[energy[0], energy[58]]], if the selected curve does
    not rise over the bins that meet [[r1, r2]], then both lookups return
    and [lookup(r2) <= lookup(r1)]: where a curve falls, so do the
    interpolated values, roundings included. *)
Theorem interpolation_reverses_order (s : Z) (r1 r2 : float) :
  (E64 0 <=? r1)%float = true -> (r1 <? r2)%float = true ->
  (r2 <=? E64 58)%float = true ->
  (nonincreasing_between64 (select_ecross s) r1 r2 ->
   exists v1 v2 : float,
     get_elastic_crosssection r1 s energy = Ok v1 /\
     get_elastic_crosssection r2 s energy = Ok v2 /\
     (v2 <=? v1)%float = true) /\
  (nonincreasing_between64 (select_icross s) r1 r2 ->
   exists v1 v2 : float,
     get_inelastic_crosssection r1 s energy = Ok v1 /\
     get_inelastic_crosssection r2 s energy = Ok v2 /\
     (v2 <=? v1)%float = true).
Proof.
  intros H0 H12 H58. split; intros Hmono.
  - destruct (interpolate_antitone64 s _ r1 r2 (or_introl eq_refl)
                H0 H12 H58 Hmono) as (l1 & l2 & E1 & E2 & Hle).
    unfold get_elastic_crosssection, elastic_locals.
    rewrite E1, E2. simpl. eauto.
  - destruct (interpolate_antitone64 s _ r1 r2 (or_intror eq_refl)
                H0 H12 H58 Hmono) as (l1 & l2 & E1 & E2 & Hle).
    unfold get_inelastic_crosssection, inelastic_locals.
    rewrite E1, E2. simpl. eauto.
Qed.

(** Between 72 and 85 MeV, over the bins from 70 to 80 and from 80 to
    90 MeV, the carbon elastic curve falls from 0.515 to 0.448 and 0.392. *)
Lemma carbon_elastic_falls_near_80_MeV :
  nonincreasing_between64 (select_ecross 0) (lit 0.072) (lit 0.085).
Proof.
  intros i Hi Ha Hb.
  assert (Hall : forallb
            (fun k => implb ((E64 k <? lit 0.085)%float
                             && (lit 0.072 <? E64 (k + 1))%float)
                            (Nat.eqb k 35 || Nat.eqb k 36))
            (seq 0 58) = true) by (vm_compute; reflexivity).
  rewrite forallb_forall in Hall.
  assert (Hin : In i (seq 0 58)) by (apply in_seq; lia).
  specialize (Hall i Hin). rewrite Ha, Hb in Hall.
  apply orb_true_iff in Hall.
  destruct Hall as [Hall|Hall]; apply Nat.eqb_eq in Hall; subst i.
  - exists (lit 0.515), (lit 0.448).
    split; [reflexivity|]. split; [reflexivity|].
    vm_compute. reflexivity.
  - exists (lit 0.448), (lit 0.392).
    split; [reflexivity|]. split; [reflexivity|].
    vm_compute. reflexivity.
Qed.

Lemma interpolation_reverses_order_witness :
  ((E64 0 <=? lit 0.072)%float = true /\
   (lit 0.072 <? lit 0.085)%float = true /\
   (lit 0.085 <=? E64 58)%float = true) /\
  exists v1 v2 : float,
    get_elastic_crosssection (lit 0.072) 0 energy = Ok v1 /\
    get_elastic_crosssection (lit 0.085) 0 energy = Ok v2 /\
    (v2 <=? v1)%float = true.
Proof.
  assert (H0 : (E64 0 <=? lit 0.072)%float = true)
    by (vm_compute; reflexivity).
  assert (H12 : (lit 0.072 <? lit 0.085)%float = true)
    by (vm_compute; reflexivity).
  assert (H58 : (lit 0.085 <=? E64 58)%float = true)
    by (vm_compute; reflexivity).
  split; [auto|].
  exact (proj1 (interpolation_reverses_order 0 (lit 0.072) (lit 0.085)
                  H0 H12 H58)
               carbon_elastic_falls_near_80_MeV).
Defined.

(** ** Far above the table *)

Section FarAbove64.

Lemma Rnd_cases (x : float) (V : Z) : Rnd x V -> Val x V \/ x = infinity.
Proof.
  unfold Rnd, Val. intros H. pose proof (Prim2SF_valid x) as Hv.
  remember (Prim2SF x) as sx eqn:Ex. destruct H as [HV|m e He Hs|HV].
  - left. subst V. constructor.
  - left. subst V. constructor. exact Hv.
  - right. apply Prim2SF_inj. rewrite <- Ex. reflexivity.
Qed.

Lemma sub_infinity (c : float) :
  finite_not_negative c = true -> (c - infinity <? 0)%float = true.
Proof.
  unfold finite_not_negative.
  rewrite FloatAxioms.ltb_spec, FloatAxioms.sub_spec.
  change (Prim2SF infinity) with (S754_infinity false).
  destruct (Prim2SF c) as [[|]|[|]| |[|] m e]; try discriminate;
    reflexivity.
Qed.

Lemma mul_infinity (g : float) :
  positive_finite g = true -> (infinity * g)%float = infinity.
Proof.
  unfold positive_finite. intros H. apply Prim2SF_inj.
  rewrite FloatAxioms.mul_spec.
  change (Prim2SF infinity) with (S754_infinity false).
  destruct (Prim2SF g) as [[|]|[|]| |[|] m e]; try discriminate;
    reflexivity.
Qed.

Lemma leb_infinity (x : float) :
  positive_finite x = true -> (x <=? infinity)%float = true.
Proof.
  unfold positive_finite. rewrite FloatAxioms.leb_spec.
  change (Prim2SF infinity) with (S754_infinity false).
  destruct (Prim2SF x) as [[|]|[|]| |[|] m e]; try discriminate;
    reflexivity.
Qed.

(** From 600 GeV on, the product that the last bin takes away is at least
    the one at 600 GeV. *)
Lemma last_bin_product_monotone (g r : float) :
  positive_finite g = true ->
  positive_finite ((lit 600 - E64 57) / (E64 58 - E64 57) * g) = true ->
  (lit 600 <=? r)%float = true ->
  ((lit 600 - E64 57) / (E64 58 - E64 57) * g
   <=? (r - E64 57) / (E64 58 - E64 57) * g)%float = true.
Proof.
  intros Hg Hp Hr.
  assert (H600 : positive_finite (lit 600) = true) by reflexivity.
  destruct (above_positive_finite (lit 600) r H600 Hr) as [Hfin| ->].
  - destruct (grid64_Val 57 ltac:(lia)) as (XL & HXL & VL).
    destruct (grid64_Val 58 ltac:(lia)) as (XH & HXH & VH).
    destruct (positive_finite_Val r Hfin) as (X & HX & VX).
    destruct (positive_finite_Val (lit 600) H600) as (X6 & HX6 & VX6).
    destruct (positive_finite_Val g Hg) as (G & HG & VG).
    rewrite (Val_leb _ _ _ _ VX6 VX) in Hr. apply Z.leb_le in Hr.
    assert (HLH : (XL <= XH)%Z).
    { apply Z.leb_le. rewrite <- (Val_leb _ _ _ _ VL VH).
      apply grid64_monotone. lia. }
    assert (HH6 : (XH <= X6)%Z).
    { apply Z.leb_le. rewrite <- (Val_leb _ _ _ _ VH VX6). reflexivity. }
    pose proof (grid64_width_below_one 57 ltac:(lia)) as Hd.
    destruct (width_Val _ _ XL XH VL VH HLH Hd) as [_ HD].
    destruct (fraction_above (E64 57) (E64 58) r XL XH X VL VH VX HLH
                ltac:(lia) Hd) as [RF HF].
    destruct (fraction_above (E64 57) (E64 58) (lit 600) XL XH X6 VL VH VX6
                HLH HH6 Hd) as [RF6 HF6].
    pose proof (fraction_units_monotone XL XH X6 X ltac:(lia) HD) as Hmono.
    pose proof unit_positive as Hu.
    destruct (Rnd_cases _ _ RF6) as [VF6|Habs];
      [|vm_compute in Habs; discriminate].
    destruct (Rnd_cases _ _ RF) as [VF| ->].
    + apply (Rnd_leb _ _ _ _ (fmul_round _ _ _ _ VF6 VG)
                             (fmul_round _ _ _ _ VF VG)).
      apply RoundV_numerator; [|exact Hu]. split; [nia|].
      apply Z.mul_le_mono_nonneg_r; lia.
    + rewrite (mul_infinity g Hg). apply leb_infinity. exact Hp.
  - change ((infinity - E64 57) / (E64 58 - E64 57))%float with infinity.
    rewrite (mul_infinity g Hg). apply leb_infinity. exact Hp.
Qed.

(** A curve that passes the check gives a negative value from 600 GeV
    on, minus infinity included. *)
Lemma last_bin_below_zero (xc : list float) (r : float) :
  last_bin_check xc = true ->
  (lit 600 <=? r)%float = true ->
  (nth 57 xc (lit 0)
   + (r - E64 57) / (E64 58 - E64 57)
     * (nth 58 xc (lit 0) - nth 57 xc (lit 0)) <? 0)%float = true.
Proof.
  unfold last_bin_check. cbv zeta.
  set (cl := nth 57 xc (lit 0)). set (ch := nth 58 xc (lit 0)).
  intros Hchk Hr.
  apply andb_true_iff in Hchk. destruct Hchk as [Hchk Hlt].
  apply andb_true_iff in Hchk. destruct Hchk as [Hchk Hp].
  apply andb_true_iff in Hchk. destruct Hchk as [Hchk Hg].
  apply andb_true_iff in Hchk. destruct Hchk as [Hchk Hfall].
  apply andb_true_iff in Hchk. destruct Hchk as [Hcl Hch].
  apply negb_true_iff in Hfall.
  destruct (finite_not_negative_Val cl Hcl) as (CL & VCL).
  destruct (finite_not_negative_Val ch Hch) as (CH & VCH).
  rewrite (Val_leb _ _ _ _ VCL VCH) in Hfall. apply Z.leb_gt in Hfall.
  rewrite (bin64_falling_form cl ch _ CL CH VCL VCH Hfall).
  pose proof (last_bin_product_monotone (cl - ch) r Hg Hp Hr) as Hle.
  pose proof (float_ltb_leb_trans _ _ _ Hlt Hle) as Hlt'.
  destruct (above_positive_finite _ _ Hp Hle) as [Hfin|Hinf].
  - rewrite (float_sub_sign _ _ Hfin). exact Hlt'.
  - rewrite Hinf. apply sub_infinity. exact Hcl.
Qed.

(** The curves that fall over their last bin pass the check: the elastic
    ones of every selector but 3, the inelastic ones of selectors 0, 1
    and 2. *)
Lemma last_bins_checked (s : Z) :
  (s <> 3%Z -> last_bin_check (select_ecross s) = true) /\
  ((0 <= s <= 2)%Z -> last_bin_check (select_icross s) = true).
Proof.
  destruct (curves_of_selector s) as (k & Hk & H3 & -> & Hic).
  split.
  - intros Hs.
    assert (Hall : forallb
              (fun k => Nat.eqb k 3
                        || last_bin_check (select_ecross (Z.of_nat k)))
              (seq 0 8) = true) by (vm_compute; reflexivity).
    rewrite forallb_forall in Hall.
    assert (Hin : In k (seq 0 8)) by (apply in_seq; lia).
    specialize (Hall k Hin). apply orb_true_iff in Hall.
    destruct Hall as [Hall|Hall]; [|exact Hall].
    apply Nat.eqb_eq in Hall. tauto.
  - intros Hs.
    assert (Hcases : s = 0%Z \/ s = 1%Z \/ s = 2%Z) by lia.
    destruct Hcases as [->|[->| ->]]; vm_compute; reflexivity.
Qed.

End FarAbove64.

(** X9: the extrapolation above the table is not clamped at zero.  In
    double precision, for every request of at least 600 GeV, plus infinity
    included, the elastic lookup of every selector but 3 returns a negative
    value, and so does the inelastic lookup of selectors 0, 1 and 2 (carbon,
    aluminum, iron), whose curves also fall over the last bin. *)
Theorem far_above_table_is_negative (r : float) (s : Z) :
  (lit 600 <=? r)%float = true ->
  (s <> 3%Z ->
   exists v : float,
     get_elastic_crosssection r s energy = Ok v /\
     (v <? 0)%float = true) /\
  ((0 <= s <= 2)%Z ->
   exists v : float,
     get_inelastic_crosssection r s energy = Ok v /\
     (v <? 0)%float = true).
Proof.
  intros Hr.
  assert (H58 : (E64 58 <=? r)%float = true).
  { apply float_leb_trans with (lit 600); [reflexivity|exact Hr]. }
  destruct (locals_above_table r s H58) as [Hil Hel].
  destruct (last_bins_checked s) as [Ce Ci].
  split; intros Hs.
  - unfold get_elastic_crosssection. rewrite (Hel Hs).
    eexists. split; [reflexivity|]. cbn [cross_section].
    apply last_bin_below_zero; [exact (Ce Hs)|exact Hr].
  - unfold get_inelastic_crosssection. rewrite Hil.
    eexists. split; [reflexivity|]. cbn [cross_section].
    apply last_bin_below_zero; [exact (Ci Hs)|exact Hr].
Qed.

Lemma far_above_table_is_negative_witness :
  (lit 600 <=? lit 1000)%float = true /\
  exists v : float,
    get_elastic_crosssection (lit 1000) 7 energy = Ok v /\
    (v <? 0)%float = true.
Proof.
  split; [reflexivity|].
  apply (far_above_table_is_negative (lit 1000) 7); [reflexivity|].
  discriminate.
Defined.

(** ** When a lookup raises *)

Section Failures.
Context {F : Type} {AR : Arith F}.

(** With the energy table of the module, the inelastic lookup returns, and
    the elastic one raises exactly for selector 3 in bin 57. *)
Lemma inelastic_returns (r : F) (s : Z) (e : exn) :
  get_inelastic_crosssection r s energy <> Raise e.
Proof.
  destruct (lookups_in_range F AR r s) as [_ (l & Hl & _)].
  unfold get_inelastic_crosssection. rewrite Hl. discriminate.
Qed.

Lemma elastic_raises_iff (r : F) (s : Z) (e : exn) :
  get_elastic_crosssection r s energy = Raise e <->
  e = IndexError /\ s = 3%Z /\ spec_ilow r energy = 57.
Proof.
  pose proof (spec_ilow_bound r energy) as Hb.
  split.
  - intros H.
    destruct (Z.eq_dec s 3) as [->|Hs].
    + destruct (Nat.eq_dec (spec_ilow r energy) 57) as [Hi|Hi].
      * unfold get_elastic_crosssection, elastic_locals in H.
        rewrite interpolate_out_of_range in H
          by (rewrite Hi; apply Nat.eq_le_incl; reflexivity).
        simpl in H. inversion H. auto.
      * unfold get_elastic_crosssection, elastic_locals in H.
        rewrite (interpolate_in_range r (select_ecross 3) (lit 0)) in H
          by (pose proof (select_ecross_length_ge (F := F) 3); lia).
        discriminate.
    + destruct (lookups_in_range F AR r s) as [He _].
      destruct (He Hs) as (l & Hl & _).
      unfold get_elastic_crosssection in H. rewrite Hl in H. discriminate.
  - intros (-> & -> & Hi).
    unfold get_elastic_crosssection, elastic_locals.
    rewrite interpolate_out_of_range; [reflexivity|].
    rewrite Hi. apply Nat.eq_le_incl. reflexivity.
Qed.

End Failures.

(** X10: the one failure of the lookups with the tables of the module.  For
    every request and every selector the inelastic lookup returns; the
    elastic lookup raises exactly for selector 3 (copper, whose elastic
    table is one entry short) when the request is not [<= energy[57]] =
    2.0 GeV, and the exception is [IndexError]; for selector 3 at or below
    2.0 GeV it returns.  In double precision (where the failing requests
    include NaN) and in exact arithmetic. *)
Theorem lookups_raise_exactly_when :
  (forall (r : float) (s : Z) (e : exn),
     get_inelastic_crosssection r s energy <> Raise e /\
     (get_elastic_crosssection r s energy = Raise e <->
      e = IndexError /\ s = 3%Z /\ (r <=? lit 2.0)%float = false)) /\
  (forall (r : real) (s : Z) (e : exn),
     get_inelastic_crosssection r s energy <> Raise e /\
     (get_elastic_crosssection r s energy = Raise e <->
      e = IndexError /\ s = 3%Z /\ (lit 2.0 < r)%R)).
Proof.
  split; intros r s e; (split; [apply inelastic_returns|]);
    rewrite elastic_raises_iff.
  - assert (Hi : spec_ilow r energy = 57 <-> (r <=? lit 2.0)%float = false).
    { rewrite (ilow64_characterised r 57).
      change (E64 57) with (lit (F := float) 2.0).
      split; [intros (_ & _ & H); apply H; lia|intros H].
      split; [lia|]. split; [lia|intros _; exact H]. }
    rewrite Hi. reflexivity.
  - assert (Hi : spec_ilow r energy = 57 <-> (lit 2.0 < r)%R).
    { assert (E57 : E 57 = lit 2.0).
      { rewrite E_literal. reflexivity. }
      rewrite <- E57. split; [intros H|apply ilow_last].
      destruct (ilow_exact r) as (_ & _ & Hdown).
      rewrite H in Hdown. apply (Hdown 56). lia. }
    rewrite Hi. reflexivity.
Qed.

(** ** Where a curve is zero *)

Section Zero64.

Lemma finite64_unit_interval (f : float) :
  (0 <=? f)%float = true -> (f <=? 1)%float = true -> finite64 f = true.
Proof.
  unfold finite64. rewrite !FloatAxioms.leb_spec.
  change (Prim2SF 0) with (S754_zero false).
  change (Prim2SF 1) with (S754_finite false 4503599627370496 (-52)).
  destruct (Prim2SF f) as [[|]|[|]| |[|] m e]; try discriminate;
    reflexivity.
Qed.

(** Between two zeros the lookup computes [0 + e * (0 - 0)], which is [0]
    for every finite fraction [e], whatever its sign. *)
Lemma zero_bin (f : float) :
  finite64 f = true -> (0 + f * (0 - 0))%float = 0%float.
Proof.
  unfold finite64. intros H. apply Prim2SF_inj.
  rewrite FloatAxioms.add_spec, FloatAxioms.mul_spec, FloatAxioms.sub_spec.
  change (Prim2SF 0) with (S754_zero false).
  destruct (Prim2SF f) as [[|]|[|]| |[|] m e]; try discriminate;
    reflexivity.
Qed.

Lemma Val_unique (x : float) (V V' : Z) : Val x V -> Val x V' -> V = V'.
Proof.
  unfold Val. intros H H'. destruct H as [|m e Hv].
  - inversion H'. reflexivity.
  - inversion H'. reflexivity.
Qed.

(** From [0] up to [energy[0]] the fraction of the first bin is finite. *)
Lemma efrac64_below_finite (r : float) :
  (0 <=? r)%float = true -> (E64 0 <=? r)%float = false ->
  finite64 ((r - E64 0) / (E64 1 - E64 0)) = true.
Proof.
  intros H0 HE.
  pose proof (Prim2SF_valid r) as Hv.
  destruct (Prim2SF r) as [[|]|[|]| |[|] m e] eqn:Er.
  - (* -0 *)
    assert (Hr : r = (-0)%float)
      by (apply Prim2SF_inj; rewrite Er; reflexivity).
    rewrite Hr. vm_compute. reflexivity.
  - (* +0 *)
    assert (Hr : r = 0%float)
      by (apply Prim2SF_inj; rewrite Er; reflexivity).
    rewrite Hr. vm_compute. reflexivity.
  - rewrite FloatAxioms.leb_spec, Er in H0. discriminate.
  - rewrite FloatAxioms.leb_spec, Er in HE. discriminate.
  - rewrite FloatAxioms.leb_spec, Er in H0. discriminate.
  - rewrite FloatAxioms.leb_spec, Er in H0. discriminate.
  - (* a positive finite request below the table *)
    assert (VX : Val r (sv m e)).
    { unfold Val. rewrite Er. constructor. exact Hv. }
    destruct (grid64_Val 0 ltac:(lia)) as (XL & HXL & VL).
    destruct (grid64_Val 1 ltac:(lia)) as (XH & HXH & VH).
    rewrite (Val_leb _ _ _ _ VL VX) in HE. apply Z.leb_gt in HE.
    assert (HLH : (XL <= XH)%Z).
    { apply Z.leb_le. rewrite <- (Val_leb _ _ _ _ VL VH).
      apply grid64_monotone. lia. }
    pose proof (grid64_width_below_one 0 ltac:(lia)) as Hd.
    change (0 + 1) with 1 in Hd.
    destruct (width_Val _ _ XL XH VL VH HLH Hd) as [VD HD].
    destruct (difference_Val (E64 0) r XL (sv m e) VL VX ltac:(lia))
      as [VU HU].
    pose proof (Val_bounds _ _ VX) as BX.
    pose proof (fdiv_round _ _ _ _ VU VD Hd) as RQ.
    pose proof (fdiv_round _ _ _ _ VL VD Hd) as R1.
    change (E64 0 / (E64 1 - E64 0))%float with 1%float in R1.
    destruct (Rnd_cases _ _ R1) as [V1|Habs];
      [|vm_compute in Habs; discriminate].
    pose proof (Val_unique _ _ _ V1 Val_one) as Hone.
    pose proof unit_positive as Hu. pose proof unit_below_overflow as Ho.
    assert (Hq : (RoundV (RoundV (XL - sv m e) 1 * 2 ^ (- emin64))
                         (RoundV (XH - XL) 1)
                  <= 2 ^ (- emin64))%Z).
    { apply Z.le_trans
        with (RoundV (XL * 2 ^ (- emin64)) (RoundV (XH - XL) 1));
        [|rewrite Hone; lia].
      apply RoundV_numerator; [|exact HD].
      split; [nia|]. apply Z.mul_le_mono_nonneg_r; lia. }
    pose proof (Rnd_Val _ _ RQ ltac:(lia)) as VQ.
    assert (Hopp : Prim2SF ((r - E64 0) / (E64 1 - E64 0))
                   = SFopp (Prim2SF ((E64 0 - r) / (E64 1 - E64 0)))).
    { rewrite !FloatAxioms.div_spec, !FloatAxioms.sub_spec.
      unfold SF64div, SF64sub.
      rewrite (SFsub_swap (Prim2SF r) (Prim2SF (E64 0)) (sv m e) XL
                 VX VL HE).
      apply SFdiv_opp_l. }
    unfold finite64. rewrite Hopp.
    unfold Val in VQ.
    destruct (Prim2SF ((E64 0 - r) / (E64 1 - E64 0))) as [s|s| |s mq eq];
      try reflexivity; inversion VQ.
Qed.

(** The bin of a request at or below [energy[n]] ends at or below entry
    [n]. *)
Lemma ilow64_at_most (r : float) (n : nat) :
  1 <= n <= 58 -> (r <=? E64 n)%float = true ->
  spec_ilow r energy + 1 <= n.
Proof.
  intros Hn Hr. pose proof (spec_ilow_bound r energy) as Hb.
  destruct (proj1 (ilow64_characterised r (spec_ilow r energy)) eq_refl)
    as (_ & _ & Hdown).
  destruct (Nat.le_gt_cases (spec_ilow r energy + 1) n) as [H|H];
    [exact H|].
  assert (Hpos : 0 < spec_ilow r energy) by lia.
  specialize (Hdown Hpos).
  assert (Habs : (r <=? E64 (spec_ilow r energy))%float = true).
  { apply float_leb_trans with (E64 n); [exact Hr|].
    apply grid64_monotone. lia. }
  rewrite Habs in Hdown. discriminate.
Qed.

(** What is not negative and not at or above [energy[0]] is below every
    energy of the table. *)
Lemma below_first (r : float) (k : nat) :
  k <= 58 -> (0 <=? r)%float = true -> (E64 0 <=? r)%float = false ->
  (r <=? E64 k)%float = true.
Proof.
  intros Hk H0 HE.
  apply float_leb_trans with (E64 0); [|apply grid64_monotone; lia].
  pose proof (grid64_positive_finite 0 ltac:(lia)) as Hc.
  revert Hc H0 HE. unfold positive_finite.
  rewrite !FloatAxioms.leb_spec.
  change (Prim2SF 0) with (S754_zero false).
  destruct (Prim2SF (E64 0)) as [sc|sc| |sc mc ec]; try discriminate.
  destruct sc; try discriminate.
  destruct (Prim2SF r) as [[|]|[|]| |[|] m e]; try discriminate;
    try reflexivity.
  intros _ _. unfold SFleb, SFcompare.
  change (Pos.compare_cont Eq) with Pos.compare.
  destruct (Z.compare_spec ec e), (Z.compare_spec e ec);
    try lia; try discriminate; try reflexivity.
  subst. destruct (Pos.compare_spec mc m), (Pos.compare_spec m mc);
    try lia; try discriminate; try reflexivity.
Qed.

Lemma interpolate_zero (xc : list float) (r : float) (n : nat) :
  1 <= n <= 58 -> (0 <=? r)%float = true -> (r <=? E64 n)%float = true ->
  zero_through xc n ->
  exists l : locals,
    interpolate r xc energy = Ok l /\ cross_section l = 0%float.
Proof.
  intros Hn H0 Hr Hz.
  pose proof (ilow64_at_most r n Hn Hr) as Hi.
  set (i := spec_ilow r energy) in *.
  pose proof (Hz i ltac:(lia)) as Hc. pose proof (Hz (i + 1) Hi) as Hc'.
  assert (Hlen : i + 1 < length xc).
  { apply nth_error_Some. rewrite Hc'. discriminate. }
  rewrite (interpolate_in_range r xc (lit 0)) by (fold i; exact Hlen).
  fold i. eexists. split; [reflexivity|]. cbn [cross_section].
  rewrite (nth_error_nth xc i _ Hc), (nth_error_nth xc (i + 1) _ Hc').
  apply zero_bin.
  destruct (E64 0 <=? r)%float eqn:HE.
  - apply finite64_unit_interval;
      apply efrac64_unit_interval; try exact HE;
      (apply float_leb_trans with (E64 n); [exact Hr|];
       apply grid64_monotone; lia).
  - assert (Hr1 : fleb r (nth 1 energy (lit 0)) = true)
      by (apply (below_first r 1); [lia|exact H0|exact HE]).
    rewrite efrac64. fold i.
    assert (Hi0 : i = 0) by (apply spec_ilow_first; exact Hr1).
    rewrite Hi0. apply efrac64_below_finite; assumption.
Qed.

(** Every curve of the module starts with four zeros at least. *)
Lemma curves_zero_through_3 (s : Z) :
  zero_through (select_ecross s) 3 /\ zero_through (select_icross s) 3.
Proof.
  destruct (curves_of_selector s) as (k & Hk & _ & -> & ->).
  assert (Hall : forallb
            (fun k => forallb
               (fun j =>
                  match nth_error (select_ecross (Z.of_nat k)) j,
                        nth_error (select_icross (Z.of_nat k)) j with
                  | Some c, Some c' =>
                      PrimFloat.Leibniz.eqb c 0 && PrimFloat.Leibniz.eqb c' 0
                  | _, _ => false
                  end)
               (seq 0 4))
            (seq 0 8) = true) by (vm_compute; reflexivity).
  rewrite forallb_forall in Hall.
  assert (Hin : In k (seq 0 8)) by (apply in_seq; lia).
  specialize (Hall k Hin). rewrite forallb_forall in Hall.
  split; intros j Hj;
    (assert (Hjn : In j (seq 0 4)) by (apply in_seq; lia));
    specialize (Hall j Hjn);
    destruct (nth_error (select_ecross (Z.of_nat k)) j) as [c|];
    try discriminate;
    destruct (nth_error (select_icross (Z.of_nat k)) j) as [c'|];
    try discriminate;
    apply andb_true_iff in Hall; destruct Hall as [Hc Hc'];
    apply FloatAxioms.Leibniz.eqb_spec in Hc;
    apply FloatAxioms.Leibniz.eqb_spec in Hc'; congruence.
Qed.

End Zero64.

(** X11: where a curve is zero, so is the lookup, exactly.  In double
    precision, for every selector, every [n] in [[1, 58]] and every request
    [r] with [0 <= r <= energy[n]], requests below [energy[0]] included:
    if the selected curve is [0.0] up to entry [n], the lookup returns
    [0.0], neither a rounding residue nor NaN.  Every curve of the module
    is zero up to entry 3, so at or below [energy[3]] = 2 MeV both lookups
    return [0.0] for every selector, selector 3 included. *)
Theorem zero_where_curve_is_zero (r : float) (s : Z) (n : nat) :
  1 <= n <= 58 -> (0 <=? r)%float = true -> (r <=? E64 n)%float = true ->
  (zero_through (select_ecross s) n ->
   get_elastic_crosssection r s energy = Ok 0%float) /\
  (zero_through (select_icross s) n ->
   get_inelastic_crosssection r s energy = Ok 0%float) /\
  (n <= 3 ->
   get_elastic_crosssection r s energy = Ok 0%float /\
   get_inelastic_crosssection r s energy = Ok 0%float).
Proof.
  intros Hn H0 Hr.
  assert (He : forall m, 1 <= m <= 58 -> (r <=? E64 m)%float = true ->
               zero_through (select_ecross s) m ->
               get_elastic_crosssection r s energy = Ok 0%float).
  { intros m Hm Hrm Hz.
    destruct (interpolate_zero _ r m Hm H0 Hrm Hz) as (l & Hl & Hv).
    unfold get_elastic_crosssection, elastic_locals.
    rewrite Hl. simpl. rewrite Hv. reflexivity. }
  assert (Hi : forall m, 1 <= m <= 58 -> (r <=? E64 m)%float = true ->
               zero_through (select_icross s) m ->
               get_inelastic_crosssection r s energy = Ok 0%float).
  { intros m Hm Hrm Hz.
    destruct (interpolate_zero _ r m Hm H0 Hrm Hz) as (l & Hl & Hv).
    unfold get_inelastic_crosssection, inelastic_locals.
    rewrite Hl. simpl. rewrite Hv. reflexivity. }
  split; [apply He; assumption|]. split; [apply Hi; assumption|].
  intros H3.
  assert (Hr3 : (r <=? E64 3)%float = true).
  { apply float_leb_trans with (E64 n); [exact Hr|].
    apply grid64_monotone. lia. }
  destruct (curves_zero_through_3 s) as [Ze Zi].
  split; [apply (He 3)|apply (Hi 3)]; try assumption; lia.
Qed.

(** The two curves of lead are zero up to entry 14, 7.5 MeV. *)
Lemma lead_zero_through_14 :
  zero_through (select_ecross 7) 14 /\ zero_through (select_icross 7) 14.
Proof.
  split; intros k Hk;
    do 15 (destruct k as [|k]; [vm_compute; reflexivity|]); lia.
Qed.

Lemma zero_where_curve_is_zero_witness :
  (1 <= 14 <= 58 /\ (0 <=? lit 0.006)%float = true /\
   (lit 0.006 <=? E64 14)%float = true) /\
  get_elastic_crosssection (lit 0.006) 7 energy = Ok 0%float /\
  get_inelastic_crosssection (lit 0.006) 7 energy = Ok 0%float.
Proof.
  assert (Hn : 1 <= 14 <= 58) by lia.
  assert (H0 : (0 <=? lit 0.006)%float = true) by (vm_compute; reflexivity).
  assert (Hr : (lit 0.006 <=? E64 14)%float = true)
    by (vm_compute; reflexivity).
  split; [auto|].
  pose proof (zero_where_curve_is_zero (lit 0.006) 7 14 Hn H0 Hr) as T.
  destruct T as (He & Hi & _).
  destruct lead_zero_through_14 as [Ze Zi].
  split; [exact (He Ze)|exact (Hi Zi)].
Defined.

(** ** A request that is not a number *)

Section NotANumber.

Lemma is_nan_eq (r : float) : is_nan r = true -> r = nan.
Proof.
  unfold is_nan. rewrite FloatAxioms.eqb_spec. intros H.
  apply Prim2SF_inj. change (Prim2SF nan) with S754_nan.
  destruct (Prim2SF r) as [[|]|[|]| |[|] m e]; try discriminate;
    try reflexivity; exfalso; revert H;
    unfold SFeqb, SFcompare;
    rewrite Z.compare_refl;
    change (Pos.compare_cont Eq m m) with (Pos.compare m m);
    rewrite Pos.compare_refl; discriminate.
Qed.

Lemma nan_absorbs (c x : float) : (c + nan * x)%float = nan.
Proof.
  apply Prim2SF_inj.
  rewrite FloatAxioms.add_spec, FloatAxioms.mul_spec.
  change (Prim2SF nan) with S754_nan.
  destruct (Prim2SF c) as [[|]|[|]| |[|] m e]; reflexivity.
Qed.

Lemma interpolate_nan (xc : list float) :
  59 <= length xc ->
  interpolate nan xc energy = Ok (mkLocals 57 nan nan).
Proof.
  intros Hlen.
  assert (Hi : spec_ilow nan energy = 57)
    by (apply ilow64_last; reflexivity).
  assert (Hf : spec_efrac nan energy = nan).
  { rewrite efrac64, Hi. vm_compute. reflexivity. }
  rewrite (interpolate_in_range nan xc (lit 0)) by (rewrite Hi; lia).
  rewrite Hi, Hf, nan_absorbs. reflexivity.
Qed.

End NotANumber.

(** X12: a request that is not a number is not rejected.  In double
    precision, for a NaN request every comparison of the scan fails, so
    the scan ends at the default [ilow = 57], the fraction is NaN and the
    value is NaN: the inelastic lookup returns NaN for every selector, the
    elastic one for every selector but 3. *)
Theorem nan_request_gives_nan (r : float) (s : Z) :
  is_nan r = true ->
  (exists l : locals,
     inelastic_locals r s energy = Ok l /\
     ilow l = 57 /\ is_nan (efrac l) = true /\
     is_nan (cross_section l) = true) /\
  (exists v : float,
     get_inelastic_crosssection r s energy = Ok v /\ is_nan v = true) /\
  (s <> 3%Z ->
   exists v : float,
     get_elastic_crosssection r s energy = Ok v /\ is_nan v = true).
Proof.
  intros Hr. apply is_nan_eq in Hr. subst r.
  assert (Hil : inelastic_locals nan s energy = Ok (mkLocals 57 nan nan)).
  { apply interpolate_nan. rewrite (select_icross_length s). lia. }
  split; [|split].
  - exists (mkLocals 57 nan nan). split; [exact Hil|].
    repeat split; reflexivity.
  - unfold get_inelastic_crosssection. rewrite Hil.
    exists nan. split; reflexivity.
  - intros Hs. unfold get_elastic_crosssection, elastic_locals.
    rewrite interpolate_nan by (rewrite (select_ecross_length s Hs); lia).
    exists nan. split; reflexivity.
Qed.

Lemma nan_request_gives_nan_witness :
  is_nan (0 / 0)%float = true /\
  exists v : float,
    get_inelastic_crosssection (0 / 0)%float 3 energy = Ok v /\
    is_nan v = true.
Proof.
  split; [reflexivity|].
  apply (nan_request_gives_nan (0 / 0)%float 3). reflexivity.
Defined.
